(** * archipack floor heating: the serpentine path finder

    A shallow embedding of the geometric core of
    [archipack_floor_heating.py]: the segment primitives ([Seg]), the
    oriented frame ([Turtle]), the segment tree ([Tree]) and the
    stepping engine ([PathFinder]), followed by the properties of the
    specification that were checked against it.

    Numbers.  The Python code computes on floats; here every float is a
    real number and every operation is exact.  Comparisons ([==], [<],
    [<=]) are the decidable comparisons of [R].

    Vectors.  [mathutils.Vector] values of the program have three
    components; [*] between two vectors is their dot product.

    Failure.  Indexing a Python list out of range raises [IndexError]
    and a float division by zero raises [ZeroDivisionError]; functions
    that may raise return a [result]. *)

From Stdlib Require Import Reals Lra Lia ZArith List Bool.
Import ListNotations.

Open Scope R_scope.

(** ** Exceptions *)

Inductive exn : Type :=
| IndexError
| ZeroDivisionError.

Inductive result (A : Type) : Type :=
| Ok (a : A)
| Raise (e : exn).

Arguments Ok {A} a.
Arguments Raise {A} e.

Definition bind {A B : Type} (m : result A) (k : A -> result B) : result B :=
  match m with
  | Ok a => k a
  | Raise e => Raise e
  end.

Declare Scope py_scope.
Delimit Scope py_scope with py.

Notation "x <- m ;; k" := (bind m (fun x => k))
  (at level 61, m at next level, right associativity) : py_scope.
Notation "' pat <- m ;; k" := (bind m (fun x => match x with pat => k end))
  (at level 61, pat pattern, m at next level, right associativity) : py_scope.

Open Scope py_scope.

(** [l[i]] of a Python list: a negative index counts from the end. *)
Definition getitem {A : Type} (l : list A) (i : Z) : result A :=
  let n := Z.of_nat (length l) in
  let j := if (i <? 0)%Z then (i + n)%Z else i in
  if ((0 <=? j)%Z && (j <? n)%Z)%bool
  then match nth_error l (Z.to_nat j) with
       | Some a => Ok a
       | None => Raise IndexError
       end
  else Raise IndexError.

(** ** Comparisons of reals as booleans *)

Module Num.

Definition eqb (a b : R) : bool := if Req_dec_T a b then true else false.
Definition ltb (a b : R) : bool := if Rlt_dec a b then true else false.
Definition leb (a b : R) : bool := if Rle_dec a b then true else false.

End Num.

(** ** Vectors ([mathutils.Vector], three components) *)

Module Vector.

Record t : Type := mk { x : R; y : R; z : R }.

Definition zero : t := mk 0 0 0.

Definition add (a b : t) : t := mk (x a + x b) (y a + y b) (z a + z b).
Definition sub (a b : t) : t := mk (x a - x b) (y a - y b) (z a - z b).
Definition neg (a : t) : t := mk (- x a) (- y a) (- z a).
Definition scale (k : R) (a : t) : t := mk (k * x a) (k * y a) (k * z a).

(** [a * b] *)
Definition dot (a b : t) : R := x a * x b + y a * y b + z a * z b.

(** [a.cross(b)] *)
Definition cross (a b : t) : t :=
  mk (y a * z b - z a * y b) (z a * x b - x a * z b) (x a * y b - y a * x b).

(** [a.length] *)
Definition length (a : t) : R := sqrt (dot a a).

(** [a.normalized()]: a vector of length zero is left as the zero
    vector. *)
Definition normalized (a : t) : t :=
  if Num.eqb (length a) 0 then zero else scale (/ length a) a.

(** Equality up to the third coordinate, which the planar algebra of
    the program ignores. *)
Definition xy_eq (a b : t) : Prop := x a = x b /\ y a = y b.

Definition flat (a : t) : Prop := z a = 0.

End Vector.

Declare Scope vec_scope.
Delimit Scope vec_scope with vec.
Bind Scope vec_scope with Vector.t.
Infix "+" := Vector.add : vec_scope.
Infix "-" := Vector.sub : vec_scope.
Notation "- a" := (Vector.neg a) : vec_scope.
Infix "*:" := Vector.scale (at level 40, left associativity).

(** ** Envelopes *)

Module Envelope.

(** Modelled from the spec: [Envelope] of [archipack_polylines], the
    axis-aligned bounding rectangle of a geometric entity. *)
Record t : Type := mk { minx : R; maxx : R; miny : R; maxy : R }.

(** Modelled from the spec: [Envelope(p0, p1)] and [initByPoints], the
    bounding rectangle of two points. *)
Definition initByPoints (p0 p1 : Vector.t) : t :=
  mk (Rmin (Vector.x p0) (Vector.x p1)) (Rmax (Vector.x p0) (Vector.x p1))
     (Rmin (Vector.y p0) (Vector.y p1)) (Rmax (Vector.y p0) (Vector.y p1)).

(** Modelled from the spec: growing a rectangle by a tolerance on
    every side. *)
Definition expandBy (e : t) (d : R) : t :=
  mk (minx e - d) (maxx e + d) (miny e - d) (maxy e + d).

(** Modelled from the spec: the overlap test of two rectangles. *)
Definition intersects (a b : t) : bool :=
  (Num.leb (minx a) (maxx b) && Num.leb (minx b) (maxx a)
   && Num.leb (miny a) (maxy b) && Num.leb (miny b) (maxy a))%bool.

End Envelope.

(** ** Segments ([class Seg]) *)

Module Seg.

(** A segment is an origin [p], a direction [v] and the index [idx]
    it has in the tree ([-1] when it has none).  Its envelope is
    refreshed by the program whenever [p] or [v] is set, so it is a
    function of both here. *)
Record t : Type := mk { p : Vector.t; v : Vector.t; idx : Z }.

(** [Seg(p, v)] *)
Definition new (p0 v0 : Vector.t) : t := mk p0 v0 (-1).

Definition envelope (s : t) : Envelope.t :=
  Envelope.initByPoints (p s) (p s + v s).

(** [self.init(p, v)] *)
Definition init (s : t) (p0 v0 : Vector.t) : t := mk p0 v0 (idx s).

Definition flat (s : t) : Prop := Vector.flat (p s) /\ Vector.flat (v s).

(** [Vector((other.v.y, -other.v.x, 0))] *)
Definition perp (a : Vector.t) : Vector.t :=
  Vector.mk (Vector.y a) (- Vector.x a) 0.

(** [self.t(other)] *)
Definition t_ (s other : t) : R :=
  let c := perp (v other) in
  let d := Vector.dot (v s) c in
  if Num.eqb d 0 then 0
  else
    let dp := (p other - p s)%vec in
    Vector.dot c dp / d.

(** [self.intersect_ext(other)] *)
Definition intersect_ext (s other : t) : bool * Vector.t * R * R :=
  let c := perp (v other) in
  let d := Vector.dot (v s) c in
  if Num.eqb d 0 then (false, p s, 0, 0)
  else
    let dp := (p other - p s)%vec in
    let c2 := perp (v s) in
    let u := Vector.dot c dp / d in
    let v' := Vector.dot c2 dp / d in
    (true, (p s + u *: v s)%vec, u, v').

(** [self.point_on_seg(pt)] *)
Definition point_on_seg (s : t) (pt : Vector.t) : R :=
  let dp := (pt - p s)%vec in
  let dl := Vector.length (v s) in
  if Num.eqb dl 0 then 0
  else Vector.dot (v s) dp / (dl * dl).

(** [self.farest_point(other)] *)
Definition farest_point (s other : t) : R * Vector.t :=
  let p0 := p other in
  let p1 := (p0 + v other)%vec in
  let t0 := point_on_seg s p0 in
  let t1 := point_on_seg s p1 in
  if Num.ltb t0 t1 then (t1, p1) else (t0, p0).

(** [self.nearest_point(other)] *)
Definition nearest_point (s other : t) : R * Vector.t :=
  let p0 := p other in
  let p1 := (p0 + v other)%vec in
  let t0 := point_on_seg s p0 in
  let t1 := point_on_seg s p1 in
  if Num.ltb t1 t0 then (t1, p1) else (t0, p0).

(** [self.distance_pt(pt)] *)
Definition distance_pt (s : t) (pt : Vector.t) : R * R :=
  let dp := (pt - p s)%vec in
  let dl := Vector.length (v s) in
  if Num.eqb dl 0 then (0, 0)
  else
    let d := (Vector.x (v s) * Vector.y dp - Vector.y (v s) * Vector.x dp) / dl in
    let t0 := Vector.dot (v s) dp / (dl * dl) in
    (d, t0).

(** [self.minimal_dist(other)] *)
Definition minimal_dist (s other : t) : R :=
  let d0 := fst (distance_pt s (p other)) in
  let d1 := fst (distance_pt s (p other + v other)%vec) in
  if Num.ltb d1 d0 then d1 else d0.

(** The determinant of the two directions (their planar cross
    product). *)
Definition det (s other : t) : R :=
  Vector.x (v s) * Vector.y (v other) - Vector.y (v s) * Vector.x (v other).

(** The distance of a point to the line carrying a segment, as
    geometry defines it: never negative. *)
Definition line_distance (s : t) (pt : Vector.t) : R :=
  Rabs (Vector.x (v s) * (Vector.y pt - Vector.y (p s))
        - Vector.y (v s) * (Vector.x pt - Vector.x (p s)))
  / Vector.length (v s).

End Seg.

(** ** The oriented frame ([class Turtle]) *)

Module Turtle.

(** The six probe segments of the Python object are built on one
    shared position vector, which [move] and [relocate] update in
    place: the frame therefore holds a single [p] and the direction of
    each probe.  [up] and [zAxis] are set together with [cw] by
    [init_side] and follow from it. *)
Record t : Type := mk {
  p : Vector.t;
  cw : bool;
  front_v : Vector.t;
  front2_v : Vector.t;
  front3_v : Vector.t;
  left_v : Vector.t;
  left2_v : Vector.t;
  right_v : Vector.t
}.

Definition side_up (c : bool) : R := if c then 1 else -1.

Definition up (tu : t) : R := side_up (cw tu).
Definition zAxis (tu : t) : Vector.t := Vector.mk 0 0 (up tu).

Definition front (tu : t) : Seg.t := Seg.new (p tu) (front_v tu).
Definition front2 (tu : t) : Seg.t := Seg.new (p tu) (front2_v tu).
Definition front3 (tu : t) : Seg.t := Seg.new (p tu) (front3_v tu).
Definition left (tu : t) : Seg.t := Seg.new (p tu) (left_v tu).
Definition left2 (tu : t) : Seg.t := Seg.new (p tu) (left2_v tu).
Definition right (tu : t) : Seg.t := Seg.new (p tu) (right_v tu).

(** [Turtle(p, v, cw)] *)
Definition new (p0 v0 : Vector.t) (c : bool) : t :=
  let side := Vector.cross v0 (Vector.mk 0 0 (side_up c)) in
  mk p0 c v0 (2 *: v0) (3 *: v0) (- side)%vec (2 *: (- side)%vec) side.

(** [self.rotate(v)] *)
Definition rotate (tu : t) (v0 : Vector.t) : t :=
  let side := Vector.cross v0 (zAxis tu) in
  mk (p tu) (cw tu) v0 (2 *: v0) (3 *: v0) (- side)%vec (2 *: (- side)%vec) side.

(** [self.move(v)] *)
Definition move (tu : t) (v0 : Vector.t) : t :=
  mk (p tu + v0)%vec (cw tu) (front_v tu) (front2_v tu) (front3_v tu)
     (left_v tu) (left2_v tu) (right_v tu).

Definition turn_right (tu : t) : t := rotate tu (right_v tu).
Definition turn_left (tu : t) : t := rotate tu (left_v tu).
Definition step_forward (tu : t) : t := move tu (front_v tu).
Definition step_backward (tu : t) : t := move tu (- front_v tu)%vec.

(** [self.relocate(p, v)]: [self.p += p - self.p], then
    [self.rotate(v)]. *)
Definition relocate (tu : t) (p0 v0 : Vector.t) : t :=
  rotate (move tu (p0 - p tu)%vec) v0.

(** [self.reverse()]: [self.init_side(not self.cw)], then
    [self.rotate(self.front.v)]. *)
Definition reverse (tu : t) : t :=
  let tu := mk (p tu) (negb (cw tu)) (front_v tu) (front2_v tu) (front3_v tu)
               (left_v tu) (left2_v tu) (right_v tu) in
  rotate tu (front_v tu).

(** [self.scale(factor)] *)
Definition scale (tu : t) (factor : R) : t :=
  rotate tu (factor *: front_v tu).

End Turtle.

(** ** The segment tree ([class Tree(Qtree)]) *)

Module Tree.

(** [_geoms] is the list of stored segments, in insertion order.
    [Qtree] itself is not part of this file: the envelope query it
    inherits is carried by the tree as the function [candidates], about
    which nothing is assumed. *)
Record t : Type := mk {
  geoms : list Seg.t;
  width : R;
  height : R;
  candidates : list Seg.t -> Envelope.t -> R -> list Z
}.

(** Modelled from the spec: [ngeoms] of [Qtree], the number of
    segments stored so far. *)
Definition ngeoms (tr : t) : Z := Z.of_nat (length (geoms tr)).

(** Modelled from the spec: [Qtree.insert(index, segment)] appends the
    segment under the index the caller supplies. *)
Definition insert (tr : t) (i : Z) (s : Seg.t) : t :=
  mk (geoms tr ++ [s]) (width tr) (height tr) (candidates tr).

(** [Qtree.intersects_ext(obj, tolerance)]: the indices found for the
    envelope of [obj]. *)
Definition intersects_ext (tr : t) (e : Envelope.t) (tol : R) : list Z :=
  candidates tr (geoms tr) e tol.

(** [self.newSegment(c0, c1)], on the coordinates of the two points. *)
Definition newSegment (tr : t) (c0 c1 : Vector.t) : t * Seg.t :=
  let p0 := Vector.mk (Vector.x c0) (Vector.y c0) 0 in
  let p1 := Vector.mk (Vector.x c1) (Vector.y c1) 0 in
  let new_seg := Seg.new p0 (p1 - p0)%vec in
  (insert tr (ngeoms tr) new_seg, new_seg).

End Tree.

(** Modelled from the spec: the query contract of the spatial index,
    every index whose stored envelope meets the envelope asked for,
    grown by the tolerance; indices come in insertion order. *)
Fixpoint envelope_scan (i : Z) (l : list Seg.t) (e : Envelope.t) : list Z :=
  match l with
  | [] => []
  | s :: rest =>
      if Envelope.intersects (Seg.envelope s) e
      then i :: envelope_scan (i + 1) rest e
      else envelope_scan (i + 1) rest e
  end.

Definition envelope_query (l : list Seg.t) (e : Envelope.t) (tol : R) : list Z :=
  envelope_scan 0 l (Envelope.expandBy e tol).
(** ** The seek box ([class SeekBox]) *)

Module SeekBox.

(** The acceptance window of [does_intersect]:
    [1.25 >= u >= -0.25 and 1.0001 >= v >= -0.0001]. *)
Definition in_window (u v : R) : bool :=
  (Num.leb u 1.25 && Num.leb (-0.25) u && Num.leb v 1.0001
   && Num.leb (-0.0001) v)%bool.

(** The loop of [does_intersect] over the indices found; the
    accumulator is [(intersect, u_min, v_min, i_idx)]. *)
Fixpoint does_intersect_loop (sgs : list Seg.t) (sg : Seg.t)
    (found : list Z) (acc : bool * R * R * Z) : result (bool * R * R * Z) :=
  match found with
  | [] => Ok acc
  | i :: rest =>
      s <- getitem sgs i ;;
      let '(it, _, u, v) := Seg.intersect_ext sg s in
      let '(hit, u_min, v_min, i_idx) := acc in
      if (it && in_window u v)%bool
      then
        if Num.ltb u u_min
        then does_intersect_loop sgs sg rest (true, u, v, i)
        else does_intersect_loop sgs sg rest (true, u_min, v_min, i_idx)
      else does_intersect_loop sgs sg rest acc
  end.

(** [self.does_intersect(Q_segs, seg, skip)], for the box of envelope
    [box]; the argument [skip] is not read. *)
Definition does_intersect (box : Envelope.t) (q : Tree.t) (sg : Seg.t)
    (skip : Z) : result (bool * R * R * Z) :=
  let found := Tree.intersects_ext q box 0.001 in
  does_intersect_loop (Tree.geoms q) sg found (false, 2, 0, (-1)%Z).

End SeekBox.

(** ** The stepping engine ([class PathFinder]) *)

Module PathFinder.

Inductive direction : Type := LEFT | RIGHT.

Definition direction_eqb (a b : direction) : bool :=
  match a, b with
  | LEFT, LEFT | RIGHT, RIGHT => true
  | _, _ => false
  end.

(** [segs] is the list object [tree._geoms] itself, so it is read from
    the tree.  [pt], [seg], [left] and [right] are the scratch objects
    the engine re-initialises before each use; in the program the origin
    of one of them may be the very vector of the turtle until its next
    [init], but none is read between a move of the turtle and that
    [init], so each is held here by value. *)
Record t : Type := mk {
  tree : Tree.t;
  spacing : R;
  n_boundarys : Z;
  last : Z;
  pt : Vector.t;
  seg : Seg.t;
  left : Seg.t;
  right : Seg.t;
  turtle : Turtle.t;
  coords : list Vector.t;
  run : bool;
  allow_backward : bool;
  is_forward : bool;
  iter : Z;
  max_iter : R
}.

Definition segs (pf : t) : list Seg.t := Tree.geoms (tree pf).

Definition set_tree (pf : t) (a : Tree.t) : t :=
  mk a (spacing pf) (n_boundarys pf) (last pf) (pt pf) (seg pf) (left pf)
     (right pf) (turtle pf) (coords pf) (run pf) (allow_backward pf)
     (is_forward pf) (iter pf) (max_iter pf).
Definition set_last (pf : t) (a : Z) : t :=
  mk (tree pf) (spacing pf) (n_boundarys pf) a (pt pf) (seg pf) (left pf)
     (right pf) (turtle pf) (coords pf) (run pf) (allow_backward pf)
     (is_forward pf) (iter pf) (max_iter pf).
Definition set_pt (pf : t) (a : Vector.t) : t :=
  mk (tree pf) (spacing pf) (n_boundarys pf) (last pf) a (seg pf) (left pf)
     (right pf) (turtle pf) (coords pf) (run pf) (allow_backward pf)
     (is_forward pf) (iter pf) (max_iter pf).
Definition set_seg (pf : t) (a : Seg.t) : t :=
  mk (tree pf) (spacing pf) (n_boundarys pf) (last pf) (pt pf) a (left pf)
     (right pf) (turtle pf) (coords pf) (run pf) (allow_backward pf)
     (is_forward pf) (iter pf) (max_iter pf).
Definition set_left (pf : t) (a : Seg.t) : t :=
  mk (tree pf) (spacing pf) (n_boundarys pf) (last pf) (pt pf) (seg pf) a
     (right pf) (turtle pf) (coords pf) (run pf) (allow_backward pf)
     (is_forward pf) (iter pf) (max_iter pf).
Definition set_right (pf : t) (a : Seg.t) : t :=
  mk (tree pf) (spacing pf) (n_boundarys pf) (last pf) (pt pf) (seg pf)
     (left pf) a (turtle pf) (coords pf) (run pf) (allow_backward pf)
     (is_forward pf) (iter pf) (max_iter pf).
Definition set_turtle (pf : t) (a : Turtle.t) : t :=
  mk (tree pf) (spacing pf) (n_boundarys pf) (last pf) (pt pf) (seg pf)
     (left pf) (right pf) a (coords pf) (run pf) (allow_backward pf)
     (is_forward pf) (iter pf) (max_iter pf).
Definition set_coords (pf : t) (a : list Vector.t) : t :=
  mk (tree pf) (spacing pf) (n_boundarys pf) (last pf) (pt pf) (seg pf)
     (left pf) (right pf) (turtle pf) a (run pf) (allow_backward pf)
     (is_forward pf) (iter pf) (max_iter pf).
Definition set_run (pf : t) (a : bool) : t :=
  mk (tree pf) (spacing pf) (n_boundarys pf) (last pf) (pt pf) (seg pf)
     (left pf) (right pf) (turtle pf) (coords pf) a (allow_backward pf)
     (is_forward pf) (iter pf) (max_iter pf).
Definition set_is_forward (pf : t) (a : bool) : t :=
  mk (tree pf) (spacing pf) (n_boundarys pf) (last pf) (pt pf) (seg pf)
     (left pf) (right pf) (turtle pf) (coords pf) (run pf)
     (allow_backward pf) a (iter pf) (max_iter pf).
Definition set_iter (pf : t) (a : Z) : t :=
  mk (tree pf) (spacing pf) (n_boundarys pf) (last pf) (pt pf) (seg pf)
     (left pf) (right pf) (turtle pf) (coords pf) (run pf)
     (allow_backward pf) (is_forward pf) a (max_iter pf).
Definition set_max_iter (pf : t) (a : R) : t :=
  mk (tree pf) (spacing pf) (n_boundarys pf) (last pf) (pt pf) (seg pf)
     (left pf) (right pf) (turtle pf) (coords pf) (run pf)
     (allow_backward pf) (is_forward pf) (iter pf) a.

(** [self.seg.init(p, v)], [self.left.init(p, v)],
    [self.right.init(p, v)] *)
Definition seg_init (pf : t) (p0 v0 : Vector.t) : t :=
  set_seg pf (Seg.init (seg pf) p0 v0).
Definition left_init (pf : t) (p0 v0 : Vector.t) : t :=
  set_left pf (Seg.init (left pf) p0 v0).
Definition right_init (pf : t) (p0 v0 : Vector.t) : t :=
  set_right pf (Seg.init (right pf) p0 v0).

(** [PathFinder(tree, spacing, allow_backward, cw)] *)
Definition init (tr : Tree.t) (sp : R) (backward_ok cw : bool) : result t :=
  let p := Vector.mk 0 0 0 in
  let v := Vector.mk 1 0 0 in
  if Num.eqb (sp * sp) 0 then Raise ZeroDivisionError
  else
    Ok (mk tr sp (Tree.ngeoms tr) (-1) p (Seg.new p v) (Seg.new p v)
           (Seg.new p v) (Turtle.new p (sp *: v) cw) [] true backward_ok
           true 0%Z ((Tree.width tr * Tree.height tr) / (sp * sp))).

(** [self.insert(p0, p1)] *)
Definition insert (pf : t) (p0 p1 : Vector.t) : t * Z :=
  let i := Tree.ngeoms (tree pf) in
  let sg := Seg.mk p0 (p1 - p0)%vec i in
  (set_tree pf (Tree.insert (tree pf) i sg), i).

(** The acceptance window of [intersect]:
    [1.0001 >= u > 0 and 1.0001 >= v >= -0.0001]. *)
Definition in_window (u v : R) : bool :=
  (Num.leb u 1.0001 && Num.ltb 0 u && Num.leb v 1.0001
   && Num.leb (-0.0001) v)%bool.

(** The loop of [intersect] over the indices found. *)
Fixpoint intersect_loop (sgs : list Seg.t) (sg : Seg.t) (skip : Z)
    (found : list Z) (acc : bool * R * Z) : result (bool * R * Z) :=
  match found with
  | [] => Ok acc
  | i :: rest =>
      if (i =? skip)%Z then intersect_loop sgs sg skip rest acc
      else
        s <- getitem sgs i ;;
        let '(it, _, u, v) := Seg.intersect_ext sg s in
        let '(hit, t0, idx) := acc in
        if (it && in_window u v)%bool
        then
          if Num.ltb u t0
          then intersect_loop sgs sg skip rest (true, u, i)
          else intersect_loop sgs sg skip rest (true, t0, idx)
        else intersect_loop sgs sg skip rest acc
  end.

(** [self.intersect(seg)] *)
Definition intersect (pf : t) (sg : Seg.t) : result (bool * R * Z) :=
  let found :=
    Tree.intersects_ext (tree pf) (Seg.envelope sg) (0.005 * spacing pf) in
  let skip := (Tree.ngeoms (tree pf) - 1)%Z in
  intersect_loop (segs pf) sg skip found (false, 1e32, (-1)%Z).

(** [self.normal(seg)] *)
Definition normal (pf : t) (sg : Seg.t) : Vector.t * R :=
  let n := Vector.cross (Vector.normalized (Seg.v sg))
                        (Turtle.zAxis (turtle pf)) in
  let v := Vector.normalized (Turtle.front_v (turtle pf)) in
  let d := Vector.length (n + v)%vec in
  if Num.ltb d 1
  then
    let n' := (- n)%vec in
    (spacing pf *: n', Vector.length (n' + v)%vec)
  else (spacing pf *: n, d).

(** [self.seg_at_pos(seg, p)] *)
Definition seg_at_pos (sg : Seg.t) (p : Vector.t) : bool :=
  let v0 := (Seg.p sg - p)%vec in
  (Num.ltb (Vector.length v0) 0.0001
   || Num.ltb (Vector.length (v0 + Seg.v sg)%vec) 0.0001)%bool.

(** The loop of [obstacle_seg] over the indices found. *)
Fixpoint obstacle_seg_loop (pf : t) (p : Vector.t) (found : list Z)
    (acc : R * Z * Vector.t) : result (Z * Vector.t) :=
  match found with
  | [] => let '(_, idx, n) := acc in Ok (idx, n)
  | i :: rest =>
      sg <- getitem (segs pf) i ;;
      let '(d_max, idx, n) := acc in
      if seg_at_pos sg p
      then
        let '(ni, d) := normal pf sg in
        if Num.ltb d_max d
        then obstacle_seg_loop pf p rest (d, i, ni)
        else obstacle_seg_loop pf p rest acc
      else obstacle_seg_loop pf p rest acc
  end.

(** [self.obstacle_seg(p)] *)
Definition obstacle_seg (pf : t) (p : Vector.t) : result (t * Z * Vector.t) :=
  let pf := set_pt pf p in
  let found :=
    Tree.intersects_ext (tree pf) (Envelope.initByPoints (pt pf) (pt pf)) 0.001 in
  '(idx, n) <- obstacle_seg_loop pf p found
                 (-1, (-1)%Z, Turtle.front_v (turtle pf)) ;;
  Ok (pf, idx, n).

(** The loop of [wall_seg] over the indices found. *)
Fixpoint wall_seg_loop (pf : t) (p : Vector.t) (found : list Z) : result Z :=
  match found with
  | [] => Ok (-1)%Z
  | i :: rest =>
      if (i =? last pf)%Z then wall_seg_loop pf p rest
      else
        sg <- getitem (segs pf) i ;;
        if seg_at_pos sg p then Ok i else wall_seg_loop pf p rest
  end.

(** [self.wall_seg(p)] *)
Definition wall_seg (pf : t) (p : Vector.t) : result (t * Z) :=
  let pf := set_pt pf p in
  let found :=
    Tree.intersects_ext (tree pf) (Envelope.initByPoints (pt pf) (pt pf)) 0.001 in
  i <- wall_seg_loop pf p found ;;
  Ok (pf, i).

(** [self.obstacle()] *)
Definition obstacle (pf : t) : result (t * (bool * R * Vector.t * Z)) :=
  '(it, _, idx) <- intersect pf (left pf) ;;
  if it
  then
    sg <- getitem (segs pf) idx ;;
    let '(_, p) := Seg.nearest_point (Turtle.front (turtle pf)) sg in
    '(pf, nxt, n) <- obstacle_seg pf p ;;
    next_seg <- getitem (segs pf) nxt ;;
    let p :=
      if (nxt <? n_boundarys pf)%Z then (p - 0.5 *: n)%vec else (p - n)%vec in
    let pf := seg_init pf p (Seg.v next_seg) in
    let t0 := Seg.t_ (Turtle.front (turtle pf)) (seg pf) in
    Ok (pf, (true, t0, n, idx))
  else Ok (pf, (false, 0, Turtle.front_v (turtle pf), (-1)%Z)).

(** [self.start(p, v)] *)
Definition start (pf : t) (p v : Vector.t) : t :=
  let pf := set_turtle pf (Turtle.relocate (turtle pf) p v) in
  set_coords pf (coords pf ++ [p]).

(** The local variables of [forward] that the successive obstacle
    checks read and overwrite. *)
Record locals : Type := mk_locals {
  l_dir : direction;
  l_side : R;
  l_t : R;
  l_n : Vector.t;
  l_next : Z;
  l_seg : Seg.t;
  l_p : Vector.t;
  l_hit : bool
}.

(** [forward], the origin of the probe line parallel to the edge
    [seg] of index [next]:
    [seg.p + side * 0.5 * n] if [next < self.n_boundarys], else
    [seg.p + side * n]. *)
Definition forward_probe_origin (pf : t) (nxt : Z) (sg : Seg.t)
    (side : R) (n : Vector.t) : Vector.t :=
  if (nxt <? n_boundarys pf)%Z
  then (Seg.p sg + (side * 0.5) *: n)%vec
  else (Seg.p sg + side *: n)%vec.

(** [backward], the same origin:
    [seg.p + side * 0.25 * n] if [next < self.n_boundarys], else
    [seg.p + side * 0.5 * n]. *)
Definition backward_probe_origin (pf : t) (nxt : Z) (sg : Seg.t)
    (side : R) (n : Vector.t) : Vector.t :=
  if (nxt <? n_boundarys pf)%Z
  then (Seg.p sg + (side * 0.25) *: n)%vec
  else (Seg.p sg + (side * 0.5) *: n)%vec.

(** [t_max = self.left.t(self.seg); if t_max < 0: t_max = 1 - t_max] *)
Definition seek_length (pf : t) : R :=
  let t_max := Seg.t_ (left pf) (seg pf) in
  if Num.ltb t_max 0 then 1 - t_max else t_max.

(** [forward], "obstacle on segment": the left probe one spacing away,
    accepted against boundary edges. *)
Definition forward_left_obstacle (pf : t) (v : Vector.t) (loc : locals)
    : result (t * locals) :=
  if l_hit loc then Ok (pf, loc)
  else
    let p1 := (Turtle.p (turtle pf) + Turtle.left_v (turtle pf))%vec in
    let pf := left_init pf p1 v in
    let pf := seg_init pf (l_p loc + (l_side loc * 0.5) *: l_n loc)%vec
                       (Seg.v (l_seg loc)) in
    let t_max := seek_length pf in
    let pf := left_init pf p1 (t_max *: v) in
    '(pf, (it, o_t, o_n, idx)) <- obstacle pf ;;
    if (it && (idx <? n_boundarys pf)%Z && Num.ltb o_t (l_t loc))%bool
    then Ok (pf, mk_locals LEFT (l_side loc) o_t o_n idx (l_seg loc)
                           (l_p loc) true)
    else Ok (pf, loc).

(** [forward], "check for pipe": the left probe one and a half
    spacings away, accepted against path segments. *)
Definition forward_left_pipe (pf : t) (v : Vector.t) (loc : locals)
    : result (t * locals) :=
  if l_hit loc then Ok (pf, loc)
  else
    let p1 := (Turtle.p (turtle pf) + 1.5 *: Turtle.left_v (turtle pf))%vec in
    let pf := left_init pf p1 v in
    let pf := seg_init pf (l_p loc + (l_side loc * 1.5) *: l_n loc)%vec
                       (Seg.v (l_seg loc)) in
    let t_max := seek_length pf in
    let pf := left_init pf p1 (t_max *: v) in
    '(pf, (it, o_t, o_n, idx)) <- obstacle pf ;;
    if (it && negb (idx <? n_boundarys pf)%Z && Num.ltb o_t (l_t loc))%bool
    then Ok (pf, mk_locals LEFT (l_side loc) o_t o_n idx (l_seg loc)
                           (l_p loc) true)
    else Ok (pf, loc).

(** [forward], between the left checks and the front check:
    [p = p0 - 0.5 * n] if [next < self.n_boundarys], else
    [p = p0 - n]. *)
Definition forward_reset_p (pf : t) (p0 : Vector.t) (loc : locals) : locals :=
  mk_locals (l_dir loc) (l_side loc) (l_t loc) (l_n loc) (l_next loc)
            (l_seg loc)
            (if (l_next loc <? n_boundarys pf)%Z
             then (p0 - 0.5 *: l_n loc)%vec else (p0 - l_n loc)%vec)
            (l_hit loc).

(** [forward], "forward past segment": the front probe, [t + 2.5]
    spacings long. *)
Definition forward_front (pf : t) (v : Vector.t) (loc : locals)
    : result (t * locals) :=
  if l_hit loc then Ok (pf, loc)
  else
    let pf := seg_init pf (Turtle.p (turtle pf)) ((l_t loc + 2.5) *: v) in
    '(it, _, idx) <- intersect pf (seg pf) ;;
    if it
    then
      '(nxt, sg, n, side) <-
        (if negb (idx =? l_next loc)%Z
         then
           sg <- getitem (segs pf) idx ;;
           Ok (idx, sg, fst (normal pf sg), -1)
         else Ok (l_next loc, l_seg loc, l_n loc, l_side loc)) ;;
      let p := forward_probe_origin pf nxt sg side n in
      let pf := seg_init pf p (Seg.v sg) in
      let t0 := Seg.t_ (Turtle.front (turtle pf)) (seg pf) in
      Ok (pf, mk_locals LEFT side t0 n nxt sg p true)
    else Ok (pf, loc).

(** [forward], "obstacle past segment", first check: an obstacle half
    a spacing to the right. *)
Definition forward_right_obstacle (pf : t) (v : Vector.t) (loc : locals)
    : result (t * locals) :=
  if (negb (l_hit loc) && direction_eqb (l_dir loc) RIGHT)%bool
  then
    let sg := l_seg loc in
    let pf := seg_init pf (Seg.p sg + 0.5 *: l_n loc)%vec (Seg.v sg) in
    let pf := right_init pf
                (Turtle.p (turtle pf) + 0.5 *: Turtle.right_v (turtle pf))%vec
                v in
    let t0 := Seg.t_ (right pf) (seg pf) in
    let pf := right_init pf (Seg.p (right pf) + t0 *: v)%vec (2 *: v) in
    '(it, _, idx) <- intersect pf (right pf) ;;
    if (it && (idx <? n_boundarys pf)%Z)%bool
    then
      hit_seg <- getitem (segs pf) idx ;;
      let '(_, p) := Seg.nearest_point (Turtle.front (turtle pf)) hit_seg in
      '(pf, idx, o_n) <- obstacle_seg pf p ;;
      far_seg <- getitem (segs pf) idx ;;
      let d := Seg.minimal_dist far_seg sg in
      if Num.ltb d (1.5 * spacing pf)
      then
        sg <- getitem (segs pf) idx ;;
        let pf := seg_init pf (Seg.p sg - 0.5 *: o_n)%vec (Seg.v sg) in
        let t1 := Seg.t_ (Turtle.front (turtle pf)) (seg pf) in
        Ok (pf, mk_locals LEFT (l_side loc) t1 o_n idx sg p true)
      else
        Ok (pf, mk_locals (l_dir loc) (l_side loc) (l_t loc) (l_n loc)
                          (l_next loc) (l_seg loc) p (l_hit loc))
    else Ok (pf, loc)
  else Ok (pf, loc).

(** [forward], "obstacle past segment", second check: a pipe one
    spacing to the right. *)
Definition forward_right_pipe (pf : t) (v : Vector.t) (loc : locals)
    : result (t * locals) :=
  if (negb (l_hit loc) && direction_eqb (l_dir loc) RIGHT)%bool
  then
    let sg := l_seg loc in
    let pf := seg_init pf (Seg.p sg + 0.5 *: l_n loc)%vec (Seg.v sg) in
    let pf := right_init pf
                (Turtle.p (turtle pf) + Turtle.right_v (turtle pf))%vec v in
    let t0 := Seg.t_ (right pf) (seg pf) in
    let pf := right_init pf (Seg.p (right pf) + t0 *: v)%vec (2 *: v) in
    '(it, _, idx) <- intersect pf (right pf) ;;
    if (it && negb (idx <? n_boundarys pf)%Z)%bool
    then
      hit_seg <- getitem (segs pf) idx ;;
      let '(_, p) := Seg.nearest_point (Turtle.front (turtle pf)) hit_seg in
      '(pf, idx, o_n) <- obstacle_seg pf p ;;
      far_seg <- getitem (segs pf) idx ;;
      let d := Seg.minimal_dist far_seg sg in
      if Num.ltb d (2 * spacing pf)
      then
        sg <- getitem (segs pf) idx ;;
        let pf := seg_init pf (Seg.p sg - o_n)%vec (Seg.v sg) in
        let t1 := Seg.t_ (Turtle.front (turtle pf)) (seg pf) in
        Ok (pf, mk_locals LEFT (l_side loc) t1 o_n idx sg p true)
      else
        Ok (pf, mk_locals (l_dir loc) (l_side loc) (l_t loc) (l_n loc)
                          (l_next loc) (l_seg loc) p (l_hit loc))
    else Ok (pf, loc)
  else Ok (pf, loc).

(** The end of a drawn step, the same lines in [forward] and in
    [backward]: move by [t] spacings, align with [n], record the point
    and the new path segment, turn. *)
Definition draw (pf : t) (v : Vector.t) (t0 : R) (n : Vector.t)
    (dir : direction) : result t :=
  let tu := Turtle.move (turtle pf) (t0 *: v) in
  let tu := Turtle.rotate tu n in
  let pf := set_turtle pf tu in
  p0 <- getitem (coords pf) (-1) ;;
  let p1 := Turtle.p (turtle pf) in
  let pf := set_coords pf (coords pf ++ [p1]) in
  let pf := fst (insert pf p0 p1) in
  match dir with
  | LEFT => Ok (set_turtle pf (Turtle.turn_left (turtle pf)))
  | RIGHT => Ok (set_turtle pf (Turtle.turn_right (turtle pf)))
  end.

(** [forward], the branch [t < 0.5]: the pass is not drawn. *)
Definition forward_cap (pf : t) : result (bool * t) :=
  tail <- getitem (segs pf) (-1) ;;
  let tu := Turtle.rotate (turtle pf)
              (spacing pf *: Vector.normalized (Seg.v tail)) in
  let tu := Turtle.turn_right tu in
  let tu := Turtle.move tu (0.5 *: Turtle.front_v tu) in
  let pf := set_turtle pf tu in
  p0 <- getitem (coords pf) (-1) ;;
  let p1 := Turtle.p (turtle pf) in
  let pf := set_coords pf (coords pf ++ [p1]) in
  let pf := fst (insert pf p0 p1) in
  let pf := set_turtle pf (Turtle.turn_right (turtle pf)) in
  '(_, _, idx) <- intersect pf (Turtle.left (turtle pf)) ;;
  Ok (false, set_last pf idx).

(** How far a step has got: it has already returned [False], or its
    local variables are worked out. *)
Inductive progress : Type :=
| Returned (pf : t)
| Resolved (pf : t) (v p0 : Vector.t) (loc : locals).

(** [forward], from its entry to [t = self.turtle.front.t(self.seg)]
    and the test [t == 0]. *)
Definition forward_wall (pf : t) : result progress :=
  let pf := set_iter pf (iter pf + 1) in
  if Num.ltb (max_iter pf) (IZR (iter pf)) then Ok (Returned pf)
  else
    let v := Turtle.front_v (turtle pf) in
    pf <- (if (last pf <? 0)%Z
           then
             '(_, _, idx) <- intersect pf (Turtle.right (turtle pf)) ;;
             Ok (set_last pf idx)
           else Ok pf) ;;
    sg <- getitem (segs pf) (last pf) ;;
    let '(_, p0) := Seg.farest_point (Turtle.front (turtle pf)) sg in
    '(pf, nxt) <- wall_seg pf p0 ;;
    sg <- getitem (segs pf) nxt ;;
    let pf := seg_init pf p0 (Turtle.front_v (turtle pf)) in
    let p1 :=
      if Num.ltb (Vector.length (p0 - Seg.p sg)%vec) 0.0001
      then (Seg.p sg + Seg.v sg)%vec else Seg.p sg in
    let d := fst (Seg.distance_pt (seg pf) p1) in
    let '(dir, side) :=
      if Num.ltb 0 (d * Turtle.up (turtle pf)) then (LEFT, -1) else (RIGHT, 1) in
    let n := fst (normal pf sg) in
    let p := forward_probe_origin pf nxt sg side n in
    let pf := seg_init pf p (Seg.v sg) in
    let t0 := Seg.t_ (Turtle.front (turtle pf)) (seg pf) in
    if Num.eqb t0 0 then Ok (Returned pf)
    else Ok (Resolved pf v p0 (mk_locals dir side t0 n nxt sg p false)).

(** [forward], the five obstacle checks in their order. *)
Definition forward_checks (pf : t) (v p0 : Vector.t) (loc : locals)
    : result (t * locals) :=
  '(pf, loc) <- forward_left_obstacle pf v loc ;;
  '(pf, loc) <- forward_left_pipe pf v loc ;;
  let loc := forward_reset_p pf p0 loc in
  '(pf, loc) <- forward_front pf v loc ;;
  '(pf, loc) <- forward_right_obstacle pf v loc ;;
  forward_right_pipe pf v loc.

(** [forward], from [self.last = next] to the end. *)
Definition forward_finish (pf : t) (v : Vector.t) (loc : locals)
    : result (bool * t) :=
  let pf := set_last pf (l_next loc) in
  if Num.ltb (l_t loc) 0.5 then forward_cap pf
  else
    pf <- draw pf v (l_t loc) (l_n loc) (l_dir loc) ;;
    Ok (true, pf).

(** [self.forward()] *)
Definition forward (pf : t) : result (bool * t) :=
  w <- forward_wall pf ;;
  match w with
  | Returned pf => Ok (false, pf)
  | Resolved pf v p0 loc =>
      '(pf, loc) <- forward_checks pf v p0 loc ;;
      forward_finish pf v loc
  end.

(** How [backward] leaves its probes: it has returned [False], or it
    goes on to draw with the local variables [backward], [next], [t],
    [n] and [dir]. *)
Inductive retreat : Type :=
| Stop (pf : t)
| Step (pf : t) (backward : bool) (nxt : Z) (t0 : R) (n : Vector.t)
       (dir : direction).

(** [backward], "other dir must hit": the probe towards the wall side,
    three quarters of a spacing long, then the test [abs(t) < 0.5]. *)
Definition backward_side (pf : t) (p : Vector.t) (dir : direction)
    (nxt : Z) (t0 : R) (n : Vector.t) : result retreat :=
  let sg :=
    match dir with
    | LEFT => Turtle.left (turtle pf)
    | RIGHT => Turtle.right (turtle pf)
    end in
  let pf := seg_init pf p (0.75 *: Seg.v sg) in
  '(it, _, idx) <- intersect pf (seg pf) ;;
  '(pf, nxt, t0, n) <-
    (if it
     then
       sg <- getitem (segs pf) idx ;;
       let '(_, p) := Seg.nearest_point (Turtle.front (turtle pf)) sg in
       '(pf, nxt, n) <- obstacle_seg pf p ;;
       next_seg <- getitem (segs pf) nxt ;;
       let pf := seg_init pf (Turtle.p (turtle pf))
                   ((2 * Vector.length (Seg.v sg)) *: (- n)%vec) in
       let o_t := Seg.t_ next_seg (seg pf) in
       let side := if (Num.ltb 0 o_t && Num.ltb o_t 1)%bool then -1 else 1 in
       let p :=
         if (nxt <? n_boundarys pf)%Z
         then (p - (side * 0.25) *: n)%vec
         else (p - (side * 0.5) *: n)%vec in
       let pf := seg_init pf p (Seg.v next_seg) in
       let n := (- n)%vec in
       let t1 := Seg.t_ (Turtle.front (turtle pf)) (seg pf) in
       Ok (pf, nxt, t1, n)
     else Ok (pf, nxt, t0, n)) ;;
  if Num.ltb (Rabs t0) 0.5 then Ok (Stop (set_run pf false))
  else Ok (Step pf true nxt t0 n dir).

(** [backward], "front must hit unless we do have space": the front
    probe and the test [if it or True]. *)
Definition backward_front (pf : t) (v : Vector.t) (dir : direction)
    (nxt : Z) (t0 : R) (n : Vector.t) : result retreat :=
  let p := (Turtle.p (turtle pf) + t0 *: v)%vec in
  let pf := seg_init pf p (1.5 *: v) in
  '(it, _, _) <- intersect pf (seg pf) ;;
  if (it || true)%bool
  then backward_side pf p dir nxt t0 n
  else Ok (Step pf false nxt t0 n dir).


(** [backward], from its entry to [self.last = next]. *)
Definition backward_wall (pf : t) : result retreat :=
  let pf := set_iter pf (iter pf + 1) in
  let v := Turtle.front_v (turtle pf) in
  sg <- getitem (segs pf) (last pf) ;;
  let '(t0, p0) := Seg.farest_point (Turtle.front (turtle pf)) sg in
  '(pf, nxt) <- wall_seg pf p0 ;;
  if (nxt =? -1)%Z
  then
    let pf := set_run pf false in
    Ok (Step pf true nxt t0 (fst (normal pf sg)) RIGHT)
  else
    sg <- getitem (segs pf) nxt ;;
    let pf := seg_init pf p0 v in
    let p1 :=
      if Num.ltb (Vector.length (p0 - Seg.p sg)%vec) 0.0001
      then (Seg.p sg + Seg.v sg)%vec else Seg.p sg in
    let d := fst (Seg.distance_pt (seg pf) p1) in
    let '(dir, side) :=
      if Num.ltb 0 (d * Turtle.up (turtle pf)) then (LEFT, 1) else (RIGHT, -1) in
    let n := fst (normal pf sg) in
    let p := backward_probe_origin pf nxt sg side n in
    let pf := seg_init pf p (Seg.v sg) in
    let t1 := Seg.t_ (Turtle.front (turtle pf)) (seg pf) in
    let pf := seg_init pf (Turtle.p (turtle pf)) (t1 *: v) in
    '(it, _, idx) <- intersect pf (seg pf) ;;
    if it
    then
      sg <- getitem (segs pf) idx ;;
      let n := fst (normal pf sg) in
      let p :=
        if (idx <? n_boundarys pf)%Z
        then (Seg.p sg - 0.25 *: n)%vec
        else (Seg.p sg - 0.5 *: n)%vec in
      let pf := seg_init pf p (Seg.v sg) in
      let t2 := Seg.t_ (Turtle.front (turtle pf)) (seg pf) in
      Ok (Step pf true idx t2 n RIGHT)
    else backward_front pf v dir nxt t1 n.

(** [self.backward()] *)
Definition backward (pf : t) : result (bool * t) :=
  let v := Turtle.front_v (turtle pf) in
  r <- backward_wall pf ;;
  match r with
  | Stop pf => Ok (false, pf)
  | Step pf bw nxt t0 n dir =>
      let pf := set_last pf nxt in
      pf <- draw pf v t0 n dir ;;
      Ok (bw, pf)
  end.

(** [next], after the step: flip the mode on [False], test the cap. *)
Definition next_tail (res : bool) (pf : t) : bool * t :=
  let pf := if res then pf else set_is_forward pf (negb (is_forward pf)) in
  if Num.ltb (max_iter pf) (IZR (iter pf)) then (false, pf)
  else (run pf, pf).

(** [self.next()] *)
Definition next (pf : t) : result (bool * t) :=
  if is_forward pf
  then
    '(res, pf) <- forward pf ;;
    Ok (next_tail res pf)
  else
    if allow_backward pf
    then
      '(res, pf) <- backward pf ;;
      Ok (next_tail res pf)
    else Ok (false, pf).

(** The loop of the caller, [while run: run = pf.next()], unrolled at
    most [fuel] times: [None] when the fuel does not suffice, otherwise
    the engine the loop ends with, or the exception that ends it. *)
Fixpoint drive (fuel : nat) (pf : t) : option (result t) :=
  match fuel with
  | O => None
  | S fuel' =>
      match next pf with
      | Raise e => Some (Raise e)
      | Ok (false, pf') => Some (Ok pf')
      | Ok (true, pf') => drive fuel' pf'
      end
  end.

(** The run as the caller sets it up: build the engine, [start] it,
    override [max_iter], loop. *)
Definition route (fuel : nat) (tr : Tree.t) (sp : R) (backward_ok cw : bool)
    (p v : Vector.t) (cap : Z) : option (result t) :=
  match init tr sp backward_ok cw with
  | Raise e => Some (Raise e)
  | Ok pf => drive fuel (set_max_iter (start pf p v) (IZR cap))
  end.

End PathFinder.

(** ** The caller ([class FloorGenerator]) *)

Module FloorGenerator.

(** [enumerate(coords)], counting from [i]. *)
Fixpoint enumerate {A : Type} (i : Z) (l : list A) : list (Z * A) :=
  match l with
  | [] => []
  | a :: rest => (i, a) :: enumerate (i + 1) rest
  end.

(** [int(x)] of a float: the integer towards zero. *)
Definition int (x : R) : Z :=
  if Num.leb 0 x then Int_part x else (- Int_part (- x))%Z.

(** [self.roundedCorner(p, p1, p2, radius, a, verts)].  It changes
    nothing but [verts], which it extends: the points added are its
    result here.  [math.cos], [math.sin] and [math.pi] are the cosine,
    the sine and the number pi of the reals; [math.atan2] and
    [math.tan] are the arguments [atan2] and [tan], about which
    nothing is assumed. *)
Definition roundedCorner (atan2 : R -> R -> R) (tan : R -> R)
    (p p1 p2 : Vector.t) (radius a : R) : result (list Vector.t) :=
  let u := (p1 - p)%vec in
  let v := (p2 - p)%vec in
  let angle :=
    atan2 (Vector.x u * Vector.y v - Vector.y u * Vector.x v)
          (Vector.x u * Vector.x v + Vector.y u * Vector.y v) / 2 in
  let tang := tan (Rabs angle) in
  if Num.eqb tang 0 then Raise ZeroDivisionError
  else
    let segment := radius / tang in
    let length1 := Vector.length u in
    let length2 := Vector.length v in
    let len := 0.5 * Rmin length1 length2 in
    let '(segment, radius) :=
      if Num.ltb len segment then (len, len * tang) else (segment, radius) in
    if Num.eqb length1 0 then Raise ZeroDivisionError
    else
      let uc := (segment / length1) *: u in
      if Num.eqb length2 0 then Raise ZeroDivisionError
      else
        let vc := (segment / length2) *: v in
        let d := sqrt (segment * segment + radius * radius) in
        let c := d *: Vector.normalized (uc + vc)%vec in
        let n1 := (uc - c)%vec in
        let n2 := (vc - c)%vec in
        let center := (p + c)%vec in
        let startAngle := atan2 (Vector.y n1) (Vector.x n1) in
        let endAngle := atan2 (Vector.y n2) (Vector.x n2) in
        let sweepAngle := endAngle - startAngle in
        let sweepAngle :=
          if Num.ltb PI sweepAngle then sweepAngle - 2 * PI else sweepAngle in
        let sweepAngle :=
          if Num.ltb sweepAngle (- PI) then sweepAngle + 2 * PI else sweepAngle in
        if Num.eqb a 0 then Raise ZeroDivisionError
        else
          let steps := int (Rabs sweepAngle / a) in
          let a0 := startAngle in
          let da := if (steps =? 0)%Z then 0 else sweepAngle / IZR steps in
          Ok (map (fun i : Z =>
                     (center
                      + radius *: Vector.mk (cos (a0 + da * IZR i))
                                            (sin (a0 + da * IZR i)) 0)%vec)
                  (map Z.of_nat (seq 0 (Z.to_nat (steps + 1))))).

(** The loop of [bevel].  [roundedCorner] changes nothing but [verts],
    which it extends: it is given here as the function
    [corner p p1 p2 radius a] that yields the points added. *)
Fixpoint bevel_loop
    (corner : Vector.t -> Vector.t -> Vector.t -> R -> R -> result (list Vector.t))
    (coords : list Vector.t) (radius a : R) (n_coords : Z)
    (items : list (Z * Vector.t)) (verts : list Vector.t)
    : result (list Vector.t) :=
  match items with
  | [] => Ok verts
  | (i, co) :: rest =>
      if ((0 <? i)%Z && (i <? n_coords)%Z)%bool
      then
        p1 <- getitem coords (i - 1) ;;
        p2 <- getitem coords (i + 1) ;;
        arc <- corner co p1 p2 radius a ;;
        bevel_loop corner coords radius a n_coords rest (verts ++ arc)
      else bevel_loop corner coords radius a n_coords rest verts
  end.

(** [self.bevel(coords, radius, a)] *)
Definition bevel
    (corner : Vector.t -> Vector.t -> Vector.t -> R -> R -> result (list Vector.t))
    (coords : list Vector.t) (radius a : R) : result (list Vector.t) :=
  let n_coords := (Z.of_nat (length coords) - 1)%Z in
  c0 <- getitem coords 0 ;;
  verts <- bevel_loop corner coords radius a n_coords (enumerate 0 coords) [c0] ;;
  cl <- getitem coords (-1) ;;
  Ok (verts ++ [cl]).

(** [self.pipe_len] of [floor_heating]:
    [sum([(coords[i - 1] - co).length
          for i, co in enumerate(coords) if i > 0])]. *)
Definition pipe_len (coords : list Vector.t) : R :=
  fold_left Rplus
    (map (fun ab => Vector.length (fst ab - snd ab)%vec)
         (combine coords (tl coords)))
    0.

End FloorGenerator.

(** * The vocabulary of the properties *)

Import PathFinder.

(** ** What a step leaves, records and keeps *)

(** The engine without its scratch objects [pt], [seg], [left] and
    [right]. *)
Definition scratchless (pf : PathFinder.t) : PathFinder.t :=
  let blank := Seg.new Vector.zero Vector.zero in
  PathFinder.mk (tree pf) (spacing pf) (n_boundarys pf) (last pf) Vector.zero
                blank blank blank (turtle pf) (coords pf) (run pf)
                (allow_backward pf) (is_forward pf) (iter pf) (max_iter pf).

(** Nothing recorded: the polyline and the tree are as before. *)
Definition idle (pf pf' : PathFinder.t) : Prop :=
  coords pf' = coords pf /\ tree pf' = tree pf.

(** One point recorded: the polyline has one more point, and the tree
    has one more segment, from the previous last point to the new one,
    under the index that was the segment count. *)
Definition drawn (pf pf' : PathFinder.t) : Prop :=
  exists p0 p1,
    getitem (coords pf) (-1) = Ok p0 /\
    coords pf' = coords pf ++ [p1] /\
    tree pf' =
    Tree.insert (tree pf) (Tree.ngeoms (tree pf))
                (Seg.mk p0 (p1 - p0)%vec (Tree.ngeoms (tree pf))).

(** The settings of the run, which no step changes. *)
Definition same_settings (pf pf' : PathFinder.t) : Prop :=
  spacing pf' = spacing pf /\ n_boundarys pf' = n_boundarys pf /\
  allow_backward pf' = allow_backward pf /\ max_iter pf' = max_iter pf.

(** What [intersect_loop] maintains: a reported hit carries an index
    that was found and is not the skipped one, and a parameter within
    the window; without a hit the index is [-1]. *)
Definition hit_ok (skip : Z) (found : list Z) (acc : bool * R * Z) : Prop :=
  let '(hit, t0, idx) := acc in
  if hit then idx <> skip /\ In idx found /\ t0 <= 1.0001
  else idx = (-1)%Z /\ t0 = 1e32.


(** The segments of [l] carry the consecutive indices [k], [k + 1],
    ... in their [idx]. *)
Fixpoint indices_from (k : Z) (l : list Seg.t) : Prop :=
  match l with
  | [] => True
  | s :: rest => Seg.idx s = k /\ indices_from (k + 1) rest
  end.

(** The engines a run passes through: those reached by calls of
    [next], whatever they answer. *)
Inductive reachable (pf : PathFinder.t) : PathFinder.t -> Prop :=
| reach_here : reachable pf pf
| reach_next (q q' : PathFinder.t) (r : bool) :
    reachable pf q -> next q = Ok (r, q') -> reachable pf q'.

(** ** Segments to measure distances on *)

(** A segment along the x axis and a segment crossing its line, from
    three below to two above. *)
Definition axis_seg : Seg.t := Seg.new (Vector.mk 0 0 0) (Vector.mk 1 0 0).
Definition crossing_seg : Seg.t := Seg.new (Vector.mk 0 (-3) 0) (Vector.mk 0 5 0).
Definition above_seg : Seg.t := Seg.new (Vector.mk 0 2 0) (Vector.mk 4 1 0).

(** ** The square of the scenarios *)

(** Modelled from the spec: the 4 x 4 square of the scenarios, with no
    obstacle, in the frame of the tree, whose origin is the centre of the
    boundary ([center] in the caller); its four edges are stored
    counter-clockwise, the inside on their left, and found by the
    envelope query. *)
Definition e0 : Seg.t := Seg.new (Vector.mk (-2) (-2) 0) (Vector.mk 4 0 0).
Definition e1 : Seg.t := Seg.new (Vector.mk 2 (-2) 0) (Vector.mk 0 4 0).
Definition e2 : Seg.t := Seg.new (Vector.mk 2 2 0) (Vector.mk (-4) 0 0).
Definition e3 : Seg.t := Seg.new (Vector.mk (-2) 2 0) (Vector.mk 0 (-4) 0).
Definition square_edges : list Seg.t := [e0; e1; e2; e3].
Definition square_tree : Tree.t := Tree.mk square_edges 4 4 envelope_query.

(** Modelled from the spec: the run starts on the first edge, half a
    spacing inside the boundary and half a spacing from the corner, and
    heads along that edge; the spacing is 0.3. *)
Definition square_p : Vector.t := Vector.mk (-1.85) (-1.85) 0.
Definition square_v : Vector.t := Vector.mk 0.3 0 0.

(** The turtle once started, and an engine on the square with the
    settings of the scenario (spacing 0.3, backward allowed, cap 1). *)
Definition square_turtle : Turtle.t :=
  Turtle.mk square_p true square_v (Vector.mk 0.6 0 0) (Vector.mk 0.9 0 0)
            (Vector.mk 0 0.3 0) (Vector.mk 0 0.6 0) (Vector.mk 0 (-0.3) 0).

Definition square_engine (lst : Z) (pt0 : Vector.t) (s1 s2 s3 : Seg.t)
    (tu : Turtle.t) (cs : list Vector.t) (it : Z) : PathFinder.t :=
  PathFinder.mk square_tree 0.3 4 lst pt0 s1 s2 s3 tu cs true true true it 1.

(** The corner where the first edge ends. *)
Definition square_corner : Vector.t := Vector.mk 2 (-2) 0.

(** The local variables of [forward] when the probes begin. *)
Definition square_locals (hit : bool) : locals :=
  mk_locals LEFT (-1) (37 / 3) square_v 1 e1 (Vector.mk 1.85 (-2) 0) hit.

(** Local variables of [forward] with a quarter of a spacing left to
    advance and a hit recorded. *)
Definition square_short : locals :=
  mk_locals LEFT (-1) 0.25 square_v 1 e1 (Vector.mk 1.85 (-2) 0) true.

(** A start anywhere along the first edge, half a spacing inside the
    boundary, heading along the edge.  The caller keeps the start
    between half a spacing from one end of the edge and half a spacing
    from the other, here between [-1.85] and [1.85]; [square_p] is
    [square_start (-1.85)] and [square_turtle] is
    [square_turtle_at (-1.85)]. *)
Definition square_start (x : R) : Vector.t := Vector.mk x (-1.85) 0.

Definition square_turtle_at (x : R) : Turtle.t :=
  Turtle.mk (square_start x) true square_v (Vector.mk 0.6 0 0)
            (Vector.mk 0.9 0 0) (Vector.mk 0 0.3 0) (Vector.mk 0 0.6 0)
            (Vector.mk 0 (-0.3) 0).

(** The local variables of [forward] for the start at 1.775, a quarter
    of a spacing before the line half a spacing from the second edge. *)
Definition late_locals (hit : bool) : locals :=
  mk_locals LEFT (-1) 0.25 square_v 1 e1 (Vector.mk 1.85 (-2) 0) hit.

(** The turtle after the first three moves of the manoeuvre, for the
    start at [x]: half a spacing back on the line of the start, heading
    back along the first edge. *)
Definition square_capped_at (x : R) : Turtle.t :=
  Turtle.mk (Vector.mk (x - 0.15) (-1.85) 0) true
            (Vector.mk (-0.3) 0 0) (Vector.mk (-0.6) 0 0) (Vector.mk (-0.9) 0 0)
            (Vector.mk 0 (-0.3) 0) (Vector.mk 0 (-0.6) 0) (Vector.mk 0 0.3 0).


(** ** The frame, the candidates, the legs of the polyline *)

(** The probes of a frame follow its heading, as [Turtle(p, v, cw)] and
    [rotate] set them. *)
Definition aligned (tu : Turtle.t) : Prop :=
  let side := Vector.cross (Turtle.front_v tu) (Turtle.zAxis tu) in
  Turtle.front2_v tu = 2 *: Turtle.front_v tu /\
  Turtle.front3_v tu = 3 *: Turtle.front_v tu /\
  Turtle.left_v tu = (- side)%vec /\
  Turtle.left2_v tu = 2 *: (- side)%vec /\
  Turtle.right_v tu = side.

(** A stored segment that [intersect] accepts for the probe [sg]: the
    lines cross within the window. *)
Definition accepted (sg s : Seg.t) : bool :=
  let '(it, _, u, v) := Seg.intersect_ext sg s in (it && in_window u v)%bool.

(** The same for [SeekBox.does_intersect] and its window. *)
Definition box_accepted (sg s : Seg.t) : bool :=
  let '(it, _, u, v) := Seg.intersect_ext sg s in
  (it && SeekBox.in_window u v)%bool.

(** The candidates of a list of indices that take part in a search:
    those that differ from the skipped index. *)
Definition candidate (sgs : list Seg.t) (skip : Z) (found : list Z)
    (j : Z) (s : Seg.t) : Prop :=
  In j found /\ j <> skip /\ getitem sgs j = Ok s.

(** The legs of a polyline as path segments: from each point to the
    next, under the indices [k], [k + 1], ... *)
Fixpoint legs (k : Z) (cs : list Vector.t) : list Seg.t :=
  match cs with
  | [] => []
  | a :: rest =>
      match rest with
      | [] => []
      | b :: _ => Seg.mk a (b - a)%vec k :: legs (k + 1) rest
      end
  end.

(** The sum of the lengths of segments. *)
Definition total_length (l : list Seg.t) : R :=
  fold_right Rplus 0 (map (fun s => Vector.length (Seg.v s)) l).

(** Everything the engine holds lies in the plane [z = 0]: the stored
    segments, the polyline, the frame and its heading. *)
Definition planar (pf : PathFinder.t) : Prop :=
  Forall Seg.flat (segs pf) /\ Forall Vector.flat (coords pf) /\
  Vector.flat (Turtle.p (turtle pf)) /\
  Vector.flat (Turtle.front_v (turtle pf)).

(** The corners that [bevel] rounds: every point but the first and the
    last, with the point before and the point after. *)
Fixpoint corners (cs : list Vector.t) : list (Vector.t * Vector.t * Vector.t) :=
  match cs with
  | p1 :: rest =>
      match rest with
      | p :: p2 :: _ => (p, p1, p2) :: corners rest
      | _ => []
      end
  | [] => []
  end.

(** The arcs a corner function yields on a list of corners, one after
    the other, until one raises. *)
Fixpoint arcs
    (corner : Vector.t -> Vector.t -> Vector.t -> R -> R -> result (list Vector.t))
    (radius a : R) (l : list (Vector.t * Vector.t * Vector.t))
    : result (list Vector.t) :=
  match l with
  | [] => Ok []
  | (p, p1, p2) :: rest =>
      arc <- corner p p1 p2 radius a ;;
      more <- arcs corner radius a rest ;;
      Ok (arc ++ more)
  end.

(** One point recorded, in full: the turtle goes from where it stands
    by [d] and then heads along [w]; the new point is where it stands
    now, and the new path segment runs from the last point of the
    polyline to it.  The displacement is planar if the heading was, the
    new heading is planar. *)
Definition moved (pf pf' : PathFinder.t) : Prop :=
  exists p0 d w,
    getitem (coords pf) (-1) = Ok p0 /\
    coords pf' = coords pf ++ [(Turtle.p (turtle pf) + d)%vec] /\
    tree pf' =
    Tree.insert (tree pf) (Tree.ngeoms (tree pf))
                (Seg.mk p0 ((Turtle.p (turtle pf) + d) - p0)%vec
                        (Tree.ngeoms (tree pf))) /\
    turtle pf' = Turtle.rotate (Turtle.move (turtle pf) d) w /\
    (Vector.flat (Turtle.front_v (turtle pf)) -> Vector.flat d) /\
    Vector.flat w.

(** Nothing recorded and the turtle where it was. *)
Definition stayed (pf pf' : PathFinder.t) : Prop :=
  coords pf' = coords pf /\ tree pf' = tree pf /\ turtle pf' = turtle pf.

(** * Properties *)

(** ** Comparisons *)

Lemma eqb_true (a b : R) : Num.eqb a b = true <-> a = b.
Proof. unfold Num.eqb; destruct (Req_dec_T a b); split; congruence. Qed.

Lemma eqb_false (a b : R) : Num.eqb a b = false <-> a <> b.
Proof. unfold Num.eqb; destruct (Req_dec_T a b); split; congruence. Qed.

Lemma ltb_true (a b : R) : Num.ltb a b = true <-> a < b.
Proof. unfold Num.ltb; destruct (Rlt_dec a b); split; intros; congruence. Qed.

Lemma ltb_false (a b : R) : Num.ltb a b = false <-> ~ a < b.
Proof. unfold Num.ltb; destruct (Rlt_dec a b); split; intros; congruence. Qed.

Lemma leb_true (a b : R) : Num.leb a b = true <-> a <= b.
Proof. unfold Num.leb; destruct (Rle_dec a b); split; intros; congruence. Qed.

Lemma leb_false (a b : R) : Num.leb a b = false <-> ~ a <= b.
Proof. unfold Num.leb; destruct (Rle_dec a b); split; intros; congruence. Qed.

(** Deciding a comparison between two given numbers. *)
Ltac decide_num :=
  match goal with
  | |- Num.eqb _ _ = true => apply eqb_true
  | |- Num.eqb _ _ = false => apply eqb_false
  | |- Num.ltb _ _ = true => apply ltb_true
  | |- Num.ltb _ _ = false => apply ltb_false
  | |- Num.leb _ _ = true => apply leb_true
  | |- Num.leb _ _ = false => apply leb_false
  end.

(** ** Vectors *)

Lemma vector_eq (a b : Vector.t) :
  Vector.x a = Vector.x b -> Vector.y a = Vector.y b ->
  Vector.z a = Vector.z b -> a = b.
Proof. destruct a, b; simpl; intros; subst; reflexivity. Qed.

Lemma dot_self_nonneg (a : Vector.t) : 0 <= Vector.dot a a.
Proof. unfold Vector.dot; nra. Qed.

Lemma length_nonneg (a : Vector.t) : 0 <= Vector.length a.
Proof. apply sqrt_pos. Qed.

Lemma length_sqr (a : Vector.t) :
  Vector.length a * Vector.length a = Vector.dot a a.
Proof. apply sqrt_sqrt, dot_self_nonneg. Qed.

Lemma length_zero_iff (a : Vector.t) : Vector.length a = 0 <-> a = Vector.zero.
Proof.
  split.
  - intros H. pose proof (length_sqr a) as Hs. rewrite H in Hs.
    unfold Vector.dot in Hs.
    apply vector_eq; simpl; nra.
  - intros ->. unfold Vector.length, Vector.dot; simpl.
    replace (0 * 0 + 0 * 0 + 0 * 0) with 0 by ring. apply sqrt_0.
Qed.

(** [length a < c] for a positive bound, without the square root. *)
Lemma length_lt_iff (a : Vector.t) (c : R) :
  0 < c -> (Vector.length a < c <-> Vector.dot a a < c * c).
Proof.
  intros Hc. pose proof (length_nonneg a) as Hn.
  pose proof (length_sqr a) as Hs. split; intros H; nra.
Qed.

(** The length of a vector whose squared length is a known square. *)
Lemma length_of_square (a : Vector.t) (c : R) :
  0 <= c -> Vector.dot a a = c * c -> Vector.length a = c.
Proof.
  intros Hc H. unfold Vector.length. rewrite H. apply sqrt_square, Hc.
Qed.

(** ** Segments: intersection *)

(** [d] in [intersect_ext] is the determinant of the two directions. *)
Lemma dot_perp_det (a b : Seg.t) :
  Vector.dot (Seg.v a) (Seg.perp (Seg.v b)) = Seg.det a b.
Proof. unfold Vector.dot, Seg.perp, Seg.det; simpl; ring. Qed.

(** C3: [intersect_ext] reports no hit exactly when the determinant of
    the two directions is zero, with no tolerance; otherwise the point
    returned is [A.p + u * A.v] and the parameters solve
    [A.p + u * A.v = B.p + v * B.v] in the plane (in all three
    coordinates when the segments have no third component). *)
Theorem intersect_ext_solves (a b : Seg.t) :
  let '(hit, pt, u, v) := Seg.intersect_ext a b in
  (hit = false <-> Seg.det a b = 0) /\
  (hit = true ->
   pt = (Seg.p a + u *: Seg.v a)%vec /\
   Vector.xy_eq (Seg.p a + u *: Seg.v a)%vec (Seg.p b + v *: Seg.v b)%vec /\
   (Seg.flat a -> Seg.flat b -> pt = (Seg.p b + v *: Seg.v b)%vec)).
Proof.
  unfold Seg.intersect_ext. rewrite dot_perp_det.
  destruct (Num.eqb (Seg.det a b) 0) eqn:E.
  - apply eqb_true in E. split; [tauto | discriminate].
  - apply eqb_false in E. split; [split; [discriminate | tauto] |].
    intros _.
    assert (Hx : Vector.xy_eq
                   (Seg.p a + (Vector.dot (Seg.perp (Seg.v b)) (Seg.p b - Seg.p a)
                               / Seg.det a b) *: Seg.v a)%vec
                   (Seg.p b + (Vector.dot (Seg.perp (Seg.v a)) (Seg.p b - Seg.p a)
                               / Seg.det a b) *: Seg.v b)%vec).
    { unfold Seg.det in *. unfold Vector.xy_eq, Vector.dot, Seg.perp; simpl.
      split; field; exact E. }
    split; [reflexivity | split; [exact Hx |]].
    intros [Hpa Hva] [Hpb Hvb]. destruct Hx as [Hx Hy].
    apply vector_eq; [exact Hx | exact Hy |].
    unfold Vector.flat in *. simpl. rewrite Hpa, Hva, Hpb, Hvb. ring.
Qed.

(** The two segments crossing at [(1, 1)]. *)
Example intersect_ext_solves_witness :
  let a := Seg.new (Vector.mk 0 0 0) (Vector.mk 2 2 0) in
  let b := Seg.new (Vector.mk 0 2 0) (Vector.mk 2 (-2) 0) in
  let '(hit, pt, u, v) := Seg.intersect_ext a b in
  (hit = false <-> Seg.det a b = 0) /\
  (hit = true ->
   pt = (Seg.p a + u *: Seg.v a)%vec /\
   Vector.xy_eq (Seg.p a + u *: Seg.v a)%vec (Seg.p b + v *: Seg.v b)%vec /\
   (Seg.flat a -> Seg.flat b -> pt = (Seg.p b + v *: Seg.v b)%vec)).
Proof.
  exact (intersect_ext_solves (Seg.new (Vector.mk 0 0 0) (Vector.mk 2 2 0))
                              (Seg.new (Vector.mk 0 2 0) (Vector.mk 2 (-2) 0))).
Defined.

(** ** Segments: distances *)

(** The first component of [distance_pt] is the distance to the line
    with a sign: its absolute value is the geometric distance. *)
Lemma distance_pt_abs (s : Seg.t) (pt : Vector.t) :
  Rabs (fst (Seg.distance_pt s pt)) = Seg.line_distance s pt.
Proof.
  unfold Seg.distance_pt, Seg.line_distance.
  destruct (Num.eqb (Vector.length (Seg.v s)) 0) eqn:E; simpl.
  - apply eqb_true in E. apply length_zero_iff in E. rewrite E. simpl.
    rewrite Rabs_R0.
    replace (0 * (Vector.y pt - Vector.y (Seg.p s))
             - 0 * (Vector.x pt - Vector.x (Seg.p s))) with 0 by ring.
    rewrite Rabs_R0. unfold Rdiv. ring.
  - apply eqb_false in E. pose proof (length_nonneg (Seg.v s)) as Hn.
    unfold Rdiv. rewrite Rabs_mult.
    rewrite (Rabs_pos_eq (/ Vector.length (Seg.v s))).
    + reflexivity.
    + left. apply Rinv_0_lt_compat. lra.
Qed.

Lemma signed_min_of_distances (a b : Seg.t) :
  Seg.minimal_dist a b =
  Rmin (fst (Seg.distance_pt a (Seg.p b)))
       (fst (Seg.distance_pt a (Seg.p b + Seg.v b)%vec)).
Proof.
  unfold Seg.minimal_dist, Rmin.
  set (d0 := fst (Seg.distance_pt a (Seg.p b))).
  set (d1 := fst (Seg.distance_pt a (Seg.p b + Seg.v b)%vec)).
  destruct (Num.ltb d1 d0) eqn:E; destruct (Rle_dec d0 d1) as [H | H];
    try reflexivity.
  - apply ltb_true in E. lra.
  - apply ltb_false in E. lra.
Qed.

(** C7, as the code has it: [minimal_dist] is the minimum of the two
    signed distances that [distance_pt] gives for the end points of the
    other segment; each of them has the geometric distance as absolute
    value, and when neither is negative [minimal_dist] is the minimum of
    the two geometric distances. *)
Theorem minimal_dist_signed (a b : Seg.t) :
  let d0 := fst (Seg.distance_pt a (Seg.p b)) in
  let d1 := fst (Seg.distance_pt a (Seg.p b + Seg.v b)%vec) in
  Seg.minimal_dist a b = Rmin d0 d1 /\
  Rabs d0 = Seg.line_distance a (Seg.p b) /\
  Rabs d1 = Seg.line_distance a (Seg.p b + Seg.v b)%vec /\
  (0 <= d0 -> 0 <= d1 ->
   Seg.minimal_dist a b =
   Rmin (Seg.line_distance a (Seg.p b))
        (Seg.line_distance a (Seg.p b + Seg.v b)%vec)).
Proof.
  cbv zeta. repeat split.
  - apply signed_min_of_distances.
  - apply distance_pt_abs.
  - apply distance_pt_abs.
  - intros H0 H1. rewrite signed_min_of_distances.
    rewrite <- !distance_pt_abs. rewrite !Rabs_pos_eq by assumption.
    reflexivity.
Qed.

Lemma axis_seg_length : Vector.length (Seg.v axis_seg) = 1.
Proof.
  apply length_of_square; [lra |]. unfold Vector.dot; simpl. ring.
Qed.

Lemma axis_seg_distance (pt : Vector.t) :
  fst (Seg.distance_pt axis_seg pt) = Vector.y pt.
Proof.
  unfold Seg.distance_pt. rewrite axis_seg_length.
  replace (Num.eqb 1 0) with false by (symmetry; decide_num; lra).
  simpl. field.
Qed.

Example minimal_dist_signed_witness :
  let d0 := fst (Seg.distance_pt axis_seg (Seg.p above_seg)) in
  let d1 := fst (Seg.distance_pt axis_seg (Seg.p above_seg + Seg.v above_seg)%vec) in
  (0 <= d0 /\ 0 <= d1) /\
  Seg.minimal_dist axis_seg above_seg =
  Rmin (Seg.line_distance axis_seg (Seg.p above_seg))
       (Seg.line_distance axis_seg (Seg.p above_seg + Seg.v above_seg)%vec).
Proof.
  cbv zeta.
  assert (H0 : 0 <= fst (Seg.distance_pt axis_seg (Seg.p above_seg)))
    by (rewrite axis_seg_distance; simpl; lra).
  assert (H1 : 0 <= fst (Seg.distance_pt axis_seg
                           (Seg.p above_seg + Seg.v above_seg)%vec))
    by (rewrite axis_seg_distance; simpl; lra).
  split; [split; assumption |].
  exact (proj2 (proj2 (proj2 (minimal_dist_signed axis_seg above_seg))) H0 H1).
Defined.

(** C7, as the specification words it, fails: for the crossing segment
    the code returns [-3] while the smaller of the two distances to the
    line is [2]. *)
Example minimal_dist_not_geometric :
  Seg.minimal_dist axis_seg crossing_seg = -3 /\
  Rmin (Seg.line_distance axis_seg (Seg.p crossing_seg))
       (Seg.line_distance axis_seg (Seg.p crossing_seg + Seg.v crossing_seg)%vec)
  = 2 /\
  Seg.minimal_dist axis_seg crossing_seg <>
  Rmin (Seg.line_distance axis_seg (Seg.p crossing_seg))
       (Seg.line_distance axis_seg (Seg.p crossing_seg + Seg.v crossing_seg)%vec).
Proof.
  assert (Hm : Seg.minimal_dist axis_seg crossing_seg = -3).
  { rewrite signed_min_of_distances, !axis_seg_distance. simpl.
    unfold Rmin. destruct (Rle_dec (-3) (-3 + 5)); lra. }
  assert (Hg : Rmin (Seg.line_distance axis_seg (Seg.p crossing_seg))
                 (Seg.line_distance axis_seg
                    (Seg.p crossing_seg + Seg.v crossing_seg)%vec) = 2).
  { rewrite <- !distance_pt_abs, !axis_seg_distance. simpl.
    rewrite Rabs_left by lra. rewrite Rabs_pos_eq by lra.
    unfold Rmin. destruct (Rle_dec (- -3) (-3 + 5)); lra. }
  split; [exact Hm | split; [exact Hg |]].
  rewrite Hm, Hg. lra.
Qed.

(** ** The engine: what a step leaves untouched *)

Lemma bind_ok {A B : Type} (m : result A) (k : A -> result B) (b : B) :
  bind m k = Ok b -> exists a, m = Ok a /\ k a = Ok b.
Proof. destruct m as [a | e]; simpl; [eauto | discriminate]. Qed.

(** Taking a successful computation apart, one construct at a time. *)
Ltac step_ok H :=
  match type of H with
  | bind ?m _ = Ok _ =>
      let a := fresh "a" in
      let Hm := fresh "Hm" in
      apply bind_ok in H; destruct H as [a [Hm H]]
  | Ok _ = Ok _ => injection H as H; subst
  | Raise _ = Ok _ => discriminate H
  | (if ?c then _ else _) = Ok _ =>
      let E := fresh "E" in destruct c eqn:E
  | (let '(_, _) := ?x in _) = Ok _ => destruct x
  | (match ?x with LEFT => _ | RIGHT => _ end) = Ok _ => destruct x
  end.

Lemma wall_seg_frame (pf pf' : PathFinder.t) (p : Vector.t) (i : Z) :
  wall_seg pf p = Ok (pf', i) -> pf' = set_pt pf p.
Proof.
  unfold wall_seg. intros H. step_ok H. step_ok H. reflexivity.
Qed.

Lemma obstacle_seg_frame (pf pf' : PathFinder.t) (p n : Vector.t) (i : Z) :
  obstacle_seg pf p = Ok (pf', i, n) -> pf' = set_pt pf p.
Proof.
  unfold obstacle_seg. intros H. step_ok H. destruct a as [j m].
  step_ok H. reflexivity.
Qed.

Lemma obstacle_frame (pf pf' : PathFinder.t) (r : bool * R * Vector.t * Z) :
  obstacle pf = Ok (pf', r) -> scratchless pf' = scratchless pf.
Proof.
  unfold obstacle. intros H. step_ok H. destruct a as [[it t0] idx].
  step_ok H.
  - step_ok H. destruct (Seg.nearest_point _ a) as [t1 p].
    step_ok H. destruct a0 as [[pf1 nxt] n].
    apply obstacle_seg_frame in Hm1. subst pf1.
    step_ok H. step_ok H. reflexivity.
  - step_ok H. reflexivity.
Qed.

Lemma forward_left_obstacle_frame pf v loc pf' loc' :
  forward_left_obstacle pf v loc = Ok (pf', loc') ->
  scratchless pf' = scratchless pf.
Proof.
  unfold forward_left_obstacle. intros H. step_ok H.
  - step_ok H. reflexivity.
  - step_ok H. destruct a as [pf1 [[[it o_t] o_n] idx]].
    apply obstacle_frame in Hm. step_ok H; step_ok H; exact Hm.
Qed.

Lemma forward_left_pipe_frame pf v loc pf' loc' :
  forward_left_pipe pf v loc = Ok (pf', loc') ->
  scratchless pf' = scratchless pf.
Proof.
  unfold forward_left_pipe. intros H. step_ok H.
  - step_ok H. reflexivity.
  - step_ok H. destruct a as [pf1 [[[it o_t] o_n] idx]].
    apply obstacle_frame in Hm. step_ok H; step_ok H; exact Hm.
Qed.

Lemma forward_front_frame pf v loc pf' loc' :
  forward_front pf v loc = Ok (pf', loc') ->
  scratchless pf' = scratchless pf.
Proof.
  unfold forward_front. intros H. step_ok H.
  - step_ok H. reflexivity.
  - step_ok H. destruct a as [[it t0] idx]. step_ok H.
    + step_ok H. destruct a as [[[nxt sg] n] side]. step_ok H. reflexivity.
    + step_ok H. reflexivity.
Qed.

Lemma forward_right_obstacle_frame pf v loc pf' loc' :
  forward_right_obstacle pf v loc = Ok (pf', loc') ->
  scratchless pf' = scratchless pf.
Proof.
  unfold forward_right_obstacle. intros H. step_ok H.
  - step_ok H. destruct a as [[it t0] idx]. step_ok H.
    + step_ok H. destruct (Seg.nearest_point _ a) as [t1 p].
      step_ok H. destruct a0 as [[pf1 j] o_n].
      apply obstacle_seg_frame in Hm1. subst pf1.
      step_ok H. step_ok H.
      * step_ok H. step_ok H. reflexivity.
      * step_ok H. reflexivity.
    + step_ok H. reflexivity.
  - step_ok H. reflexivity.
Qed.

Lemma forward_right_pipe_frame pf v loc pf' loc' :
  forward_right_pipe pf v loc = Ok (pf', loc') ->
  scratchless pf' = scratchless pf.
Proof.
  unfold forward_right_pipe. intros H. step_ok H.
  - step_ok H. destruct a as [[it t0] idx]. step_ok H.
    + step_ok H. destruct (Seg.nearest_point _ a) as [t1 p].
      step_ok H. destruct a0 as [[pf1 j] o_n].
      apply obstacle_seg_frame in Hm1. subst pf1.
      step_ok H. step_ok H.
      * step_ok H. step_ok H. reflexivity.
      * step_ok H. reflexivity.
    + step_ok H. reflexivity.
  - step_ok H. reflexivity.
Qed.

Lemma forward_checks_frame pf v p0 loc pf' loc' :
  forward_checks pf v p0 loc = Ok (pf', loc') ->
  scratchless pf' = scratchless pf.
Proof.
  unfold forward_checks. intros H.
  step_ok H. destruct a as [pf1 loc1]. apply forward_left_obstacle_frame in Hm.
  step_ok H. destruct a as [pf2 loc2]. apply forward_left_pipe_frame in Hm0.
  step_ok H. destruct a as [pf3 loc3]. apply forward_front_frame in Hm1.
  step_ok H. destruct a as [pf4 loc4]. apply forward_right_obstacle_frame in Hm2.
  apply forward_right_pipe_frame in H. congruence.
Qed.

Lemma scratchless_fields (pf pf' : PathFinder.t) :
  scratchless pf' = scratchless pf ->
  tree pf' = tree pf /\ spacing pf' = spacing pf /\
  n_boundarys pf' = n_boundarys pf /\ last pf' = last pf /\
  turtle pf' = turtle pf /\ coords pf' = coords pf /\ run pf' = run pf /\
  allow_backward pf' = allow_backward pf /\ is_forward pf' = is_forward pf /\
  iter pf' = iter pf /\ max_iter pf' = max_iter pf.
Proof.
  intros H.
  repeat split;
    [ apply (f_equal tree) in H | apply (f_equal spacing) in H
    | apply (f_equal n_boundarys) in H | apply (f_equal last) in H
    | apply (f_equal turtle) in H | apply (f_equal coords) in H
    | apply (f_equal run) in H | apply (f_equal allow_backward) in H
    | apply (f_equal is_forward) in H | apply (f_equal iter) in H
    | apply (f_equal max_iter) in H ]; exact H.
Qed.

(** ** The engine: what a step does to the polyline and to the tree *)

Lemma same_settings_refl pf : same_settings pf pf.
Proof. repeat split. Qed.

Lemma same_settings_trans a b c :
  same_settings a b -> same_settings b c -> same_settings a c.
Proof. unfold same_settings. intuition congruence. Qed.

Lemma draw_spec pf v t0 n dir pf' :
  draw pf v t0 n dir = Ok pf' ->
  drawn pf pf' /\ same_settings pf pf' /\ iter pf' = iter pf /\
  run pf' = run pf /\ is_forward pf' = is_forward pf /\ last pf' = last pf.
Proof.
  unfold draw. intros H. step_ok H. rename a into p0.
  assert (Hd : forall tu,
    drawn pf
      (set_turtle
         (fst (insert
                 (set_coords
                    (set_turtle pf (Turtle.rotate (Turtle.move (turtle pf) (t0 *: v)) n))
                    (coords pf ++
                     [Turtle.p (Turtle.rotate (Turtle.move (turtle pf) (t0 *: v)) n)]))
                 p0 (Turtle.p (Turtle.rotate (Turtle.move (turtle pf) (t0 *: v)) n))))
         tu)).
  { intros tu. exists p0, (Turtle.p (Turtle.rotate (Turtle.move (turtle pf) (t0 *: v)) n)).
    split; [exact Hm | split; reflexivity]. }
  destruct dir; step_ok H; (split; [apply Hd | repeat split]).
Qed.

Lemma forward_cap_spec pf r pf' :
  forward_cap pf = Ok (r, pf') ->
  r = false /\ drawn pf pf' /\ same_settings pf pf' /\ iter pf' = iter pf /\
  run pf' = run pf /\ is_forward pf' = is_forward pf.
Proof.
  unfold forward_cap. intros H. step_ok H. step_ok H.
  step_ok H. destruct a1 as [[it t0] idx]. step_ok H.
  split; [reflexivity |]. split; [| repeat split].
  eexists a0, _. split; [exact Hm0 | split; reflexivity].
Qed.

(** [forward] up to the probes: the counter is advanced, [last] may be
    set, nothing else of the engine proper changes; when the probes are
    reached the cap was not exceeded. *)
Lemma forward_wall_spec pf w :
  forward_wall pf = Ok w ->
  match w with
  | Returned pf' =>
      scratchless (set_last pf' 0) =
      scratchless (set_last (set_iter pf (iter pf + 1)) 0)
  | Resolved pf' v p0 loc =>
      scratchless (set_last pf' 0) =
      scratchless (set_last (set_iter pf (iter pf + 1)) 0) /\
      v = Turtle.front_v (turtle pf) /\
      ~ max_iter pf < IZR (iter pf + 1)
  end.
Proof.
  unfold forward_wall. intros H. step_ok H.
  - step_ok H. reflexivity.
  - apply ltb_false in E. cbn [max_iter iter set_iter] in E.
    step_ok H. rename a into pf1.
    assert (H1 : scratchless (set_last pf1 0) =
                 scratchless (set_last (set_iter pf (iter pf + 1)) 0)).
    { step_ok Hm.
      - step_ok Hm. destruct a as [[it t0] idx]. step_ok Hm. reflexivity.
      - step_ok Hm. reflexivity. }
    clear Hm. step_ok H.
    destruct (Seg.farest_point (Turtle.front (turtle pf1)) a) as [tf p0].
    step_ok H. destruct a0 as [pf2 nxt]. apply wall_seg_frame in Hm0. subst pf2.
    step_ok H.
    match type of H with
    | (let '(_, _) := ?c in _) = _ => destruct c as [dir side]
    end.
    step_ok H.
    + step_ok H. exact H1.
    + step_ok H. split; [exact H1 | split; [reflexivity | exact E]].
Qed.

(** One call of [forward]: the counter advances by one, the settings
    stay, and either nothing is recorded or one point is; beyond the cap
    the answer is [False] and nothing is recorded. *)
Lemma forward_step pf r pf' :
  forward pf = Ok (r, pf') ->
  iter pf' = (iter pf + 1)%Z /\ same_settings pf pf' /\
  run pf' = run pf /\ is_forward pf' = is_forward pf /\
  ((r = false /\ idle pf pf') \/ drawn pf pf') /\
  (max_iter pf < IZR (iter pf + 1) -> r = false /\ idle pf pf').
Proof.
  unfold forward. intros H. step_ok H. apply forward_wall_spec in Hm.
  destruct a as [pf1 | pf1 v p0 loc].
  - step_ok H. apply scratchless_fields in Hm. cbn in Hm.
    unfold same_settings, idle. intuition.
  - destruct Hm as [Hm [Hv Hcap]].
    apply scratchless_fields in Hm. cbn in Hm.
    step_ok H. destruct a as [pf2 loc2].
    apply forward_checks_frame, scratchless_fields in Hm0.
    unfold forward_finish in H.
    assert (Hset : same_settings pf (set_last pf2 (l_next loc2))).
    { unfold same_settings; cbn. intuition congruence. }
    assert (Hdr : forall q, drawn (set_last pf2 (l_next loc2)) q -> drawn pf q).
    { intros q (q0 & q1 & Hq0 & Hq1 & Hq2). exists q0, q1. cbn in *.
      replace (coords pf) with (coords pf2) by intuition congruence.
      replace (tree pf) with (tree pf2) by intuition congruence.
      auto. }
    step_ok H.
    + apply forward_cap_spec in H.
      destruct H as (-> & Hd & Hs & Hi & Hr & Hf). cbn in *.
      split; [intuition congruence |].
      split; [eapply same_settings_trans; eauto |].
      split; [intuition congruence |].
      split; [intuition congruence |].
      split; [right; auto | intros; lra].
    + step_ok H. step_ok H. apply draw_spec in Hm1.
      destruct Hm1 as (Hd & Hs & Hi & Hr & Hf & Hl). cbn in *.
      split; [intuition congruence |].
      split; [eapply same_settings_trans; eauto |].
      split; [intuition congruence |].
      split; [intuition congruence |].
      split; [right; auto | intros; lra].
Qed.

(** [backward] up to [self.last = next]: the counter is advanced; on
    [Stop] the run flag is cleared and nothing else of the engine proper
    changes; on [Step] the local [backward] is [True]. *)
Lemma backward_side_spec pf p dir nxt t0 n r :
  backward_side pf p dir nxt t0 n = Ok r ->
  match r with
  | Stop pf' => scratchless pf' = scratchless (set_run pf false)
  | Step pf' bw _ _ _ _ => scratchless pf' = scratchless pf /\ bw = true
  end.
Proof.
  unfold backward_side. intros H. step_ok H. destruct a as [[it t1] idx].
  step_ok H. destruct a as [[[pf1 nxt1] t2] n1].
  assert (H1 : scratchless pf1 = scratchless pf).
  { step_ok Hm0.
    - step_ok Hm0. destruct (Seg.nearest_point _ a) as [t3 p3].
      step_ok Hm0. destruct a0 as [[pf2 nxt2] n2].
      match goal with
      | Ho : obstacle_seg _ _ = Ok _ |- _ => apply obstacle_seg_frame in Ho
      end.
      subst pf2. step_ok Hm0. step_ok Hm0. reflexivity.
    - step_ok Hm0. reflexivity. }
  step_ok H; step_ok H.
  - apply scratchless_fields in H1. unfold scratchless. cbn.
    f_equal; intuition congruence.
  - split; [exact H1 | reflexivity].
Qed.

(** [it or True] holds whatever [it] is, so the front check of
    [backward] always goes on to the side probe. *)
Lemma backward_front_is_side pf v dir nxt t0 n :
  backward_front pf v dir nxt t0 n =
  (let p := (Turtle.p (turtle pf) + t0 *: v)%vec in
   let pf1 := seg_init pf p (1.5 *: v) in
   bind (intersect pf1 (seg pf1))
        (fun _ => backward_side pf1 p dir nxt t0 n)).
Proof.
  unfold backward_front. cbv zeta.
  destruct (intersect _ _) as [[[it t1] idx] | e]; simpl; [| reflexivity].
  rewrite orb_true_r. reflexivity.
Qed.

Lemma backward_wall_spec pf r :
  backward_wall pf = Ok r ->
  match r with
  | Stop pf' =>
      scratchless pf' = scratchless (set_run (set_iter pf (iter pf + 1)) false)
  | Step pf' bw _ _ _ _ =>
      scratchless (set_run pf' true) =
      scratchless (set_run (set_iter pf (iter pf + 1)) true) /\
      bw = true
  end.
Proof.
  unfold backward_wall. intros H. step_ok H.
  destruct (Seg.farest_point _ a) as [t0 p0].
  step_ok H. destruct a0 as [pf1 nxt]. apply wall_seg_frame in Hm0. subst pf1.
  step_ok H.
  - step_ok H. split; reflexivity.
  - step_ok H.
    match type of H with
    | (let '(_, _) := ?c in _) = _ => destruct c as [dir side]
    end.
    step_ok H. destruct a1 as [[it t1] idx]. step_ok H.
    + step_ok H. step_ok H. split; reflexivity.
    + rewrite backward_front_is_side in H. cbv zeta in H.
      step_ok H. apply backward_side_spec in H.
      destruct r as [pf' | pf' bw nxt' t' n' dir'].
      * exact H.
      * destruct H as [H ->]. split; [| reflexivity].
        apply scratchless_fields in H. unfold scratchless. cbn in *.
        f_equal; intuition congruence.
Qed.

(** One call of [backward]: the counter advances by one and the settings
    stay; the answer is [False] only when the step stops short, with
    nothing recorded and the run flag cleared; otherwise one point is
    recorded. *)
Lemma backward_step pf r pf' :
  backward pf = Ok (r, pf') ->
  iter pf' = (iter pf + 1)%Z /\ same_settings pf pf' /\
  is_forward pf' = is_forward pf /\
  ((r = false /\ idle pf pf' /\ run pf' = false) \/
   (r = true /\ drawn pf pf')).
Proof.
  unfold backward. intros H. step_ok H. apply backward_wall_spec in Hm.
  destruct a as [pf1 | pf1 bw nxt t0 n dir].
  - step_ok H. apply scratchless_fields in Hm. cbn in Hm.
    unfold same_settings, idle. intuition.
  - destruct Hm as [Hm ->]. apply scratchless_fields in Hm. cbn in Hm.
    step_ok H. step_ok H. apply draw_spec in Hm0.
    destruct Hm0 as (Hd & Hs & Hi & Hr & Hf & Hl). cbn in *.
    assert (Hset : same_settings pf (set_last pf1 nxt)).
    { unfold same_settings; cbn. intuition congruence. }
    split; [intuition congruence |].
    split; [eapply same_settings_trans; eauto |].
    split; [intuition congruence |].
    right. split; [reflexivity |].
    destruct Hd as (q0 & q1 & Hq0 & Hq1 & Hq2). exists q0, q1. cbn in *.
    replace (coords pf) with (coords pf1) by intuition congruence.
    replace (tree pf) with (tree pf1) by intuition congruence.
    auto.
Qed.

(** One call of [next]. *)
Lemma next_step pf r pf' :
  next pf = Ok (r, pf') ->
  same_settings pf pf' /\
  (idle pf pf' \/ drawn pf pf') /\
  (iter pf' = iter pf \/ iter pf' = (iter pf + 1)%Z) /\
  (max_iter pf' < IZR (iter pf') -> r = false) /\
  (r = true ->
   iter pf' = (iter pf + 1)%Z /\ IZR (iter pf') <= max_iter pf' /\
   run pf' = true).
Proof.
  assert (Htail : forall res q,
            next_tail res q = (r, pf') ->
            spacing pf' = spacing q /\ n_boundarys pf' = n_boundarys q /\
            allow_backward pf' = allow_backward q /\
            max_iter pf' = max_iter q /\
            coords pf' = coords q /\ tree pf' = tree q /\ iter pf' = iter q /\
            (max_iter pf' < IZR (iter pf') -> r = false) /\
            (r = true -> IZR (iter pf') <= max_iter pf' /\ run pf' = true)).
  { intros res q. unfold next_tail.
    set (q1 := if res then q else set_is_forward q (negb (is_forward q))).
    assert (Hq : spacing q1 = spacing q /\ n_boundarys q1 = n_boundarys q /\
                 allow_backward q1 = allow_backward q /\
                 max_iter q1 = max_iter q /\ coords q1 = coords q /\
                 tree q1 = tree q /\ iter q1 = iter q /\ run q1 = run q)
      by (subst q1; destruct res; repeat split).
    destruct (Num.ltb (max_iter q1) (IZR (iter q1))) eqn:E; intros H;
      injection H as <- <-.
    - repeat split; try tauto; try discriminate.
    - apply ltb_false in E.
      repeat split; intros; try tauto; try contradiction; lra. }
  unfold next. intros H. step_ok H.
  - step_ok H. destruct a as [res q]. step_ok H.
    apply forward_step in Hm. apply Htail in H.
    unfold same_settings, idle, drawn in *.
    destruct Hm as (Hi & Hs & Hr & Hf & Hd & Hc).
    destruct H as (H1 & H2 & H3 & H4 & H5 & H6 & H7 & H8 & H9).
    split; [intuition congruence |].
    split.
    { destruct Hd as [[_ [Hd1 Hd2]] | (q0 & q1 & Hd0 & Hd1 & Hd2)].
      - left. split; congruence.
      - right. exists q0, q1. rewrite H5, H6. auto. }
    split; [right; congruence |].
    split; [exact H8 |].
    intros Hr'. split; [congruence | apply H9, Hr'].
  - step_ok H.
    + step_ok H. destruct a as [res q]. step_ok H.
      apply backward_step in Hm. apply Htail in H.
      unfold same_settings, idle, drawn in *.
      destruct Hm as (Hi & Hs & Hf & Hd).
      destruct H as (H1 & H2 & H3 & H4 & H5 & H6 & H7 & H8 & H9).
      split; [intuition congruence |].
      split.
      { destruct Hd as [[_ [[Hd1 Hd2] _]] | [_ (q0 & q1 & Hd0 & Hd1 & Hd2)]].
        - left. split; congruence.
        - right. exists q0, q1. rewrite H5, H6. auto. }
      split; [right; congruence |].
      split; [exact H8 |].
      intros Hr'. split; [congruence | apply H9, Hr'].
    + step_ok H. split; [apply same_settings_refl |].
      split; [left; split; reflexivity |].
      split; [left; reflexivity |].
      split; [reflexivity | discriminate].
Qed.

(** ** The intersection query *)

Lemma intersect_loop_hit_ok sgs sg skip all :
  forall found acc res,
    (forall i, In i found -> In i all) ->
    hit_ok skip all acc ->
    intersect_loop sgs sg skip found acc = Ok res ->
    hit_ok skip all res.
Proof.
  induction found as [| i rest IH]; intros acc res Hsub Hacc H.
  - simpl in H. injection H as <-. exact Hacc.
  - simpl in H.
    assert (Hrest : forall j, In j rest -> In j all)
      by (intros j Hj; apply Hsub; right; exact Hj).
    destruct (i =? skip)%Z eqn:Ei.
    + eapply IH; eauto.
    + apply Z.eqb_neq in Ei.
      step_ok H. destruct (Seg.intersect_ext sg a) as [[[it pt] u] v].
      destruct acc as [[hit t0] idx].
      destruct (it && in_window u v)%bool eqn:Ew.
      * apply andb_true_iff in Ew. destruct Ew as [_ Ew].
        unfold in_window in Ew. rewrite !andb_true_iff in Ew.
        destruct Ew as [[[Hu _] _] _]. apply leb_true in Hu.
        destruct (Num.ltb u t0) eqn:Et.
        -- eapply IH; [exact Hrest | | exact H].
           simpl. split; [exact Ei | split; [apply Hsub; left; reflexivity | exact Hu]].
        -- apply ltb_false in Et. eapply IH; [exact Hrest | | exact H].
           simpl. simpl in Hacc. destruct hit.
           ++ exact Hacc.
           ++ destruct Hacc as [_ Ht]. exfalso. lra.
      * eapply IH; eauto.
Qed.

(** C10: a hit reported by [intersect] never carries the index
    [ngeoms - 1] of the segment inserted last; the index is one of those
    the tree returned for the probe, and without a hit it is [-1]. *)
Theorem intersect_skips_last (pf : PathFinder.t) (sg : Seg.t)
    (it : bool) (t0 : R) (idx : Z) :
  intersect pf sg = Ok (it, t0, idx) ->
  (it = true ->
   idx <> (Tree.ngeoms (tree pf) - 1)%Z /\
   In idx (Tree.intersects_ext (tree pf) (Seg.envelope sg) (0.005 * spacing pf))) /\
  (it = false -> idx = (-1)%Z) /\
  (segs pf <> [] -> idx <> (Tree.ngeoms (tree pf) - 1)%Z).
Proof.
  unfold intersect. intros H.
  eapply intersect_loop_hit_ok in H; [| intros i Hi; exact Hi | simpl; split; reflexivity].
  simpl in H. destruct it.
  - destruct H as (Hs & Hin & _).
    split; [intros _; split; assumption |].
    split; [discriminate | intros _; exact Hs].
  - destruct H as [-> _].
    split; [discriminate |]. split; [reflexivity |].
    intros Hne. unfold Tree.ngeoms, segs in *.
    destruct (Tree.geoms (tree pf)); [congruence |]. simpl length. lia.
Qed.

(** ** Construction of the engine *)


Lemma init_nonzero (tr : Tree.t) (sp : R) (backward_ok cw : bool) :
  sp <> 0 ->
  exists pf,
    init tr sp backward_ok cw = Ok pf /\
    spacing pf = sp /\ tree pf = tr /\ coords pf = [] /\ iter pf = 0%Z /\
    n_boundarys pf = Tree.ngeoms tr /\
    max_iter pf = Tree.width tr * Tree.height tr / (sp * sp).
Proof.
  intros Hsp. unfold init. replace (Num.eqb (sp * sp) 0) with false.
  - eexists. split; [reflexivity |]. repeat split.
  - symmetry. decide_num. nra.
Qed.


(** ** The stepping loop ends *)





(** ** The tree only grows *)

Lemma indices_from_app (l1 l2 : list Seg.t) :
  forall k,
    indices_from k l1 ->
    indices_from (k + Z.of_nat (length l1)) l2 ->
    indices_from k (l1 ++ l2).
Proof.
  induction l1 as [| s l1 IH]; intros k H1 H2.
  - simpl in *. replace (k + 0)%Z with k in H2 by lia. exact H2.
  - simpl in *. destruct H1 as [Hs H1]. split; [exact Hs |].
    apply IH; [exact H1 |].
    replace (k + 1 + Z.of_nat (length l1))%Z
      with (k + Z.pos (Pos.of_succ_nat (length l1)))%Z by lia.
    exact H2.
Qed.

Lemma indices_from_increasing (l : list Seg.t) :
  forall k i j si sj,
    indices_from k l ->
    nth_error l i = Some si -> nth_error l j = Some sj ->
    (i < j)%nat -> (k <= Seg.idx si < Seg.idx sj)%Z.
Proof.
  assert (Hge : forall l k j sj,
            indices_from k l -> nth_error l j = Some sj ->
            Seg.idx sj = (k + Z.of_nat j)%Z).
  { clear. induction l as [| s l IH]; intros k j sj Hl Hj.
    - destruct j; discriminate.
    - destruct Hl as [Hs Hl]. destruct j as [| j].
      + injection Hj as <-. lia.
      + simpl in Hj. rewrite (IH _ _ _ Hl Hj). lia. }
  intros k i j si sj Hl Hi Hj Hij.
  rewrite (Hge _ _ _ _ Hl Hi), (Hge _ _ _ _ Hl Hj). lia.
Qed.

Lemma next_appends pf r pf' :
  next pf = Ok (r, pf') ->
  exists added,
    segs pf' = segs pf ++ added /\
    indices_from (Tree.ngeoms (tree pf)) added /\
    (length added <= 1)%nat.
Proof.
  intros H. apply next_step in H.
  destruct H as (_ & [[_ Ht] | (p0 & p1 & _ & _ & Ht)] & _).
  - exists []. unfold segs. rewrite Ht, app_nil_r. simpl. auto.
  - eexists [_]. unfold segs. rewrite Ht. simpl.
    split; [reflexivity | split; [split; [reflexivity | exact I] | lia]].
Qed.

Lemma insert_appends (pf : PathFinder.t) (p0 p1 : Vector.t) :
  let '(pf', i) := insert pf p0 p1 in
  i = Tree.ngeoms (tree pf) /\
  segs pf' = segs pf ++ [Seg.mk p0 (p1 - p0)%vec i] /\
  Tree.ngeoms (tree pf') = (i + 1)%Z.
Proof.
  unfold insert, segs, Tree.ngeoms. simpl.
  split; [reflexivity | split; [reflexivity |]].
  rewrite length_app. simpl. lia.
Qed.

(** C8: the tree is append-only and the indices given out grow.
    [insert] gives the new path segment the current count as its index,
    stores it last and raises the count by one; whatever the run has
    done since an engine [pf], the segments then stored are those of
    [pf] followed by the path segments added since, whose indices are
    the count at [pf] and its successors, so each exceeds every index
    given before it. *)
Theorem index_grows_monotonically (pf pf' : PathFinder.t) :
  reachable pf pf' ->
  (forall p0 p1,
     let '(q, i) := insert pf' p0 p1 in
     i = Tree.ngeoms (tree pf') /\
     segs q = segs pf' ++ [Seg.mk p0 (p1 - p0)%vec i] /\
     Tree.ngeoms (tree q) = (i + 1)%Z) /\
  exists added,
    segs pf' = segs pf ++ added /\
    (Tree.ngeoms (tree pf) <= Tree.ngeoms (tree pf'))%Z /\
    indices_from (Tree.ngeoms (tree pf)) added /\
    (forall i j si sj,
       nth_error added i = Some si -> nth_error added j = Some sj ->
       (i < j)%nat -> (Seg.idx si < Seg.idx sj)%Z).
Proof.
  intros Hreach. split; [intros p0 p1; apply insert_appends |].
  assert (H : exists added,
             segs pf' = segs pf ++ added /\
             indices_from (Tree.ngeoms (tree pf)) added).
  { induction Hreach as [| q q' r _ IH Hn].
    - exists []. rewrite app_nil_r. simpl. auto.
    - destruct IH as (l1 & Hl1 & Hi1).
      apply next_appends in Hn. destruct Hn as (l2 & Hl2 & Hi2 & _).
      exists (l1 ++ l2). split.
      + rewrite Hl2, Hl1, app_assoc. reflexivity.
      + apply indices_from_app; [exact Hi1 |].
        replace (Tree.ngeoms (tree pf) + Z.of_nat (length l1))%Z
          with (Tree.ngeoms (tree q)); [exact Hi2 |].
        unfold Tree.ngeoms. unfold segs in Hl1. rewrite Hl1, length_app. lia. }
  destruct H as (added & Hl & Hi). exists added.
  split; [exact Hl |]. split.
  - unfold Tree.ngeoms. unfold segs in Hl. rewrite Hl, length_app. lia.
  - split; [exact Hi |].
    intros i j si sj Hsi Hsj Hij.
    pose proof (indices_from_increasing _ _ _ _ _ _ Hi Hsi Hsj Hij). lia.
Qed.

(** ** The backward step *)

(** C9: the test [it or True] of the front check holds whatever the
    probe finds, so the branch that would clear the local [backward] is
    never taken: whenever [backward] leaves its probes to draw, the local
    is [True].  [backward] therefore answers [False] only when it stops
    short on [abs(t) < 0.5]: the run flag is cleared, nothing is recorded
    and the turtle and [last] are as they were.  Whenever it answers
    [True] it has recorded a point. *)
Theorem backward_never_resumes_forward (pf : PathFinder.t) :
  (forall it : bool, (it || true)%bool = true) /\
  (forall q bw nxt t0 n dir,
     backward_wall pf = Ok (Step q bw nxt t0 n dir) -> bw = true) /\
  (forall pf',
     backward pf = Ok (false, pf') ->
     run pf' = false /\ idle pf pf' /\ turtle pf' = turtle pf /\
     last pf' = last pf /\ iter pf' = (iter pf + 1)%Z) /\
  (forall pf', backward pf = Ok (true, pf') -> drawn pf pf').
Proof.
  split; [intros it; apply orb_true_r |].
  split; [| split].
  - intros q bw nxt t0 n dir H. apply backward_wall_spec in H. tauto.
  - intros pf' H. unfold backward in H. step_ok H.
    pose proof (backward_wall_spec _ _ Hm) as Hw.
    destruct a as [q | q bw nxt t0 n dir].
    + step_ok H. apply scratchless_fields in Hw. cbn in Hw.
      unfold idle. intuition.
    + destruct Hw as [_ ->]. step_ok H. discriminate H.
  - intros pf' H. apply backward_step in H.
    destruct H as (_ & _ & _ & [[H _] | [_ H]]); [discriminate | exact H].
Qed.

(** ** The clearance of the probe line *)

Lemma Rabs_minus_one : Rabs (-1) = 1.
Proof. rewrite Rabs_left by lra. lra. Qed.

(** The normal that [normal] returns is the direction of the segment,
    brought to unit length, turned a quarter and scaled by the spacing,
    with one of the two signs. *)
Lemma normal_shape (pf : PathFinder.t) (sg : Seg.t) :
  Vector.flat (Seg.v sg) -> Seg.v sg <> Vector.zero ->
  exists a,
    Rabs a = Rabs (spacing pf) /\
    Vector.x (fst (normal pf sg)) = a * Vector.y (Seg.v sg) / Vector.length (Seg.v sg) /\
    Vector.y (fst (normal pf sg)) = - a * Vector.x (Seg.v sg) / Vector.length (Seg.v sg).
Proof.
  intros Hflat Hnz.
  assert (HL : Vector.length (Seg.v sg) <> 0)
    by (intros H; apply length_zero_iff in H; contradiction).
  assert (Hup : Turtle.up (turtle pf) = 1 \/ Turtle.up (turtle pf) = -1)
    by (unfold Turtle.up, Turtle.side_up; destruct (Turtle.cw (turtle pf)); auto).
  unfold normal, Vector.normalized.
  replace (Num.eqb (Vector.length (Seg.v sg)) 0) with false
    by (symmetry; apply eqb_false; exact HL).
  unfold Vector.flat in Hflat.
  match goal with
  | |- context [if Num.ltb ?d 1 then _ else _] => destruct (Num.ltb d 1)
  end.
  - exists (- spacing pf * Turtle.up (turtle pf)). split.
    + rewrite Rabs_mult, Rabs_Ropp.
      destruct Hup as [-> | ->];
        [rewrite Rabs_R1 | rewrite Rabs_minus_one]; ring.
    + cbn [fst Vector.x Vector.y Vector.z Vector.scale Vector.neg Vector.cross
           Turtle.zAxis].
      rewrite Hflat. split; field; exact HL.
  - exists (spacing pf * Turtle.up (turtle pf)). split.
    + rewrite Rabs_mult.
      destruct Hup as [-> | ->];
        [rewrite Rabs_R1 | rewrite Rabs_minus_one]; ring.
    + cbn [fst Vector.x Vector.y Vector.z Vector.scale Vector.neg Vector.cross
           Turtle.zAxis].
      rewrite Hflat. split; field; exact HL.
Qed.

(** A point moved off a segment by [c] normals, and any way along it, is
    at [|c|] spacings from its line. *)
Lemma offset_distance (pf : PathFinder.t) (sg : Seg.t) (c k : R) :
  Vector.flat (Seg.v sg) -> Seg.v sg <> Vector.zero ->
  Seg.line_distance sg
    (Seg.p sg + c *: fst (normal pf sg) + k *: Seg.v sg)%vec
  = Rabs c * Rabs (spacing pf).
Proof.
  intros Hflat Hnz.
  destruct (normal_shape pf sg Hflat Hnz) as (a & Ha & Hx & Hy).
  assert (HL : 0 < Vector.length (Seg.v sg)).
  { pose proof (length_nonneg (Seg.v sg)) as Hn.
    destruct Hn as [Hn | Hn]; [exact Hn |].
    symmetry in Hn. apply length_zero_iff in Hn. contradiction. }
  pose proof (length_sqr (Seg.v sg)) as Hs.
  unfold Vector.dot in Hs. unfold Vector.flat in Hflat. rewrite Hflat in Hs.
  unfold Seg.line_distance.
  cbn [Vector.x Vector.y Vector.z Vector.add Vector.scale].
  rewrite Hx, Hy.
  set (L := Vector.length (Seg.v sg)) in *.
  set (vx := Vector.x (Seg.v sg)) in *.
  set (vy := Vector.y (Seg.v sg)) in *.
  replace (vx * (Vector.y (Seg.p sg) + c * (- a * vx / L) + k * vy - Vector.y (Seg.p sg))
           - vy * (Vector.x (Seg.p sg) + c * (a * vy / L) + k * vx - Vector.x (Seg.p sg)))
    with (- (c * a * L)).
  - rewrite Rabs_Ropp, !Rabs_mult, Ha, (Rabs_pos_eq L) by lra.
    field. lra.
  - replace (c * a * L) with (c * a * (L * L) / L) by (field; lra).
    rewrite Hs. field. lra.
Qed.

(** ** The cap manoeuvre of the forward step *)

(** [intersect] reads the tree and the spacing of the engine only. *)
Lemma intersect_frame (a b : PathFinder.t) (sg : Seg.t) :
  tree a = tree b -> spacing a = spacing b -> intersect a sg = intersect b sg.
Proof. intros Ht Hs. unfold intersect, segs. rewrite Ht, Hs. reflexivity. Qed.

(** Half a step to the right of a direction one spacing long is half a
    spacing long. *)
Lemma half_right_length (tu : Turtle.t) (sp : R) (d : Vector.t) :
  0 <= sp -> Vector.flat d -> d <> Vector.zero ->
  let tu1 := Turtle.turn_right (Turtle.rotate tu (sp *: Vector.normalized d)) in
  Vector.length (Turtle.p (Turtle.move tu1 (0.5 *: Turtle.front_v tu1)) - Turtle.p tu)%vec
  = 0.5 * sp.
Proof.
  intros Hsp Hflat Hnz. cbv zeta.
  assert (HL : 0 < Vector.length d).
  { pose proof (length_nonneg d) as Hn. destruct Hn as [Hn | Hn]; [exact Hn |].
    symmetry in Hn. apply length_zero_iff in Hn. contradiction. }
  pose proof (length_sqr d) as Hs. unfold Vector.dot in Hs.
  unfold Vector.flat in Hflat. rewrite Hflat in Hs.
  assert (Hup : Turtle.up tu * Turtle.up tu = 1)
    by (unfold Turtle.up, Turtle.side_up; destruct (Turtle.cw tu); ring).
  unfold Vector.normalized.
  replace (Num.eqb (Vector.length d) 0) with false
    by (symmetry; apply eqb_false; lra).
  apply length_of_square; [lra |].
  unfold Vector.dot.
  cbn [Turtle.turn_right Turtle.rotate Turtle.move Turtle.p Turtle.front_v
       Turtle.right_v Turtle.cw Turtle.zAxis Turtle.up
       Vector.x Vector.y Vector.z Vector.add Vector.sub Vector.scale
       Vector.cross].
  rewrite Hflat.
  set (L := Vector.length d) in *.
  set (u := Turtle.up tu) in *.
  replace (0.5 * sp * (0.5 * sp))
    with (0.25 * sp * sp * (u * u)
          * ((Vector.x d * Vector.x d + Vector.y d * Vector.y d + 0 * 0) / (L * L))).
  - replace 0.5 with (1 / 2) by lra. replace 0.25 with (1 / 4) by lra.
    field. lra.
  - rewrite <- Hs, Hup.
    replace 0.5 with (1 / 2) by lra. replace 0.25 with (1 / 4) by lra.
    field. lra.
Qed.

(** ** Running the engine on given data *)

(** The functions below decide comparisons of reals, which do not
    compute; on given data the engine is run by rewriting with the
    equations that follow, each comparison being settled by arithmetic. *)

Lemma intersects_true (a b : Envelope.t) :
  Envelope.minx a <= Envelope.maxx b -> Envelope.minx b <= Envelope.maxx a ->
  Envelope.miny a <= Envelope.maxy b -> Envelope.miny b <= Envelope.maxy a ->
  Envelope.intersects a b = true.
Proof.
  intros. unfold Envelope.intersects.
  rewrite !andb_true_iff. repeat split; apply leb_true; assumption.
Qed.

Lemma intersects_false (a b : Envelope.t) :
  Envelope.maxx b < Envelope.minx a \/ Envelope.maxx a < Envelope.minx b \/
  Envelope.maxy b < Envelope.miny a \/ Envelope.maxy a < Envelope.miny b ->
  Envelope.intersects a b = false.
Proof.
  intros H. unfold Envelope.intersects.
  rewrite !andb_false_iff.
  destruct H as [H | [H | [H | H]]].
  - left; left; left. apply leb_false. lra.
  - left; left; right. apply leb_false. lra.
  - left; right. apply leb_false. lra.
  - right. apply leb_false. lra.
Qed.

Lemma envelope_scan_in (i : Z) (s : Seg.t) (l : list Seg.t) (e : Envelope.t) :
  Envelope.intersects (Seg.envelope s) e = true ->
  envelope_scan i (s :: l) e = i :: envelope_scan (i + 1) l e.
Proof. intros H. simpl. rewrite H. reflexivity. Qed.

Lemma envelope_scan_out (i : Z) (s : Seg.t) (l : list Seg.t) (e : Envelope.t) :
  Envelope.intersects (Seg.envelope s) e = false ->
  envelope_scan i (s :: l) e = envelope_scan (i + 1) l e.
Proof. intros H. simpl. rewrite H. reflexivity. Qed.

Lemma intersect_ext_cross (a b : Seg.t) :
  Seg.det a b <> 0 ->
  Seg.intersect_ext a b =
  (true,
   (Seg.p a + (Vector.dot (Seg.perp (Seg.v b)) (Seg.p b - Seg.p a) / Seg.det a b)
              *: Seg.v a)%vec,
   Vector.dot (Seg.perp (Seg.v b)) (Seg.p b - Seg.p a)%vec / Seg.det a b,
   Vector.dot (Seg.perp (Seg.v a)) (Seg.p b - Seg.p a)%vec / Seg.det a b).
Proof.
  intros H. unfold Seg.intersect_ext. rewrite dot_perp_det.
  apply eqb_false in H. rewrite H. reflexivity.
Qed.

Lemma intersect_ext_parallel (a b : Seg.t) :
  Seg.det a b = 0 -> Seg.intersect_ext a b = (false, Seg.p a, 0, 0).
Proof.
  intros H. unfold Seg.intersect_ext. rewrite dot_perp_det.
  apply eqb_true in H. rewrite H. reflexivity.
Qed.

Lemma t_cross (a b : Seg.t) :
  Seg.det a b <> 0 ->
  Seg.t_ a b = Vector.dot (Seg.perp (Seg.v b)) (Seg.p b - Seg.p a)%vec / Seg.det a b.
Proof.
  intros H. unfold Seg.t_. rewrite dot_perp_det.
  apply eqb_false in H. rewrite H. reflexivity.
Qed.

Lemma point_on_seg_value (s : Seg.t) (pt : Vector.t) :
  Vector.dot (Seg.v s) (Seg.v s) <> 0 ->
  Seg.point_on_seg s pt =
  Vector.dot (Seg.v s) (pt - Seg.p s)%vec / Vector.dot (Seg.v s) (Seg.v s).
Proof.
  intros H. unfold Seg.point_on_seg. rewrite length_sqr.
  replace (Num.eqb (Vector.length (Seg.v s)) 0) with false; [reflexivity |].
  symmetry. apply eqb_false. intros Hl.
  pose proof (length_sqr (Seg.v s)) as Hs. rewrite Hl in Hs. lra.
Qed.

Lemma ltb_length (a : Vector.t) (c : R) :
  0 < c -> Num.ltb (Vector.length a) c = Num.ltb (Vector.dot a a) (c * c).
Proof.
  intros Hc. pose proof (length_lt_iff a c Hc) as H.
  destruct (Num.ltb (Vector.dot a a) (c * c)) eqn:E.
  - apply ltb_true. apply ltb_true in E. tauto.
  - apply ltb_false. apply ltb_false in E. tauto.
Qed.

(** [seg_at_pos] without square roots. *)
Lemma seg_at_pos_starts (sg : Seg.t) (p : Vector.t) :
  Vector.dot (Seg.p sg - p)%vec (Seg.p sg - p)%vec < 0.0001 * 0.0001 ->
  seg_at_pos sg p = true.
Proof.
  intros H. unfold seg_at_pos. rewrite !ltb_length by lra.
  apply ltb_true in H. rewrite H. reflexivity.
Qed.

Lemma seg_at_pos_away (sg : Seg.t) (p : Vector.t) :
  0.0001 * 0.0001 <= Vector.dot (Seg.p sg - p)%vec (Seg.p sg - p)%vec ->
  0.0001 * 0.0001 <=
  Vector.dot (Seg.p sg - p + Seg.v sg)%vec (Seg.p sg - p + Seg.v sg)%vec ->
  seg_at_pos sg p = false.
Proof.
  intros H1 H2. unfold seg_at_pos. rewrite !ltb_length by lra.
  replace (Num.ltb (Vector.dot (Seg.p sg - p)%vec (Seg.p sg - p)%vec)
                   (0.0001 * 0.0001)) with false
    by (symmetry; apply ltb_false; lra).
  replace (Num.ltb (Vector.dot (Seg.p sg - p + Seg.v sg)%vec
                               (Seg.p sg - p + Seg.v sg)%vec)
                   (0.0001 * 0.0001)) with false
    by (symmetry; apply ltb_false; lra).
  reflexivity.
Qed.

(** The loop of [intersect], one index at a time. *)
Lemma intersect_loop_skip sgs sg skip rest acc :
  intersect_loop sgs sg skip (skip :: rest) acc =
  intersect_loop sgs sg skip rest acc.
Proof. simpl. rewrite Z.eqb_refl. reflexivity. Qed.

Lemma intersect_loop_parallel sgs sg skip i rest acc s :
  i <> skip -> getitem sgs i = Ok s -> Seg.det sg s = 0 ->
  intersect_loop sgs sg skip (i :: rest) acc =
  intersect_loop sgs sg skip rest acc.
Proof.
  intros Hi Hs Hd. simpl. apply Z.eqb_neq in Hi. rewrite Hi, Hs. simpl.
  rewrite (intersect_ext_parallel _ _ Hd). destruct acc as [[h t0] idx].
  reflexivity.
Qed.

Lemma intersect_loop_outside sgs sg skip i rest acc s :
  i <> skip -> getitem sgs i = Ok s -> Seg.det sg s <> 0 ->
  in_window
    (Vector.dot (Seg.perp (Seg.v s)) (Seg.p s - Seg.p sg)%vec / Seg.det sg s)
    (Vector.dot (Seg.perp (Seg.v sg)) (Seg.p s - Seg.p sg)%vec / Seg.det sg s)
  = false ->
  intersect_loop sgs sg skip (i :: rest) acc =
  intersect_loop sgs sg skip rest acc.
Proof.
  intros Hi Hs Hd Hw. simpl. apply Z.eqb_neq in Hi. rewrite Hi, Hs. simpl.
  rewrite (intersect_ext_cross _ _ Hd). destruct acc as [[h t0] idx].
  rewrite Hw. reflexivity.
Qed.

Lemma intersect_loop_closer sgs sg skip i rest h t0 idx s :
  i <> skip -> getitem sgs i = Ok s -> Seg.det sg s <> 0 ->
  in_window
    (Vector.dot (Seg.perp (Seg.v s)) (Seg.p s - Seg.p sg)%vec / Seg.det sg s)
    (Vector.dot (Seg.perp (Seg.v sg)) (Seg.p s - Seg.p sg)%vec / Seg.det sg s)
  = true ->
  Vector.dot (Seg.perp (Seg.v s)) (Seg.p s - Seg.p sg)%vec / Seg.det sg s < t0 ->
  intersect_loop sgs sg skip (i :: rest) (h, t0, idx) =
  intersect_loop sgs sg skip rest
    (true,
     Vector.dot (Seg.perp (Seg.v s)) (Seg.p s - Seg.p sg)%vec / Seg.det sg s, i).
Proof.
  intros Hi Hs Hd Hw Ht. simpl. apply Z.eqb_neq in Hi. rewrite Hi, Hs. simpl.
  rewrite (intersect_ext_cross _ _ Hd). rewrite Hw.
  apply ltb_true in Ht. rewrite Ht. reflexivity.
Qed.

Lemma in_window_inside (u v : R) :
  0 < u <= 1.0001 -> -0.0001 <= v <= 1.0001 -> in_window u v = true.
Proof.
  intros [Hu1 Hu2] [Hv1 Hv2]. unfold in_window.
  rewrite !andb_true_iff. repeat split;
    first [apply leb_true | apply ltb_true]; assumption.
Qed.

Lemma in_window_outside (u v : R) :
  u <= 0 \/ 1.0001 < u \/ v < -0.0001 \/ 1.0001 < v -> in_window u v = false.
Proof.
  intros H. unfold in_window. rewrite !andb_false_iff.
  destruct H as [H | [H | [H | H]]].
  - left; left; right. apply ltb_false. lra.
  - left; left; left. apply leb_false. lra.
  - right. apply leb_false. lra.
  - left; right. apply leb_false. lra.
Qed.

(** The loop of [wall_seg], one index at a time. *)
Lemma wall_seg_loop_last pf p rest :
  wall_seg_loop pf p (last pf :: rest) = wall_seg_loop pf p rest.
Proof. simpl. rewrite Z.eqb_refl. reflexivity. Qed.

Lemma wall_seg_loop_found pf p i rest s :
  i <> last pf -> getitem (segs pf) i = Ok s -> seg_at_pos s p = true ->
  wall_seg_loop pf p (i :: rest) = Ok i.
Proof.
  intros Hi Hs Hp. simpl. apply Z.eqb_neq in Hi. rewrite Hi, Hs. simpl.
  rewrite Hp. reflexivity.
Qed.

Lemma wall_seg_loop_away pf p i rest s :
  i <> last pf -> getitem (segs pf) i = Ok s -> seg_at_pos s p = false ->
  wall_seg_loop pf p (i :: rest) = wall_seg_loop pf p rest.
Proof.
  intros Hi Hs Hp. simpl. apply Z.eqb_neq in Hi. rewrite Hi, Hs. simpl.
  rewrite Hp. reflexivity.
Qed.

(** Unfolding the plumbing of records, vectors and setters, and nothing
    that compares reals. *)
Ltac plumb :=
  cbv beta iota zeta delta
    [bind fst snd
     e0 e1 e2 e3 square_p square_v square_turtle square_engine square_corner
     Vector.x Vector.y Vector.z Vector.add Vector.sub Vector.neg Vector.scale
     Vector.dot Vector.cross Vector.zero
     Envelope.minx Envelope.maxx Envelope.miny Envelope.maxy
     Envelope.initByPoints Envelope.expandBy
     Seg.p Seg.v Seg.idx Seg.new Seg.envelope Seg.init Seg.perp Seg.det
     Turtle.p Turtle.cw Turtle.front_v Turtle.front2_v Turtle.front3_v
     Turtle.left_v Turtle.left2_v Turtle.right_v Turtle.side_up Turtle.up
     Turtle.zAxis Turtle.front Turtle.left Turtle.right Turtle.new
     Turtle.rotate Turtle.move Turtle.turn_right Turtle.turn_left
     Turtle.relocate
     Tree.geoms Tree.width Tree.height Tree.candidates Tree.insert
     Tree.intersects_ext square_tree
     tree spacing n_boundarys last pt seg left right turtle coords run
     allow_backward is_forward iter max_iter segs
     set_tree set_last set_pt set_seg set_left set_right set_turtle
     set_coords set_run set_is_forward set_iter set_max_iter
     seg_init left_init right_init
     l_dir l_side l_t l_n l_next l_seg l_p l_hit].

Ltac num := unfold Rmin, Rmax; repeat (destruct (Rle_dec _ _)); lra.

Ltac env_in := apply intersects_true; plumb; num.
Ltac env_out :=
  apply intersects_false; plumb;
  first [ left; num | right; left; num | right; right; left; num
        | right; right; right; num ].

(** One step of the envelope scan. *)
Ltac scan :=
  first [ rewrite envelope_scan_in by env_in
        | rewrite envelope_scan_out by env_out ].

Ltac norm_z :=
  repeat match goal with
  | |- context [Z.add ?a ?b] =>
      let r := eval vm_compute in (Z.add a b) in change (Z.add a b) with r
  | |- context [Z.sub ?a ?b] =>
      let r := eval vm_compute in (Z.sub a b) in change (Z.sub a b) with r
  end.

Ltac vec := apply vector_eq; plumb; lra.

(** Unfolding the plumbing of the engine record only, then naming the
    engine again. *)
Ltac state :=
  cbv beta iota zeta delta
    [bind square_engine
     tree spacing n_boundarys last pt seg left right turtle coords run
     allow_backward is_forward iter max_iter segs
     set_tree set_last set_pt set_seg set_left set_right set_turtle
     set_coords set_run set_is_forward set_iter set_max_iter
     seg_init left_init right_init
     l_dir l_side l_t l_n l_next l_seg l_p l_hit];
  repeat match goal with
  | |- context [PathFinder.mk square_tree 0.3 4 ?l ?p ?a ?b ?c ?tu ?cs
                              true true true ?it 1] =>
      change (PathFinder.mk square_tree 0.3 4 l p a b c tu cs true true true it 1)
        with (square_engine l p a b c tu cs it)
  end;
  change (Tree.geoms square_tree) with square_edges.

Lemma square_count : Tree.ngeoms square_tree = 4%Z.
Proof. reflexivity. Qed.

Lemma square_getitem0 : getitem square_edges 0 = Ok e0.
Proof. reflexivity. Qed.

Lemma square_getitem1 : getitem square_edges 1 = Ok e1.
Proof. reflexivity. Qed.

(** The right probe of the start meets the first edge. *)
Lemma square_hit_right lst pt0 s1 s2 s3 tu cs it :
  exists t0,
    intersect (square_engine lst pt0 s1 s2 s3 tu cs it)
              (Turtle.right square_turtle) = Ok (true, t0, 0%Z).
Proof.
  unfold intersect.
  change (Tree.ngeoms (tree (square_engine lst pt0 s1 s2 s3 tu cs it)) - 1)%Z
    with 3%Z.
  change (segs (square_engine lst pt0 s1 s2 s3 tu cs it)) with square_edges.
  change (Tree.intersects_ext (tree (square_engine lst pt0 s1 s2 s3 tu cs it)))
    with (fun e tol => envelope_query square_edges e tol).
  cbv beta. unfold envelope_query, square_edges at 2.
  scan. scan. scan. scan. norm_z.
  change (envelope_scan 4 [] _) with (@nil Z).
  eexists.
  rewrite (intersect_loop_closer square_edges _ 3 0 [] false 1e32 (-1) e0).
  - reflexivity.
  - lia.
  - reflexivity.
  - plumb. lra.
  - apply in_window_inside; plumb; lra.
  - plumb. lra.
Qed.

(** The first edge reaches farthest, along the front of the turtle, at
    its end corner. *)
Lemma square_farest :
  exists t0,
    Seg.farest_point (Turtle.front square_turtle) e0 = (t0, square_corner).
Proof.
  unfold Seg.farest_point.
  rewrite !point_on_seg_value by (plumb; lra).
  match goal with
  | |- context [Num.ltb ?a ?b] =>
      replace (Num.ltb a b) with true by (symmetry; apply ltb_true; plumb; lra)
  end.
  eexists. f_equal. vec.
Qed.

(** At that corner the tree holds the first and the second edge; the
    first is the wall followed, so [wall_seg] answers the second. *)
Lemma square_wall_seg pt0 s1 s2 s3 tu cs it :
  wall_seg (square_engine 0 pt0 s1 s2 s3 tu cs it) square_corner =
  Ok (square_engine 0 square_corner s1 s2 s3 tu cs it, 1%Z).
Proof.
  unfold wall_seg.
  change (set_pt (square_engine 0 pt0 s1 s2 s3 tu cs it) square_corner)
    with (square_engine 0 square_corner s1 s2 s3 tu cs it).
  change (Tree.intersects_ext
            (tree (square_engine 0 square_corner s1 s2 s3 tu cs it)))
    with (fun e tol => envelope_query square_edges e tol).
  cbv beta. unfold envelope_query, square_edges.
  scan. scan. scan. scan. norm_z.
  change (envelope_scan 4 [] _) with (@nil Z).
  rewrite (wall_seg_loop_last (square_engine 0 square_corner s1 s2 s3 tu cs it)).
  rewrite (wall_seg_loop_found _ _ 1 [] e1).
  - reflexivity.
  - discriminate.
  - reflexivity.
  - apply seg_at_pos_starts. plumb. lra.
Qed.

Lemma square_front_length : Vector.length square_v = 0.3.
Proof. apply length_of_square; [lra | plumb; lra]. Qed.

Lemma square_edge1_length : Vector.length (Seg.v e1) = 4.
Proof. apply length_of_square; [lra | plumb; lra]. Qed.

(** Seen from the corner along the front, the far end of the second
    edge lies to the left. *)
Lemma square_side s :
  fst (Seg.distance_pt (Seg.init s square_corner square_v)
                       (Seg.p e1 + Seg.v e1)%vec) = 4.
Proof.
  unfold Seg.distance_pt.
  change (Seg.v (Seg.init s square_corner square_v)) with square_v.
  rewrite square_front_length.
  replace (Num.eqb 0.3 0) with false by (symmetry; apply eqb_false; lra).
  plumb. lra.
Qed.

(** The normal of the second edge, turned to the front of the turtle and
    one spacing long. *)
Lemma square_normal lst pt0 s1 s2 s3 cs it :
  fst (normal (square_engine lst pt0 s1 s2 s3 square_turtle cs it) e1) = square_v.
Proof.
  unfold normal, Vector.normalized.
  change (Turtle.front_v (turtle (square_engine lst pt0 s1 s2 s3 square_turtle cs it)))
    with square_v.
  rewrite square_front_length, square_edge1_length.
  replace (Num.eqb 0.3 0) with false by (symmetry; apply eqb_false; lra).
  replace (Num.eqb 4 0) with false by (symmetry; apply eqb_false; lra).
  match goal with
  | |- context [Vector.length ?a] =>
      rewrite (length_of_square a 2) by (first [lra | plumb; lra])
  end.
  replace (Num.ltb 2 1) with false by (symmetry; apply ltb_false; lra).
  cbv beta iota zeta delta [fst]. vec.
Qed.

Lemma square_probe_origin lst pt0 s1 s2 s3 tu cs it :
  forward_probe_origin (square_engine lst pt0 s1 s2 s3 tu cs it) 1 e1 (-1) square_v
  = Vector.mk 1.85 (-2) 0.
Proof.
  unfold forward_probe_origin.
  change (1 <? n_boundarys (square_engine lst pt0 s1 s2 s3 tu cs it))%Z with true.
  vec.
Qed.

Lemma square_advance s :
  Seg.t_ (Turtle.front square_turtle)
         (Seg.init s (Vector.mk 1.85 (-2) 0) (Seg.v e1)) = 37 / 3.
Proof.
  rewrite t_cross by (plumb; lra). plumb. lra.
Qed.

(** [forward] up to its probes, on the square. *)
Lemma square_forward_wall pt0 s1 s2 s3 :
  exists s1',
    forward_wall (square_engine (-1) pt0 s1 s2 s3 square_turtle [square_p] 0) =
    Ok (Resolved (square_engine 0 square_corner s1' s2 s3 square_turtle [square_p] 1)
                 square_v square_corner (square_locals false)).
Proof.
  unfold forward_wall. state. norm_z.
  replace (Num.ltb 1 1) with false by (symmetry; apply ltb_false; lra).
  change (-1 <? 0)%Z with true. cbv iota.
  destruct (square_hit_right (-1) pt0 s1 s2 s3 square_turtle [square_p] 1)
    as [t0 Hr].
  rewrite Hr. state.
  rewrite square_getitem0. state.
  destruct square_farest as [t1 Hf]. rewrite Hf.
  rewrite (square_wall_seg pt0 s1 s2 s3 square_turtle [square_p] 1). state.
  rewrite square_getitem1. state.
  rewrite ltb_length by lra.
  match goal with
  | |- context [Num.ltb (Vector.dot ?a ?b) ?c] =>
      replace (Num.ltb (Vector.dot a b) c) with true
        by (symmetry; apply ltb_true; plumb; lra)
  end.
  change (Turtle.front_v square_turtle) with square_v.
  rewrite square_side.
  change (Turtle.up square_turtle) with 1.
  replace (Num.ltb 0 (4 * 1)) with true by (symmetry; apply ltb_true; lra).
  cbv beta iota.
  rewrite (square_normal 0 square_corner (Seg.init s1 square_corner square_v)
                         s2 s3 [square_p] 1).
  rewrite (square_probe_origin 0 square_corner (Seg.init s1 square_corner square_v)
                               s2 s3 square_turtle [square_p] 1).
  rewrite square_advance.
  replace (Num.eqb (37 / 3) 0) with false by (symmetry; apply eqb_false; lra).
  eexists. reflexivity.
Qed.

Lemma square_reach_left s s' :
  Seg.t_ (Seg.init s (square_p + Turtle.left_v square_turtle)%vec square_v)
         (Seg.init s' (Vector.mk 1.85 (-2) 0 + (-1 * 0.5) *: square_v)%vec (Seg.v e1))
  = 71 / 6.
Proof. rewrite t_cross by (plumb; lra). plumb. lra. Qed.

Lemma square_reach_left_pipe s s' :
  Seg.t_ (Seg.init s (square_p + 1.5 *: Turtle.left_v square_turtle)%vec square_v)
         (Seg.init s' (Vector.mk 1.85 (-2) 0 + (-1 * 1.5) *: square_v)%vec (Seg.v e1))
  = 65 / 6.
Proof. rewrite t_cross by (plumb; lra). plumb. lra. Qed.

(** The two left probes of the first step meet nothing. *)
Lemma square_miss_left lst pt0 s1 s2 s3 tu cs it s :
  intersect (square_engine lst pt0 s1 s2 s3 tu cs it)
            (Seg.init s (square_p + Turtle.left_v square_turtle)%vec
                      ((71 / 6) *: square_v))
  = Ok (false, 1e32, (-1)%Z).
Proof.
  unfold intersect.
  change (Tree.intersects_ext (tree (square_engine lst pt0 s1 s2 s3 tu cs it)))
    with (fun e tol => envelope_query square_edges e tol).
  cbv beta. unfold envelope_query, square_edges.
  scan. scan. scan. scan. reflexivity.
Qed.

Lemma square_miss_left_pipe lst pt0 s1 s2 s3 tu cs it s :
  intersect (square_engine lst pt0 s1 s2 s3 tu cs it)
            (Seg.init s (square_p + 1.5 *: Turtle.left_v square_turtle)%vec
                      ((65 / 6) *: square_v))
  = Ok (false, 1e32, (-1)%Z).
Proof.
  unfold intersect.
  change (Tree.intersects_ext (tree (square_engine lst pt0 s1 s2 s3 tu cs it)))
    with (fun e tol => envelope_query square_edges e tol).
  cbv beta. unfold envelope_query, square_edges.
  scan. scan. scan. scan. reflexivity.
Qed.

Lemma square_left_obstacle pt0 s1 s2 s3 :
  exists s1' s2',
    forward_left_obstacle
      (square_engine 0 pt0 s1 s2 s3 square_turtle [square_p] 1)
      square_v (square_locals false) =
    Ok (square_engine 0 pt0 s1' s2' s3 square_turtle [square_p] 1,
        square_locals false).
Proof.
  unfold forward_left_obstacle, square_locals, seek_length, obstacle. state.
  rewrite square_reach_left.
  replace (Num.ltb (71 / 6) 0) with false by (symmetry; apply ltb_false; lra).
  rewrite square_miss_left. state.
  do 2 eexists. reflexivity.
Qed.

Lemma square_left_pipe pt0 s1 s2 s3 :
  exists s1' s2',
    forward_left_pipe
      (square_engine 0 pt0 s1 s2 s3 square_turtle [square_p] 1)
      square_v (square_locals false) =
    Ok (square_engine 0 pt0 s1' s2' s3 square_turtle [square_p] 1,
        square_locals false).
Proof.
  unfold forward_left_pipe, square_locals, seek_length, obstacle. state.
  rewrite square_reach_left_pipe.
  replace (Num.ltb (65 / 6) 0) with false by (symmetry; apply ltb_false; lra).
  rewrite square_miss_left_pipe. state.
  do 2 eexists. reflexivity.
Qed.

Lemma square_reset_p pf :
  n_boundarys pf = 4%Z ->
  forward_reset_p pf square_corner (square_locals false) = square_locals false.
Proof.
  intros Hn. unfold forward_reset_p, square_locals. cbn [l_next l_n l_dir l_side l_t l_seg l_hit].
  rewrite Hn. change (1 <? 4)%Z with true. cbv iota.
  f_equal. vec.
Qed.

(** The front probe of the first step meets the second edge. *)
Lemma square_hit_front lst pt0 s1 s2 s3 tu cs it s :
  exists t0,
    intersect (square_engine lst pt0 s1 s2 s3 tu cs it)
              (Seg.init s square_p ((37 / 3 + 2.5) *: square_v))
    = Ok (true, t0, 1%Z).
Proof.
  unfold intersect.
  change (Tree.ngeoms (tree (square_engine lst pt0 s1 s2 s3 tu cs it)) - 1)%Z
    with 3%Z.
  change (segs (square_engine lst pt0 s1 s2 s3 tu cs it)) with square_edges.
  change (Tree.intersects_ext (tree (square_engine lst pt0 s1 s2 s3 tu cs it)))
    with (fun e tol => envelope_query square_edges e tol).
  cbv beta. unfold envelope_query, square_edges at 2.
  scan. scan. scan. scan. norm_z.
  change (envelope_scan 4 [] _) with (@nil Z).
  eexists.
  rewrite (intersect_loop_closer square_edges _ 3 1 [] false 1e32 (-1) e1).
  - reflexivity.
  - lia.
  - reflexivity.
  - plumb. lra.
  - apply in_window_inside; plumb; lra.
  - plumb. lra.
Qed.

Lemma square_front pt0 s1 s2 s3 :
  exists s1',
    forward_front
      (square_engine 0 pt0 s1 s2 s3 square_turtle [square_p] 1)
      square_v (square_locals false) =
    Ok (square_engine 0 pt0 s1' s2 s3 square_turtle [square_p] 1,
        square_locals true).
Proof.
  unfold forward_front, square_locals. state.
  change (Turtle.p square_turtle) with square_p.
  destruct (square_hit_front 0 pt0 (Seg.init s1 square_p ((37 / 3 + 2.5) *: square_v))
              s2 s3 square_turtle [square_p] 1 s1) as [t0 Hf].
  rewrite Hf. state.
  change (negb (1 =? 1)%Z) with false. state.
  rewrite (square_probe_origin 0 pt0 (Seg.init s1 square_p ((37 / 3 + 2.5) *: square_v))
             s2 s3 square_turtle [square_p] 1).
  rewrite square_advance.
  eexists. reflexivity.
Qed.

(** The five checks of the first step on the square: only the front
    probe finds something, the second edge again. *)
Lemma square_checks pt0 s1 s2 s3 :
  exists s1' s2',
    forward_checks
      (square_engine 0 pt0 s1 s2 s3 square_turtle [square_p] 1)
      square_v square_corner (square_locals false) =
    Ok (square_engine 0 pt0 s1' s2' s3 square_turtle [square_p] 1,
        square_locals true).
Proof.
  unfold forward_checks.
  destruct (square_left_obstacle pt0 s1 s2 s3) as (a1 & a2 & Ha). rewrite Ha.
  cbv beta iota delta [bind].
  destruct (square_left_pipe pt0 a1 a2 s3) as (b1 & b2 & Hb). rewrite Hb.
  cbv beta iota delta [bind].
  rewrite square_reset_p by reflexivity.
  destruct (square_front pt0 b1 b2 s3) as (c1 & Hc). rewrite Hc.
  cbv beta iota delta [bind].
  exists c1, b2. reflexivity.
Qed.

(** The first step on the square draws a pass. *)
Lemma square_first_step pt0 s1 s2 s3 :
  exists pf',
    forward (square_engine (-1) pt0 s1 s2 s3 square_turtle [square_p] 0) =
    Ok (true, pf').
Proof.
  unfold forward.
  destruct (square_forward_wall pt0 s1 s2 s3) as (a1 & Ha). rewrite Ha.
  cbv beta iota delta [bind].
  destruct (square_checks square_corner a1 s2 s3) as (b1 & b2 & Hb). rewrite Hb.
  cbv beta iota delta [bind].
  unfold forward_finish, square_locals, draw. state.
  replace (Num.ltb (37 / 3) 0.5) with false by (symmetry; apply ltb_false; lra).
  change (getitem [square_p] (-1)) with (Ok square_p). state.
  eexists. reflexivity.
Qed.

(** ** Steps at the cap *)

(** A forward step that finds the counter at the cap only advances the
    counter. *)
Lemma forward_over_cap (pf : PathFinder.t) :
  max_iter pf < IZR (iter pf + 1) ->
  forward pf = Ok (false, set_iter pf (iter pf + 1)).
Proof.
  intros H. unfold forward, forward_wall.
  change (max_iter (set_iter pf (iter pf + 1))) with (max_iter pf).
  change (iter (set_iter pf (iter pf + 1))) with (iter pf + 1)%Z.
  apply ltb_true in H. rewrite H. reflexivity.
Qed.

Lemma next_forward (pf : PathFinder.t) (r : bool) (pf' : PathFinder.t) :
  is_forward pf = true -> forward pf = Ok (r, pf') ->
  next pf = Ok (next_tail r pf').
Proof. intros Hf H. unfold next. rewrite Hf, H. reflexivity. Qed.

(** ** The square with a cap of one *)

(** The engine of the scenario as the caller sets it up. *)
Lemma square_started :
  exists pf,
    init square_tree 0.3 true true = Ok pf /\
    set_max_iter (start pf square_p square_v) 1 =
    square_engine (-1) (Vector.mk 0 0 0)
                  (Seg.new (Vector.mk 0 0 0) (Vector.mk 1 0 0))
                  (Seg.new (Vector.mk 0 0 0) (Vector.mk 1 0 0))
                  (Seg.new (Vector.mk 0 0 0) (Vector.mk 1 0 0))
                  square_turtle [square_p] 0.
Proof.
  unfold init.
  replace (Num.eqb (0.3 * 0.3) 0) with false by (symmetry; apply eqb_false; lra).
  eexists. split; [reflexivity |].
  unfold start, square_engine.
  cbv beta iota zeta delta
    [set_max_iter set_coords set_turtle tree spacing n_boundarys last pt seg
     left right turtle coords run allow_backward is_forward iter max_iter app].
  change (Tree.ngeoms square_tree) with 4%Z.
  f_equal.
  unfold Turtle.relocate, Turtle.rotate, Turtle.move, Turtle.new, square_turtle.
  cbv beta iota zeta delta
    [Turtle.p Turtle.cw Turtle.front_v Turtle.front2_v Turtle.front3_v
     Turtle.left_v Turtle.left2_v Turtle.right_v Turtle.zAxis Turtle.up
     Turtle.side_up].
  f_equal; vec.
Qed.

(** A run with a cap of one whose first step draws a pass: the first
    call of [next] answers [True], the second finds the counter above the
    cap and answers [False]. *)
Lemma cap_one_run (pf pf1 : PathFinder.t) :
  is_forward pf = true -> run pf = true -> iter pf = 0%Z -> max_iter pf = 1 ->
  length (coords pf) = 1%nat ->
  forward pf = Ok (true, pf1) ->
  exists pf2,
    next pf = Ok (true, pf1) /\ next pf1 = Ok (false, pf2) /\
    drive 2 pf = Some (Ok pf2) /\
    length (coords pf2) = 2%nat /\ iter pf2 = 2%Z /\ max_iter pf2 = 1 /\
    run pf2 = true /\ is_forward pf2 = false.
Proof.
  intros Hfw Hrun Hit Hcap Hlen H1.
  pose proof (forward_step _ _ _ H1) as (Hi & (_ & _ & _ & Hmax) & Hr & Hf & Hd & _).
  rewrite Hit in Hi. rewrite Hcap in Hmax. rewrite Hrun in Hr. rewrite Hfw in Hf.
  assert (Hc : length (coords pf1) = 2%nat).
  { destruct Hd as [[Hd _] | (p0 & p1 & _ & Hd & _)]; [discriminate |].
    rewrite Hd, length_app, Hlen. reflexivity. }
  assert (Hn1 : next pf = Ok (true, pf1)).
  { rewrite (next_forward pf true pf1 Hfw H1). unfold next_tail.
    rewrite Hmax, Hi.
    replace (Num.ltb 1 (IZR (0 + 1))) with false
      by (symmetry; apply ltb_false; simpl; lra).
    rewrite Hr. reflexivity. }
  assert (H2 : forward pf1 = Ok (false, set_iter pf1 (iter pf1 + 1)))
    by (apply forward_over_cap; rewrite Hmax, Hi; simpl; lra).
  assert (Hn2 : next pf1 =
                Ok (false, set_is_forward (set_iter pf1 (iter pf1 + 1)) false)).
  { rewrite (next_forward _ _ _ Hf H2). unfold next_tail.
    change (is_forward (set_iter pf1 (iter pf1 + 1))) with (is_forward pf1).
    rewrite Hf.
    change (max_iter (set_is_forward (set_iter pf1 (iter pf1 + 1)) (negb true)))
      with (max_iter pf1).
    change (iter (set_is_forward (set_iter pf1 (iter pf1 + 1)) (negb true)))
      with (iter pf1 + 1)%Z.
    rewrite Hmax, Hi.
    replace (Num.ltb 1 (IZR (0 + 1 + 1))) with true
      by (symmetry; apply ltb_true; simpl; lra).
    reflexivity. }
  exists (set_is_forward (set_iter pf1 (iter pf1 + 1)) false).
  split; [exact Hn1 |]. split; [exact Hn2 |].
  split; [cbn [drive]; rewrite Hn1, Hn2; reflexivity |].
  split; [exact Hc |]. split; [cbn; lia |]. split; [exact Hmax |].
  split; [exact Hr | reflexivity].
Qed.

(** The two calls of [next] that the loop makes on the square. *)
Lemma square_two_calls pt0 s1 s2 s3 :
  exists pf1 pf2,
    next (square_engine (-1) pt0 s1 s2 s3 square_turtle [square_p] 0) = Ok (true, pf1) /\
    next pf1 = Ok (false, pf2) /\
    drive 2 (square_engine (-1) pt0 s1 s2 s3 square_turtle [square_p] 0) = Some (Ok pf2) /\
    length (coords pf2) = 2%nat /\ iter pf2 = 2%Z /\ max_iter pf2 = 1 /\
    run pf2 = true /\
    reachable (square_engine (-1) pt0 s1 s2 s3 square_turtle [square_p] 0) pf2.
Proof.
  destruct (square_first_step pt0 s1 s2 s3) as (pf1 & H1).
  destruct (cap_one_run
              (square_engine (-1) pt0 s1 s2 s3 square_turtle [square_p] 0) pf1
              eq_refl eq_refl eq_refl eq_refl eq_refl H1)
    as (pf2 & Hn1 & Hn2 & Hd & Hc & Hi & Hmax & Hr & _).
  exists pf1, pf2. repeat (split; [assumption |]).
  eapply reach_next; [eapply reach_next; [apply reach_here | exact Hn1] | exact Hn2].
Qed.

(** C6: with a cap of one, a run whose first step draws a pass ends at
    its second call of [next], stopped by the cap: the counter is then
    above [max_iter] while the run flag is still set, and the polyline
    holds one point more than at the start.  On the 4 x 4 square with no
    obstacle the first step does draw a pass: the run ends that way, with
    two points, the start and one step. *)
Theorem square_cap_one :
  (forall pf pf1,
     is_forward pf = true -> run pf = true -> iter pf = 0%Z ->
     max_iter pf = 1 -> length (coords pf) = 1%nat ->
     forward pf = Ok (true, pf1) ->
     exists pf2,
       drive 2 pf = Some (Ok pf2) /\ length (coords pf2) = 2%nat /\
       iter pf2 = 2%Z /\ max_iter pf2 < IZR (iter pf2) /\ run pf2 = true) /\
  exists pf,
    route 2 square_tree 0.3 true true square_p square_v 1 = Some (Ok pf) /\
    length (coords pf) = 2%nat /\
    iter pf = 2%Z /\ max_iter pf = 1 /\ max_iter pf < IZR (iter pf) /\
    run pf = true.
Proof.
  split.
  - intros pf pf1 Hfw Hrun Hit Hcap Hlen H1.
    destruct (cap_one_run pf pf1 Hfw Hrun Hit Hcap Hlen H1)
      as (pf2 & _ & _ & Hd & Hc & Hi & Hmax & Hr & _).
    exists pf2. repeat (split; [assumption |]).
    split; [| exact Hr]. rewrite Hmax, Hi. lra.
  - destruct square_started as (pf0 & Hinit & Hstart).
    destruct (square_two_calls (Vector.mk 0 0 0)
                (Seg.new (Vector.mk 0 0 0) (Vector.mk 1 0 0))
                (Seg.new (Vector.mk 0 0 0) (Vector.mk 1 0 0))
                (Seg.new (Vector.mk 0 0 0) (Vector.mk 1 0 0)))
      as (pf1 & pf2 & _ & _ & Hd & Hc & Hi & Hmax & Hr & _).
    exists pf2. unfold route. rewrite Hinit, Hstart.
    split; [exact Hd |]. split; [exact Hc |]. split; [exact Hi |].
    split; [exact Hmax |]. split; [| exact Hr].
    rewrite Hmax, Hi. lra.
Qed.

Lemma square_getitem_last : getitem square_edges (-1) = Ok e3.
Proof. reflexivity. Qed.

Lemma square_edge3_length : Vector.length (Seg.v e3) = 4.
Proof. apply length_of_square; [lra | plumb; lra]. Qed.

(** ** The properties on the square *)

(** On the square: the right probe of the start is answered with the
    first edge, index 0, and not with the edge inserted last, index 3. *)
Example intersect_skips_last_witness :
  exists t0,
    intersect (square_engine (-1) square_corner e0 e0 e0 square_turtle [square_p] 0)
              (Turtle.right square_turtle) = Ok (true, t0, 0%Z) /\
    0%Z <>
    (Tree.ngeoms
       (tree (square_engine (-1) square_corner e0 e0 e0 square_turtle [square_p] 0))
     - 1)%Z.
Proof.
  destruct (square_hit_right (-1) square_corner e0 e0 e0 square_turtle [square_p] 0)
    as [t0 H].
  exists t0. split; [exact H |].
  exact (proj1 (proj1 (intersect_skips_last _ _ _ _ _ H) eq_refl)).
Defined.

(** On the square: after the two calls of [next] of the capped run the
    tree holds at least the four edges it started with. *)
Example index_grows_monotonically_witness :
  exists pf',
    reachable (square_engine (-1) square_corner e0 e0 e0 square_turtle [square_p] 0) pf' /\
    (Tree.ngeoms
       (tree (square_engine (-1) square_corner e0 e0 e0 square_turtle [square_p] 0))
     <= Tree.ngeoms (tree pf'))%Z.
Proof.
  destruct (square_two_calls square_corner e0 e0 e0)
    as (pf1 & pf2 & _ & _ & _ & _ & _ & _ & _ & Hreach).
  exists pf2. split; [exact Hreach |].
  destruct (index_grows_monotonically _ _ Hreach) as [_ (added & _ & Hle & _)].
  exact Hle.
Defined.

(** * Further properties of the code *)

(** ** Segments *)

Lemma t_is_u (a b : Seg.t) :
  Seg.t_ a b = snd (fst (Seg.intersect_ext a b)).
Proof.
  unfold Seg.t_, Seg.intersect_ext.
  destruct (Num.eqb (Vector.dot (Seg.v a) (Seg.perp (Seg.v b))) 0); reflexivity.
Qed.

(** X1: [Seg.t(other)] is the parameter [u] that [intersect_ext]
    answers; it is 0 for parallel directions, and otherwise the point
    [p + t * v] it designates lies on the line that carries [other]. *)
Theorem t_lands_on_line (a b : Seg.t) :
  Seg.t_ a b = snd (fst (Seg.intersect_ext a b)) /\
  (Seg.det a b = 0 -> Seg.t_ a b = 0) /\
  (Seg.det a b <> 0 ->
   Seg.line_distance b (Seg.p a + Seg.t_ a b *: Seg.v a)%vec = 0).
Proof.
  split; [apply t_is_u |]. split.
  - intros H. unfold Seg.t_. rewrite dot_perp_det.
    replace (Num.eqb (Seg.det a b) 0) with true
      by (symmetry; apply eqb_true; exact H).
    reflexivity.
  - intros H. rewrite t_cross by exact H.
    unfold Seg.line_distance.
    match goal with
    | |- Rabs ?e / _ = 0 => replace e with 0; [rewrite Rabs_R0; unfold Rdiv; ring |]
    end.
    unfold Seg.det in *. destruct a as [[ax ay az] [ux uy uz] ia].
    destruct b as [[bx by_ bz] [wx wy wz] ib].
    cbv [Seg.p Seg.v Seg.perp Vector.dot Vector.add Vector.sub Vector.scale
         Vector.x Vector.y Vector.z] in *.
    field. exact H.
Qed.

(** X2: [intersect_ext] does not depend on which segment asks: with
    the two segments exchanged the answer is the same hit, with the two
    parameters exchanged and the same point of the plane. *)
Theorem intersect_ext_swap (a b : Seg.t) :
  let '(hit, pt, u, v) := Seg.intersect_ext a b in
  let '(hit', pt', u', v') := Seg.intersect_ext b a in
  hit' = hit /\ u' = v /\ v' = u /\ (hit = true -> Vector.xy_eq pt' pt).
Proof.
  destruct (Req_dec_T (Seg.det a b) 0) as [H | H].
  - assert (H' : Seg.det b a = 0) by (unfold Seg.det in *; lra).
    rewrite (intersect_ext_parallel a b H), (intersect_ext_parallel b a H').
    repeat split; discriminate.
  - assert (H' : Seg.det b a <> 0) by (unfold Seg.det in *; lra).
    rewrite (intersect_ext_cross a b H), (intersect_ext_cross b a H').
    unfold Seg.det in *. destruct a as [[ax ay az] [ux uy uz] ia].
    destruct b as [[bx by_ bz] [wx wy wz] ib].
    cbv [Seg.p Seg.v Seg.perp Vector.dot Vector.add Vector.sub Vector.scale
         Vector.x Vector.y Vector.z Vector.xy_eq] in *.
    repeat split; intros; field; lra.
Qed.

Lemma dot_self_pos (a : Vector.t) : a <> Vector.zero -> 0 < Vector.dot a a.
Proof.
  intros H. destruct (Rle_lt_or_eq_dec _ _ (dot_self_nonneg a)) as [Hlt | Heq];
    [exact Hlt |].
  exfalso. apply H. apply length_zero_iff. unfold Vector.length.
  rewrite <- Heq. apply sqrt_0.
Qed.

Lemma point_on_seg_degenerate (s : Seg.t) (pt : Vector.t) :
  Seg.v s = Vector.zero -> Seg.point_on_seg s pt = 0.
Proof.
  intros H. unfold Seg.point_on_seg.
  replace (Num.eqb (Vector.length (Seg.v s)) 0) with true; [reflexivity |].
  symmetry. apply eqb_true. apply length_zero_iff. exact H.
Qed.

(** X3: [point_on_seg] is the parameter of the orthogonal projection
    on the line of the segment: what is left of [pt] beyond
    [p + t * v] is perpendicular to [v], and a point [p + k * v] of the
    line gets the parameter [k] back (0 at the origin, 1 at the end). *)
Theorem point_on_seg_projects (s : Seg.t) (pt : Vector.t) (k : R) :
  Seg.v s <> Vector.zero ->
  Vector.dot (pt - (Seg.p s + Seg.point_on_seg s pt *: Seg.v s))%vec (Seg.v s) = 0 /\
  Seg.point_on_seg s (Seg.p s + k *: Seg.v s)%vec = k /\
  Seg.point_on_seg s (Seg.p s) = 0 /\
  Seg.point_on_seg s (Seg.p s + Seg.v s)%vec = 1.
Proof.
  intros H. apply dot_self_pos in H.
  assert (Hn : Vector.dot (Seg.v s) (Seg.v s) <> 0) by lra.
  rewrite !point_on_seg_value by exact Hn.
  destruct s as [[ax ay az] [ux uy uz] ia]. destruct pt as [qx qy qz].
  cbv [Seg.p Seg.v Vector.dot Vector.add Vector.sub Vector.scale
       Vector.x Vector.y Vector.z] in *.
  repeat split; field; exact Hn.
Qed.

(** On a segment of direction (4, 1, 0): the point half way along it gets
    the parameter 0.5. *)
Example point_on_seg_projects_witness :
  Seg.v above_seg <> Vector.zero /\
  Seg.point_on_seg above_seg (Seg.p above_seg + 0.5 *: Seg.v above_seg)%vec = 0.5.
Proof.
  assert (H : Seg.v above_seg <> Vector.zero).
  { intros E. apply (f_equal Vector.x) in E.
    cbv [above_seg Seg.new Seg.v Vector.x Vector.zero] in E. lra. }
  split; [exact H |].
  exact (proj1 (proj2 (point_on_seg_projects above_seg Vector.zero 0.5 H))).
Defined.

(** X4: [distance_pt] answers the coordinates of [pt] in the frame of
    the segment: its second component is [point_on_seg], and for a
    planar direction the signed distance and the parameter, taken in
    lengths, satisfy Pythagoras' equation with the planar distance from
    the origin of the segment to [pt]. *)
Theorem distance_pt_decomposes (s : Seg.t) (pt : Vector.t) :
  Seg.v s <> Vector.zero -> Vector.flat (Seg.v s) ->
  let '(d, t0) := Seg.distance_pt s pt in
  let dp := (pt - Seg.p s)%vec in
  let l := Vector.length (Seg.v s) in
  t0 = Seg.point_on_seg s pt /\
  d * d + (t0 * l) * (t0 * l) =
  Vector.x dp * Vector.x dp + Vector.y dp * Vector.y dp.
Proof.
  intros H Hz. pose proof (dot_self_pos _ H) as Hp.
  assert (Hl : Vector.length (Seg.v s) <> 0).
  { intros E. apply length_zero_iff in E. contradiction. }
  unfold Seg.distance_pt, Seg.point_on_seg.
  replace (Num.eqb (Vector.length (Seg.v s)) 0) with false
    by (symmetry; apply eqb_false; exact Hl).
  cbv zeta. split; [reflexivity |].
  pose proof (length_sqr (Seg.v s)) as Hs.
  set (l := Vector.length (Seg.v s)) in *.
  destruct s as [[ax ay az] [ux uy uz] ia]. destruct pt as [qx qy qz].
  cbv [Seg.p Seg.v Vector.dot Vector.add Vector.sub Vector.scale Vector.flat
       Vector.x Vector.y Vector.z] in *.
  subst uz.
  assert (Hq : ux * ux + uy * uy = l * l) by lra.
  transitivity
    (((ux * (qy - ay) - uy * (qx - ax)) * (ux * (qy - ay) - uy * (qx - ax))
      + (ux * (qx - ax) + uy * (qy - ay)) * (ux * (qx - ax) + uy * (qy - ay)))
     / (l * l)).
  - field. exact Hl.
  - rewrite <- Hq. field. lra.
Qed.

(** On the unit segment of the x axis and the point (3, 4, 0): the two
    coordinates satisfy 3 * 3 + 4 * 4. *)
Example distance_pt_decomposes_witness :
  let '(d, t0) := Seg.distance_pt axis_seg (Vector.mk 3 4 0) in
  t0 = Seg.point_on_seg axis_seg (Vector.mk 3 4 0) /\
  d * d + (t0 * Vector.length (Seg.v axis_seg)) * (t0 * Vector.length (Seg.v axis_seg))
  = 3 * 3 + 4 * 4.
Proof.
  assert (H : Seg.v axis_seg <> Vector.zero).
  { intros E. apply (f_equal Vector.x) in E.
    cbv [axis_seg Seg.new Seg.v Vector.x Vector.zero] in E. lra. }
  assert (Hz : Vector.flat (Seg.v axis_seg)) by reflexivity.
  pose proof (distance_pt_decomposes axis_seg (Vector.mk 3 4 0) H Hz) as P.
  destruct (Seg.distance_pt axis_seg (Vector.mk 3 4 0)) as [d t0].
  cbv zeta in P. destruct P as [P1 P2]. split; [exact P1 |].
  rewrite P2.
  cbv [axis_seg Seg.new Seg.p Vector.sub Vector.x Vector.y]. lra.
Defined.

(** X5: [farest_point] and [nearest_point] answer the two ends of the
    other segment as seen along this one: the end with the greater
    parameter of [point_on_seg] and the end with the smaller one, each
    with its parameter; when the parameters are equal both answer the
    origin of the other segment. *)
Theorem farest_nearest_bracket (s other : Seg.t) :
  let p0 := Seg.p other in
  let p1 := (Seg.p other + Seg.v other)%vec in
  let '(tf, pf) := Seg.farest_point s other in
  let '(tn, pn) := Seg.nearest_point s other in
  tf = Rmax (Seg.point_on_seg s p0) (Seg.point_on_seg s p1) /\
  tn = Rmin (Seg.point_on_seg s p0) (Seg.point_on_seg s p1) /\
  tf = Seg.point_on_seg s pf /\ tn = Seg.point_on_seg s pn /\
  (pf = p0 \/ pf = p1) /\ (pn = p0 \/ pn = p1) /\
  tn <= tf /\
  (tn = tf -> pf = p0 /\ pn = p0).
Proof.
  cbv zeta. unfold Seg.farest_point, Seg.nearest_point.
  set (t0 := Seg.point_on_seg s (Seg.p other)).
  set (t1 := Seg.point_on_seg s (Seg.p other + Seg.v other)%vec).
  unfold Num.ltb. destruct (Rlt_dec t0 t1); destruct (Rlt_dec t1 t0);
    unfold Rmax, Rmin; destruct (Rle_dec t0 t1);
    (split; [lra |]); (split; [lra |]); (split; [reflexivity |]);
    (split; [reflexivity |]); (split; [auto |]); (split; [auto |]);
    (split; [lra |]); intros Heq; first [split; reflexivity | exfalso; lra].
Qed.

(** ** The frame *)

Lemma rotate_aligned (tu : Turtle.t) (v : Vector.t) : aligned (Turtle.rotate tu v).
Proof. repeat split. Qed.

Lemma side_up_sqr (c : bool) : Turtle.side_up c * Turtle.side_up c = 1.
Proof. destruct c; unfold Turtle.side_up; lra. Qed.

Lemma side_up_negb (c : bool) : Turtle.side_up (negb c) = - Turtle.side_up c.
Proof. destruct c; unfold Turtle.side_up; simpl; lra. Qed.

(** X6: every operation of [Turtle] leaves the probes aligned with the
    heading ([front2] and [front3] twice and three times [front],
    [right] the cross product of [front] and the z axis of the side,
    [left] its opposite, [left2] twice [left]); in an aligned frame the
    side probes are perpendicular to the heading and, for a planar
    heading, as long as it. *)
Theorem turtle_keeps_aligned :
  (forall p v c, aligned (Turtle.new p v c)) /\
  (forall tu v, aligned (Turtle.rotate tu v)) /\
  (forall tu p v, aligned (Turtle.relocate tu p v)) /\
  (forall tu,
     aligned (Turtle.turn_right tu) /\ aligned (Turtle.turn_left tu) /\
     aligned (Turtle.reverse tu)) /\
  (forall tu k, aligned (Turtle.scale tu k)) /\
  (forall tu v,
     aligned tu ->
     aligned (Turtle.move tu v) /\ aligned (Turtle.step_forward tu) /\
     aligned (Turtle.step_backward tu)) /\
  (forall tu,
     aligned tu ->
     Vector.dot (Turtle.right_v tu) (Turtle.front_v tu) = 0 /\
     Vector.dot (Turtle.left_v tu) (Turtle.front_v tu) = 0 /\
     Turtle.left_v tu = (- Turtle.right_v tu)%vec /\
     Turtle.left2_v tu = 2 *: Turtle.left_v tu /\
     (Vector.flat (Turtle.front_v tu) ->
      Vector.length (Turtle.right_v tu) = Vector.length (Turtle.front_v tu) /\
      Vector.length (Turtle.left_v tu) = Vector.length (Turtle.front_v tu))).
Proof.
  split; [intros; repeat split |].
  split; [intros; apply rotate_aligned |].
  split; [intros; apply rotate_aligned |].
  split; [intros; repeat split; apply rotate_aligned |].
  split; [intros; apply rotate_aligned |].
  split; [intros tu v H; repeat split; apply H |].
  intros tu (H2 & H3 & Hl & Hl2 & Hr).
  pose proof (side_up_sqr (Turtle.cw tu)) as Hu.
  unfold Turtle.zAxis, Turtle.up in *.
  set (u := Turtle.side_up (Turtle.cw tu)) in *.
  rewrite Hl2, Hl, Hr.
  destruct (Turtle.front_v tu) as [vx vy vz].
  cbv [Vector.dot Vector.cross Vector.neg Vector.scale Vector.flat
       Vector.x Vector.y Vector.z].
  split; [ring |]. split; [ring |]. split; [reflexivity |].
  split; [reflexivity |].
  intros ->. unfold Vector.length. split; f_equal;
    cbv [Vector.dot Vector.x Vector.y Vector.z]; nra.
Qed.

Lemma square_turtle_aligned : aligned square_turtle.
Proof. repeat split; vec. Qed.

(** X7: in an aligned frame with a planar heading a left turn undoes a
    right turn and a right turn a left one; two turns to the same side
    reverse the heading, whichever side, and four bring the frame
    back; a turn leaves the position where it is. *)
Theorem turns_compose (tu : Turtle.t) :
  aligned tu -> Vector.flat (Turtle.front_v tu) ->
  Turtle.turn_left (Turtle.turn_right tu) = tu /\
  Turtle.turn_right (Turtle.turn_left tu) = tu /\
  Turtle.front_v (Turtle.turn_right (Turtle.turn_right tu))
  = (- Turtle.front_v tu)%vec /\
  Turtle.turn_right (Turtle.turn_right tu)
  = Turtle.turn_left (Turtle.turn_left tu) /\
  Turtle.turn_right (Turtle.turn_right
    (Turtle.turn_right (Turtle.turn_right tu))) = tu /\
  Turtle.p (Turtle.turn_right tu) = Turtle.p tu /\
  Turtle.p (Turtle.turn_left tu) = Turtle.p tu.
Proof.
  intros (H2 & H3 & Hl & Hl2 & Hr) Hz.
  pose proof (side_up_sqr (Turtle.cw tu)) as Hu.
  destruct tu as [p c [vx vy vz] f2 f3 l l2 r].
  cbv [Turtle.front_v Turtle.front2_v Turtle.front3_v Turtle.left_v
       Turtle.left2_v Turtle.right_v Turtle.zAxis Turtle.up Turtle.cw
       Vector.flat Vector.z] in *.
  subst vz f2 f3 l l2 r.
  set (u := Turtle.side_up c) in *.
  assert (Hq : forall a b : Vector.t,
            a = b ->
            Turtle.mk p c a (2 *: a) (3 *: a)
              (- Vector.cross a (Vector.mk 0 0 u))%vec
              (2 *: (- Vector.cross a (Vector.mk 0 0 u))%vec)
              (Vector.cross a (Vector.mk 0 0 u))
            = Turtle.mk p c b (2 *: b) (3 *: b)
              (- Vector.cross b (Vector.mk 0 0 u))%vec
              (2 *: (- Vector.cross b (Vector.mk 0 0 u))%vec)
              (Vector.cross b (Vector.mk 0 0 u)))
    by (intros a b ->; reflexivity).
  assert (Hv : forall a b : Vector.t,
            Vector.x a = Vector.x b -> Vector.y a = Vector.y b ->
            Vector.z a = Vector.z b -> a = b) by apply vector_eq.
  assert (Hu3 : u * u * u = u) by (rewrite Hu; ring).
  assert (Hu4 : u * u * u * u = 1) by (rewrite Hu3; exact Hu).
  repeat split;
    cbv [Turtle.turn_left Turtle.turn_right Turtle.rotate Turtle.p Turtle.cw
         Turtle.front_v Turtle.left_v Turtle.right_v Turtle.zAxis Turtle.up];
    fold u; try reflexivity; try apply Hq; apply Hv;
    cbv [Vector.cross Vector.neg Vector.scale Vector.x Vector.y Vector.z];
    clear Hu Hu3 Hu4 Hq Hv; subst u; destruct c; cbv [Turtle.side_up]; lra.
Qed.

(** On the turtle of the square: a right turn followed by a left turn
    gives the turtle back. *)
Example turns_compose_witness :
  (aligned square_turtle /\ Vector.flat (Turtle.front_v square_turtle)) /\
  Turtle.turn_left (Turtle.turn_right square_turtle) = square_turtle.
Proof.
  assert (Ha : aligned square_turtle) by exact square_turtle_aligned.
  assert (Hz : Vector.flat (Turtle.front_v square_turtle)) by reflexivity.
  split; [split; assumption |].
  exact (proj1 (turns_compose square_turtle Ha Hz)).
Defined.

(** X8: [reverse] changes the side of the frame and keeps its position
    and heading: the right probe becomes what the left probe would be
    and conversely, and reversing an aligned frame twice gives it
    back. *)
Theorem reverse_swaps_sides (tu : Turtle.t) :
  Turtle.p (Turtle.reverse tu) = Turtle.p tu /\
  Turtle.front_v (Turtle.reverse tu) = Turtle.front_v tu /\
  Turtle.cw (Turtle.reverse tu) = negb (Turtle.cw tu) /\
  Turtle.right_v (Turtle.reverse tu) = Turtle.left_v (Turtle.rotate tu (Turtle.front_v tu)) /\
  Turtle.left_v (Turtle.reverse tu) = Turtle.right_v (Turtle.rotate tu (Turtle.front_v tu)) /\
  (aligned tu ->
   Turtle.right_v (Turtle.reverse tu) = Turtle.left_v tu /\
   Turtle.left_v (Turtle.reverse tu) = Turtle.right_v tu /\
   Turtle.reverse (Turtle.reverse tu) = tu).
Proof.
  assert (Hs : forall v c,
            Vector.cross v (Vector.mk 0 0 (Turtle.side_up (negb c)))
            = (- Vector.cross v (Vector.mk 0 0 (Turtle.side_up c)))%vec).
  { intros [vx vy vz] c. apply vector_eq;
      cbv [Vector.cross Vector.neg Vector.x Vector.y Vector.z];
      rewrite ?side_up_negb; ring. }
  assert (Hn : forall v : Vector.t, (- - v)%vec = v).
  { intros [vx vy vz]. apply vector_eq;
      cbv [Vector.neg Vector.x Vector.y Vector.z]; ring. }
  assert (Hr : Turtle.right_v (Turtle.reverse tu)
               = Turtle.left_v (Turtle.rotate tu (Turtle.front_v tu))).
  { cbv [Turtle.reverse Turtle.rotate Turtle.right_v Turtle.left_v Turtle.zAxis
         Turtle.up Turtle.cw Turtle.front_v Turtle.p].
    apply Hs. }
  assert (Hl : Turtle.left_v (Turtle.reverse tu)
               = Turtle.right_v (Turtle.rotate tu (Turtle.front_v tu))).
  { cbv [Turtle.reverse Turtle.rotate Turtle.right_v Turtle.left_v Turtle.zAxis
         Turtle.up Turtle.cw Turtle.front_v Turtle.p].
    rewrite Hs. apply Hn. }
  split; [reflexivity |]. split; [reflexivity |]. split; [reflexivity |].
  split; [exact Hr |]. split; [exact Hl |].
  intros (H2 & H3 & Hl' & Hl2 & Hr').
  split; [rewrite Hr, Hl'; reflexivity |].
  split; [rewrite Hl, Hr'; reflexivity |].
  destruct tu as [p c v f2 f3 l l2 r].
  cbv [Turtle.front_v Turtle.front2_v Turtle.front3_v Turtle.left_v
       Turtle.left2_v Turtle.right_v Turtle.zAxis Turtle.up Turtle.cw] in *.
  subst f2 f3 l l2 r.
  cbv [Turtle.reverse Turtle.rotate Turtle.p Turtle.cw Turtle.front_v
       Turtle.front2_v Turtle.front3_v Turtle.left_v Turtle.left2_v
       Turtle.right_v Turtle.zAxis Turtle.up].
  rewrite Bool.negb_involutive. reflexivity.
Qed.

(** ** The normal of an edge *)

Lemma normalized_value (a : Vector.t) :
  a <> Vector.zero -> Vector.normalized a = (/ Vector.length a) *: a.
Proof.
  intros H. unfold Vector.normalized.
  replace (Num.eqb (Vector.length a) 0) with false; [reflexivity |].
  symmetry. apply eqb_false. intros E. apply length_zero_iff in E. contradiction.
Qed.

Lemma normalized_unit (a : Vector.t) :
  a <> Vector.zero ->
  Vector.dot (Vector.normalized a) (Vector.normalized a) = 1.
Proof.
  intros H. rewrite normalized_value by exact H.
  assert (Hl : Vector.length a <> 0).
  { intros E. apply length_zero_iff in E. contradiction. }
  pose proof (length_sqr a) as Hs.
  set (l := Vector.length a) in *.
  destruct a as [ax ay az].
  cbv [Vector.dot Vector.scale Vector.x Vector.y Vector.z] in *.
  transitivity ((ax * ax + ay * ay + az * az) / (l * l)).
  - field. exact Hl.
  - rewrite <- Hs. field. exact Hl.
Qed.

Lemma Rabs_sqr_eq (a : R) : Rabs a * Rabs a = a * a.
Proof. unfold Rabs. destruct (Rcase_abs a); ring. Qed.

(** X9: for an edge with a planar non-zero direction, [normal] answers
    a planar vector perpendicular to the edge whose length is the
    spacing in absolute value; and whenever the heading of the turtle
    is not the zero vector, the measure [d] it answers with it is at
    least 1.  Which of the two normals it answers is settled by one
    test: with [n] the unit direction of the edge crossed with the z
    axis of the turtle and [w] the unit heading, it keeps [n], with the
    measure [|n + w|], unless [|n + w| < 1]; only then it takes [-n],
    with the measure [|-n + w|]. *)
Theorem normal_is_offset (pf : PathFinder.t) (sg : Seg.t) :
  (Vector.flat (Seg.v sg) -> Seg.v sg <> Vector.zero ->
   Vector.dot (fst (normal pf sg)) (Seg.v sg) = 0 /\
   Vector.flat (fst (normal pf sg)) /\
   Vector.length (fst (normal pf sg)) = Rabs (spacing pf)) /\
  (Turtle.front_v (turtle pf) <> Vector.zero -> 1 <= snd (normal pf sg)) /\
  (let n := Vector.cross (Vector.normalized (Seg.v sg))
                         (Turtle.zAxis (turtle pf)) in
   let w := Vector.normalized (Turtle.front_v (turtle pf)) in
   (1 <= Vector.length (n + w)%vec ->
    normal pf sg = (spacing pf *: n, Vector.length (n + w)%vec)) /\
   (Vector.length (n + w)%vec < 1 ->
    normal pf sg = (spacing pf *: (- n)%vec, Vector.length (- n + w)%vec))).
Proof.
  split; [| split].
  - intros Hz Hv.
    assert (Hl : Vector.length (Seg.v sg) <> 0).
    { intros E. apply length_zero_iff in E. contradiction. }
    pose proof (length_sqr (Seg.v sg)) as Hs.
    pose proof (side_up_sqr (Turtle.cw (turtle pf))) as Hu.
    unfold normal. rewrite (normalized_value _ Hv).
    unfold Turtle.zAxis, Turtle.up.
    set (u := Turtle.side_up (Turtle.cw (turtle pf))) in *.
    set (l := Vector.length (Seg.v sg)) in *.
    set (sp := spacing pf).
    set (w := Vector.normalized (Turtle.front_v (turtle pf))).
    destruct (Seg.v sg) as [vx vy vz].
    cbv [Vector.flat Vector.z] in Hz. subst vz.
    cbv [Vector.dot Vector.x Vector.y Vector.z] in Hs.
    assert (Hq : vx * vx + vy * vy = l * l) by lra.
    assert (Hi : (/ l) * (/ l) * (vx * vx + vy * vy) = 1)
      by (rewrite Hq; field; exact Hl).
    destruct (Num.ltb _ 1); cbv [fst];
      (split; [| split]);
      try (apply length_of_square; [apply Rabs_pos | rewrite Rabs_sqr_eq]);
      cbv [Vector.dot Vector.cross Vector.neg Vector.scale Vector.flat
           Vector.x Vector.y Vector.z]; try ring;
      (transitivity (sp * sp * (u * u) * (/ l * / l * (vx * vx + vy * vy)));
       [ring | rewrite Hu, Hi; ring]).
  - intros Hf. pose proof (normalized_unit _ Hf) as Hw.
    unfold normal.
    set (n := Vector.cross (Vector.normalized (Seg.v sg)) (Turtle.zAxis (turtle pf))).
    set (w := Vector.normalized (Turtle.front_v (turtle pf))) in *.
    destruct (Num.ltb (Vector.length (n + w)%vec) 1) eqn:E; cbv [snd].
    + apply ltb_true in E.
      pose proof (length_nonneg (n + w)%vec) as H0.
      pose proof (length_sqr (n + w)%vec) as H1.
      pose proof (length_nonneg (- n + w)%vec) as H2.
      pose proof (length_sqr (- n + w)%vec) as H3.
      pose proof (dot_self_nonneg n) as H4.
      assert (H5 : Vector.dot (n + w)%vec (n + w)%vec
                   + Vector.dot (- n + w)%vec (- n + w)%vec
                   = 2 * Vector.dot n n + 2 * Vector.dot w w).
      { destruct n, w.
        cbv [Vector.dot Vector.add Vector.neg Vector.x Vector.y Vector.z]. ring. }
      nra.
    + apply ltb_false in E. lra.
  - cbv zeta. unfold normal. split; intros H.
    + replace (Num.ltb _ 1) with false by (symmetry; apply ltb_false; lra).
      reflexivity.
    + replace (Num.ltb _ 1) with true by (symmetry; apply ltb_true; exact H).
      reflexivity.
Qed.

(** ** The searches *)

Lemma accepted_window (sg s : Seg.t) :
  accepted sg s = true -> 0 < Seg.t_ sg s <= 1.0001.
Proof.
  unfold accepted. rewrite t_is_u.
  destruct (Seg.intersect_ext sg s) as [[[it pt] u] v]. cbn [fst snd].
  unfold in_window. intros H.
  apply andb_prop in H. destruct H as [_ H].
  apply andb_prop in H. destruct H as [H _].
  apply andb_prop in H. destruct H as [H _].
  apply andb_prop in H. destruct H as [H1 H2].
  apply leb_true in H1. apply ltb_true in H2. lra.
Qed.

Lemma candidate_snoc sgs skip done i j s :
  candidate sgs skip (done ++ [i]) j s ->
  candidate sgs skip done j s \/ (j = i /\ i <> skip /\ getitem sgs i = Ok s).
Proof.
  intros (Hin & Hs & Hg). apply in_app_or in Hin. destruct Hin as [Hin | [<- | []]].
  - left. repeat split; assumption.
  - right. repeat split; assumption.
Qed.

Lemma candidate_more sgs skip done i j s :
  candidate sgs skip done j s -> candidate sgs skip (done ++ [i]) j s.
Proof.
  intros (Hin & Hs & Hg). repeat split; try assumption.
  apply in_or_app. left. exact Hin.
Qed.

(** What [intersect_loop] has established once the indices [done] are
    behind it. *)
Lemma intersect_loop_nearest sgs sg skip :
  forall found done acc res,
    (let '(hit, t0, idx) := acc in
     (hit = true ->
      exists s, candidate sgs skip done idx s /\ accepted sg s = true /\
                Seg.t_ sg s = t0) /\
     (hit = false -> t0 = 1e32 /\ idx = (-1)%Z) /\
     (forall j s, candidate sgs skip done j s -> accepted sg s = true ->
                  hit = true /\ t0 <= Seg.t_ sg s)) ->
    intersect_loop sgs sg skip found acc = Ok res ->
    let '(hit, t0, idx) := res in
    (hit = true ->
     exists s, candidate sgs skip (done ++ found) idx s /\ accepted sg s = true /\
               Seg.t_ sg s = t0) /\
    (hit = false -> t0 = 1e32 /\ idx = (-1)%Z) /\
    (forall j s, candidate sgs skip (done ++ found) j s -> accepted sg s = true ->
                 hit = true /\ t0 <= Seg.t_ sg s).
Proof.
  induction found as [| i rest IH]; intros done [[hit t0] idx] res Hinv H.
  - simpl in H. injection H as <-. rewrite app_nil_r. exact Hinv.
  - replace (done ++ i :: rest) with ((done ++ [i]) ++ rest)
      by (rewrite <- app_assoc; reflexivity).
    destruct Hinv as (Hhit & Hmiss & Hmin).
    simpl in H. destruct (i =? skip)%Z eqn:Ei.
    + apply Z.eqb_eq in Ei. apply (IH (done ++ [i]) (hit, t0, idx) res); [| exact H].
      split; [| split].
      * intros Ht. destruct (Hhit Ht) as (s & Hc & Ha & Hu).
        exists s. split; [apply candidate_more; exact Hc | split; assumption].
      * exact Hmiss.
      * intros j s Hc Ha. apply candidate_snoc in Hc.
        destruct Hc as [Hc | (_ & Hne & _)]; [eauto | contradiction].
    + apply Z.eqb_neq in Ei.
      destruct (getitem sgs i) as [s |] eqn:Hg; [| discriminate H].
      cbn [bind] in H.
      pose proof (t_is_u sg s) as Hu.
      pose proof (accepted_window sg s) as Hw.
      unfold accepted in Hw.
      assert (Hacc : accepted sg s =
                     (let '(it, _, u, v) := Seg.intersect_ext sg s in
                      (it && in_window u v)%bool)) by reflexivity.
      destruct (Seg.intersect_ext sg s) as [[[it pt] u] v]. cbn [fst snd] in Hu.
      assert (Hi : candidate sgs skip (done ++ [i]) i s).
      { split; [apply in_or_app; right; left; reflexivity | split; assumption]. }
      destruct (it && in_window u v)%bool eqn:Ea.
      * specialize (Hw eq_refl).
        destruct (Num.ltb u t0) eqn:El.
        -- apply ltb_true in El.
           apply (IH (done ++ [i]) (true, u, i) res); [| exact H].
           split; [| split].
           ++ intros _. exists s. repeat split; try apply Hi; assumption.
           ++ discriminate.
           ++ intros j s' Hc Ha. split; [reflexivity |].
              apply candidate_snoc in Hc. destruct Hc as [Hc | (-> & _ & Hg')].
              ** destruct (Hmin j s' Hc Ha) as [_ Hle]. lra.
              ** rewrite Hg in Hg'. injection Hg' as <-. lra.
        -- apply ltb_false in El.
           assert (Ht : hit = true).
           { destruct hit; [reflexivity |].
             destruct (Hmiss eq_refl) as [-> _]. exfalso. apply El. lra. }
           apply (IH (done ++ [i]) (true, t0, idx) res); [| exact H].
           split; [| split].
           ++ intros _. destruct (Hhit Ht) as (s0 & Hc & Ha & Hu0).
              exists s0. split; [apply candidate_more; exact Hc | split; assumption].
           ++ discriminate.
           ++ intros j s' Hc Ha. split; [reflexivity |].
              apply candidate_snoc in Hc. destruct Hc as [Hc | (-> & _ & Hg')].
              ** apply (Hmin j s' Hc Ha).
              ** rewrite Hg in Hg'. injection Hg' as <-. lra.
      * apply (IH (done ++ [i]) (hit, t0, idx) res); [| exact H].
        split; [| split].
        -- intros Ht. destruct (Hhit Ht) as (s0 & Hc & Ha & Hu0).
           exists s0. split; [apply candidate_more; exact Hc | split; assumption].
        -- exact Hmiss.
        -- intros j s' Hc Ha. apply candidate_snoc in Hc.
           destruct Hc as [Hc | (-> & _ & Hg')]; [eauto |].
           rewrite Hg in Hg'. injection Hg' as <-.
           rewrite Hacc in Ha. discriminate Ha.
Qed.

(** X10: [intersect] answers the nearest accepted crossing.  Among the
    segments the query finds, but for the one inserted last, it reports
    a hit exactly when one crosses the probe within the window, and
    then the index and the parameter [t] of one whose parameter no
    other accepted one undercuts; without a hit it answers
    [(False, 1e32, -1)]. *)
Theorem intersect_nearest_hit (pf : PathFinder.t) (sg : Seg.t)
    (it : bool) (t0 : R) (idx : Z) :
  intersect pf sg = Ok (it, t0, idx) ->
  let found :=
    Tree.intersects_ext (tree pf) (Seg.envelope sg) (0.005 * spacing pf) in
  let skip := (Tree.ngeoms (tree pf) - 1)%Z in
  (it = true ->
   exists s, candidate (segs pf) skip found idx s /\ accepted sg s = true /\
             Seg.t_ sg s = t0) /\
  (it = false -> t0 = 1e32 /\ idx = (-1)%Z) /\
  (forall j s, candidate (segs pf) skip found j s -> accepted sg s = true ->
               it = true /\ t0 <= Seg.t_ sg s).
Proof.
  unfold intersect. intros H. cbv zeta.
  apply (intersect_loop_nearest _ _ _ _ [] (false, 1e32, (-1)%Z) (it, t0, idx));
    [| exact H].
  split; [discriminate |]. split; [intros _; split; reflexivity |].
  intros j s (Hin & _) _. destruct Hin.
Qed.

(** On the square: the right probe of the start hits the first edge, which
    it crosses within the window at the parameter answered. *)
Example intersect_nearest_hit_witness :
  exists t0 s,
    intersect (square_engine (-1) square_corner e0 e0 e0 square_turtle [square_p] 0)
              (Turtle.right square_turtle) = Ok (true, t0, 0%Z) /\
    accepted (Turtle.right square_turtle) s = true /\
    Seg.t_ (Turtle.right square_turtle) s = t0.
Proof.
  destruct (square_hit_right (-1) square_corner e0 e0 e0 square_turtle [square_p] 0)
    as [t0 H].
  destruct (proj1 (intersect_nearest_hit _ _ _ _ _ H) eq_refl) as (s & _ & Ha & Hu).
  exists t0, s. split; [exact H | split; assumption].
Defined.

Lemma box_accepted_window (sg s : Seg.t) :
  box_accepted sg s = true -> Seg.t_ sg s <= 1.25.
Proof.
  unfold box_accepted. rewrite t_is_u.
  destruct (Seg.intersect_ext sg s) as [[[it pt] u] v]. cbn [fst snd].
  unfold SeekBox.in_window. intros H.
  apply andb_prop in H. destruct H as [_ H].
  apply andb_prop in H. destruct H as [H _].
  apply andb_prop in H. destruct H as [H _].
  apply andb_prop in H. destruct H as [H1 H2].
  apply leb_true in H1. exact H1.
Qed.

Lemma does_intersect_loop_nearest sgs sg :
  forall found done acc res,
    (let '(hit, u_min, v_min, i_idx) := acc in
     (hit = true ->
      exists s pt, In i_idx done /\ getitem sgs i_idx = Ok s /\
                   Seg.intersect_ext sg s = (true, pt, u_min, v_min) /\
                   SeekBox.in_window u_min v_min = true) /\
     (hit = false -> u_min = 2 /\ v_min = 0 /\ i_idx = (-1)%Z) /\
     (forall j s, In j done -> getitem sgs j = Ok s -> box_accepted sg s = true ->
                  hit = true /\ u_min <= Seg.t_ sg s)) ->
    SeekBox.does_intersect_loop sgs sg found acc = Ok res ->
    let '(hit, u_min, v_min, i_idx) := res in
    (hit = true ->
     exists s pt, In i_idx (done ++ found) /\ getitem sgs i_idx = Ok s /\
                  Seg.intersect_ext sg s = (true, pt, u_min, v_min) /\
                  SeekBox.in_window u_min v_min = true) /\
    (hit = false -> u_min = 2 /\ v_min = 0 /\ i_idx = (-1)%Z) /\
    (forall j s, In j (done ++ found) -> getitem sgs j = Ok s ->
                 box_accepted sg s = true ->
                 hit = true /\ u_min <= Seg.t_ sg s).
Proof.
  induction found as [| i rest IH]; intros done [[[hit u0] v0] idx] res Hinv H.
  - simpl in H. injection H as <-. rewrite app_nil_r. exact Hinv.
  - replace (done ++ i :: rest) with ((done ++ [i]) ++ rest)
      by (rewrite <- app_assoc; reflexivity).
    destruct Hinv as (Hhit & Hmiss & Hmin).
    simpl in H.
    destruct (getitem sgs i) as [s |] eqn:Hg; [| discriminate H].
    cbn [bind] in H.
    pose proof (t_is_u sg s) as Hu.
    pose proof (box_accepted_window sg s) as Hw.
    unfold box_accepted in Hw.
    assert (Hacc : box_accepted sg s =
                   (let '(it, _, u, v) := Seg.intersect_ext sg s in
                    (it && SeekBox.in_window u v)%bool)) by reflexivity.
    destruct (Seg.intersect_ext sg s) as [[[it pt] u] v] eqn:Hx.
    cbn [fst snd] in Hu.
    assert (Hold : hit = true ->
              exists s0 pt0, In idx (done ++ [i]) /\ getitem sgs idx = Ok s0 /\
                Seg.intersect_ext sg s0 = (true, pt0, u0, v0) /\
                SeekBox.in_window u0 v0 = true).
    { intros Ht. destruct (Hhit Ht) as (s0 & pt0 & Hin & Hrest).
      exists s0, pt0. split; [apply in_or_app; left; exact Hin | exact Hrest]. }
    destruct (it && SeekBox.in_window u v)%bool eqn:Ea.
    + specialize (Hw eq_refl).
      apply andb_prop in Ea. destruct Ea as [-> Ewin].
      destruct (Num.ltb u u0) eqn:El.
      * apply ltb_true in El.
        apply (IH (done ++ [i]) (true, u, v, i) res); [| exact H].
        split; [| split].
        -- intros _. exists s, pt.
           split; [apply in_or_app; right; left; reflexivity |].
           split; [exact Hg | split; [exact Hx | exact Ewin]].
        -- discriminate.
        -- intros j s' Hin Hg' Ha. split; [reflexivity |].
           apply in_app_or in Hin. destruct Hin as [Hin | [<- | []]].
           ++ destruct (Hmin j s' Hin Hg' Ha) as [_ Hle]. lra.
           ++ rewrite Hg in Hg'. injection Hg' as <-. lra.
      * apply ltb_false in El.
        assert (Ht : hit = true).
        { destruct hit; [reflexivity |].
          destruct (Hmiss eq_refl) as [-> _]. exfalso. apply El. lra. }
        apply (IH (done ++ [i]) (true, u0, v0, idx) res); [| exact H].
        split; [| split].
        -- intros _. apply Hold, Ht.
        -- discriminate.
        -- intros j s' Hin Hg' Ha. split; [reflexivity |].
           apply in_app_or in Hin. destruct Hin as [Hin | [<- | []]].
           ++ apply (Hmin j s' Hin Hg' Ha).
           ++ rewrite Hg in Hg'. injection Hg' as <-. lra.
    + apply (IH (done ++ [i]) (hit, u0, v0, idx) res); [| exact H].
      split; [| split].
      * exact Hold.
      * exact Hmiss.
      * intros j s' Hin Hg' Ha.
        apply in_app_or in Hin. destruct Hin as [Hin | [<- | []]]; [eauto |].
        rewrite Hg in Hg'. injection Hg' as <-.
        rewrite Hacc in Ha. discriminate Ha.
Qed.

(** X11: [SeekBox.does_intersect] answers the nearest crossing within
    its own window ([-0.25 <= u <= 1.25], [-0.0001 <= v <= 1.0001])
    among the segments the query finds for the box, with both
    parameters of that crossing and its index; without one it answers
    [(False, 2, 0, -1)].  The argument [skip] changes nothing: no
    index is left out. *)
Theorem does_intersect_nearest (box : Envelope.t) (q : Tree.t) (sg : Seg.t)
    (skip : Z) (hit : bool) (u_min v_min : R) (i_idx : Z) :
  SeekBox.does_intersect box q sg skip = Ok (hit, u_min, v_min, i_idx) ->
  let found := Tree.intersects_ext q box 0.001 in
  (hit = true ->
   exists s pt, In i_idx found /\ getitem (Tree.geoms q) i_idx = Ok s /\
                Seg.intersect_ext sg s = (true, pt, u_min, v_min) /\
                SeekBox.in_window u_min v_min = true) /\
  (hit = false -> u_min = 2 /\ v_min = 0 /\ i_idx = (-1)%Z) /\
  (forall j s, In j found -> getitem (Tree.geoms q) j = Ok s ->
               box_accepted sg s = true ->
               hit = true /\ u_min <= Seg.t_ sg s) /\
  (forall skip', SeekBox.does_intersect box q sg skip'
                 = Ok (hit, u_min, v_min, i_idx)).
Proof.
  unfold SeekBox.does_intersect. intros H. cbv zeta.
  pose proof (does_intersect_loop_nearest (Tree.geoms q) sg
                (Tree.intersects_ext q box 0.001) [] (false, 2, 0, (-1)%Z)
                (hit, u_min, v_min, i_idx)) as P.
  cbv beta iota in P. rewrite app_nil_l in P.
  lapply P; [clear P; intros P; specialize (P H) |].
  - destruct P as (P1 & P2 & P3).
    split; [exact P1 |]. split; [exact P2 |]. split; [exact P3 |].
    intros _. exact H.
  - split; [discriminate |]. split; [intros _; repeat split |].
    intros j s [].
Qed.

Lemma does_intersect_loop_closer sgs sg i rest h u0 v0 idx s :
  getitem sgs i = Ok s -> Seg.det sg s <> 0 ->
  SeekBox.in_window
    (Vector.dot (Seg.perp (Seg.v s)) (Seg.p s - Seg.p sg)%vec / Seg.det sg s)
    (Vector.dot (Seg.perp (Seg.v sg)) (Seg.p s - Seg.p sg)%vec / Seg.det sg s)
  = true ->
  Vector.dot (Seg.perp (Seg.v s)) (Seg.p s - Seg.p sg)%vec / Seg.det sg s < u0 ->
  SeekBox.does_intersect_loop sgs sg (i :: rest) (h, u0, v0, idx) =
  SeekBox.does_intersect_loop sgs sg rest
    (true,
     Vector.dot (Seg.perp (Seg.v s)) (Seg.p s - Seg.p sg)%vec / Seg.det sg s,
     Vector.dot (Seg.perp (Seg.v sg)) (Seg.p s - Seg.p sg)%vec / Seg.det sg s,
     i).
Proof.
  intros Hg Hd Hw Hl. cbn [SeekBox.does_intersect_loop]. rewrite Hg. cbn [bind].
  rewrite (intersect_ext_cross _ _ Hd). rewrite Hw. cbn [andb].
  replace (Num.ltb _ u0) with true by (symmetry; apply ltb_true; exact Hl).
  reflexivity.
Qed.

(** On the square: a probe across the first edge, sought in a box around
    it, is answered with that edge and parameters within the window. *)
Example does_intersect_nearest_witness :
  let sg := Seg.new (Vector.mk 0 (-3) 0) (Vector.mk 0 2 0) in
  let box := Envelope.initByPoints (Vector.mk 0 (-3) 0) (Vector.mk 0.3 (-1) 0) in
  exists u v,
    SeekBox.does_intersect box square_tree sg 0 = Ok (true, u, v, 0%Z) /\
    SeekBox.in_window u v = true.
Proof.
  cbv zeta.
  assert (H : exists u v,
    SeekBox.does_intersect
      (Envelope.initByPoints (Vector.mk 0 (-3) 0) (Vector.mk 0.3 (-1) 0))
      square_tree (Seg.new (Vector.mk 0 (-3) 0) (Vector.mk 0 2 0)) 0
    = Ok (true, u, v, 0%Z)).
  { unfold SeekBox.does_intersect.
    change (Tree.geoms square_tree) with square_edges.
    change (Tree.intersects_ext square_tree)
      with (fun e tol => envelope_query square_edges e tol).
    cbv beta. unfold envelope_query, square_edges at 2.
    scan. scan. scan. scan. norm_z.
    change (envelope_scan 4 [] _) with (@nil Z).
    eexists. eexists.
    rewrite (does_intersect_loop_closer square_edges _ 0 [] false 2 0 (-1) e0).
    - reflexivity.
    - reflexivity.
    - plumb. lra.
    - unfold SeekBox.in_window. rewrite !andb_true_iff.
      repeat split; decide_num; plumb; lra.
    - plumb. lra. }
  destruct H as (u & v & H). exists u, v. split; [exact H |].
  destruct (proj1 (does_intersect_nearest _ _ _ _ _ _ _ _ H) eq_refl)
    as (s & pt & _ & _ & _ & Hw).
  exact Hw.
Defined.

Lemma wall_seg_loop_first pf p :
  forall found i,
    wall_seg_loop pf p found = Ok i ->
    (exists before after s,
       found = before ++ i :: after /\ i <> last pf /\
       getitem (segs pf) i = Ok s /\ seg_at_pos s p = true /\
       forall j s', candidate (segs pf) (last pf) before j s' ->
                    seg_at_pos s' p = false) \/
    (i = (-1)%Z /\
     forall j s', candidate (segs pf) (last pf) found j s' ->
                  seg_at_pos s' p = false).
Proof.
  induction found as [| k rest IH]; intros i H.
  - simpl in H. injection H as <-. right. split; [reflexivity |].
    intros j s' (Hin & _). destruct Hin.
  - simpl in H. destruct (k =? last pf)%Z eqn:Ek.
    + apply Z.eqb_eq in Ek. destruct (IH i H) as
        [(before & after & s & -> & Hne & Hg & Hat & Hb) | [-> Hnone]].
      * left. exists (k :: before), after, s.
        split; [reflexivity |]. split; [exact Hne |]. split; [exact Hg |].
        split; [exact Hat |].
        intros j s' (Hin & Hj & Hg'). destruct Hin as [<- | Hin]; [contradiction |].
        apply (Hb j s'). repeat split; assumption.
      * right. split; [reflexivity |].
        intros j s' (Hin & Hj & Hg'). destruct Hin as [<- | Hin]; [contradiction |].
        apply (Hnone j s'). repeat split; assumption.
    + apply Z.eqb_neq in Ek.
      destruct (getitem (segs pf) k) as [s |] eqn:Hg; [| discriminate H].
      cbn [bind] in H. destruct (seg_at_pos s p) eqn:Hat.
      * injection H as <-. left. exists [], rest, s.
        split; [reflexivity |]. split; [exact Ek |]. split; [exact Hg |].
        split; [exact Hat |]. intros j s' (Hin & _). destruct Hin.
      * destruct (IH i H) as
          [(before & after & s0 & -> & Hne & Hg0 & Hat0 & Hb) | [-> Hnone]].
        -- left. exists (k :: before), after, s0.
           split; [reflexivity |]. split; [exact Hne |]. split; [exact Hg0 |].
           split; [exact Hat0 |].
           intros j s' (Hin & Hj & Hg'). destruct Hin as [<- | Hin].
           ++ rewrite Hg in Hg'. injection Hg' as <-. exact Hat.
           ++ apply (Hb j s'). repeat split; assumption.
        -- right. split; [reflexivity |].
           intros j s' (Hin & Hj & Hg'). destruct Hin as [<- | Hin].
           ++ rewrite Hg in Hg'. injection Hg' as <-. exact Hat.
           ++ apply (Hnone j s'). repeat split; assumption.
Qed.

(** X12: [wall_seg] answers the first segment found at the point, the
    wall followed ([last]) left aside: a segment one of whose ends is
    within 0.0001 of [p], such that no segment found before it, other
    than [last], is at [p]; or [-1] when no segment found, other than
    [last], is at [p].  It moves the seek point to [p] and changes
    nothing else. *)
Theorem wall_seg_first_other (pf pf' : PathFinder.t) (p : Vector.t) (i : Z) :
  wall_seg pf p = Ok (pf', i) ->
  let found :=
    Tree.intersects_ext (tree pf) (Envelope.initByPoints p p) 0.001 in
  pf' = set_pt pf p /\
  ((exists before after s,
      found = before ++ i :: after /\ i <> last pf /\
      getitem (segs pf) i = Ok s /\ seg_at_pos s p = true /\
      forall j s', candidate (segs pf) (last pf) before j s' ->
                   seg_at_pos s' p = false) \/
   (i = (-1)%Z /\
    forall j s', candidate (segs pf) (last pf) found j s' ->
                 seg_at_pos s' p = false)).
Proof.
  intros H. cbv zeta. split; [apply (wall_seg_frame _ _ _ _ H) |].
  unfold wall_seg in H. step_ok H. step_ok H.
  apply (wall_seg_loop_first (set_pt pf p) p _ _ Hm).
Qed.

(** On the square: at the corner where the first edge ends, with the
    first edge as the wall followed, the answer is the second edge, and only
    the seek point has changed. *)
Example wall_seg_first_other_witness :
  wall_seg (square_engine 0 square_p e0 e0 e0 square_turtle [square_p] 1)
           square_corner
  = Ok (square_engine 0 square_corner e0 e0 e0 square_turtle [square_p] 1, 1%Z) /\
  square_engine 0 square_corner e0 e0 e0 square_turtle [square_p] 1
  = set_pt (square_engine 0 square_p e0 e0 e0 square_turtle [square_p] 1)
           square_corner.
Proof.
  pose proof (square_wall_seg square_p e0 e0 e0 square_turtle [square_p] 1) as H.
  split; [exact H |].
  exact (proj1 (wall_seg_first_other _ _ _ _ H)).
Defined.

Lemma normal_measure_nonneg (pf : PathFinder.t) (sg : Seg.t) :
  0 <= snd (normal pf sg).
Proof.
  unfold normal. destruct (Num.ltb _ 1); cbn [snd]; apply length_nonneg.
Qed.

Lemma obstacle_seg_loop_farthest pf p :
  forall found done acc res,
    (let '(d_max, idx, n) := acc in
     (d_max = -1 /\ idx = (-1)%Z /\ n = Turtle.front_v (turtle pf) /\
      forall j s, In j done -> getitem (segs pf) j = Ok s ->
                  seg_at_pos s p = false) \/
     (exists s, In idx done /\ getitem (segs pf) idx = Ok s /\
                seg_at_pos s p = true /\ n = fst (normal pf s) /\
                d_max = snd (normal pf s) /\
                forall j s', In j done -> getitem (segs pf) j = Ok s' ->
                             seg_at_pos s' p = true ->
                             snd (normal pf s') <= snd (normal pf s))) ->
    obstacle_seg_loop pf p found acc = Ok res ->
    let '(idx, n) := res in
    (idx = (-1)%Z /\ n = Turtle.front_v (turtle pf) /\
     forall j s, In j (done ++ found) -> getitem (segs pf) j = Ok s ->
                 seg_at_pos s p = false) \/
    (exists s, In idx (done ++ found) /\ getitem (segs pf) idx = Ok s /\
               seg_at_pos s p = true /\ n = fst (normal pf s) /\
               forall j s', In j (done ++ found) -> getitem (segs pf) j = Ok s' ->
                            seg_at_pos s' p = true ->
                            snd (normal pf s') <= snd (normal pf s)).
Proof.
  induction found as [| i rest IH]; intros done [[d_max idx] n] res Hinv H.
  - simpl in H. injection H as <-. rewrite app_nil_r.
    destruct Hinv as [(_ & Hi & Hn & Hnone) | (s & Hin & Hg & Hat & Hn & _ & Hmax)].
    + left. repeat split; assumption.
    + right. exists s. repeat split; assumption.
  - replace (done ++ i :: rest) with ((done ++ [i]) ++ rest)
      by (rewrite <- app_assoc; reflexivity).
    simpl in H.
    destruct (getitem (segs pf) i) as [sg |] eqn:Hg; [| discriminate H].
    cbn [bind] in H.
    destruct (seg_at_pos sg p) eqn:Hat.
    + pose proof (normal_measure_nonneg pf sg) as Hd.
      destruct (normal pf sg) as [ni d] eqn:Hn. cbn [snd] in Hd.
      assert (Hnew :
        exists s, In i (done ++ [i]) /\ getitem (segs pf) i = Ok s /\
                  seg_at_pos s p = true /\ ni = fst (normal pf s) /\
                  d = snd (normal pf s)).
      { exists sg. rewrite Hn. repeat split; try assumption.
        apply in_or_app. right. left. reflexivity. }
      destruct (Num.ltb d_max d) eqn:El.
      * apply ltb_true in El.
        apply (IH (done ++ [i]) (d, i, ni) res); [| exact H].
        right. destruct Hnew as (s & Hin & Hgs & Hats & Hni & Hds).
        exists s. repeat split; try assumption.
        intros j s' Hj Hg' Hat'. rewrite <- Hds.
        apply in_app_or in Hj. destruct Hj as [Hj | [<- | []]].
        -- destruct Hinv as
             [(_ & _ & _ & Hnone) | (s0 & _ & _ & _ & _ & Hd0 & Hmax)].
           ++ rewrite (Hnone j s' Hj Hg') in Hat'. discriminate Hat'.
           ++ pose proof (Hmax j s' Hj Hg' Hat'). lra.
        -- rewrite Hg in Hg'. injection Hg' as <-. rewrite Hn. cbn [snd]. lra.
      * apply ltb_false in El.
        apply (IH (done ++ [i]) (d_max, idx, n) res); [| exact H].
        destruct Hinv as
          [(Hd0 & _) | (s0 & Hin0 & Hg0 & Hat0 & Hn0 & Hd0 & Hmax)];
          [exfalso; lra |].
        right. exists s0. split; [apply in_or_app; left; exact Hin0 |].
        repeat split; try assumption.
        intros j s' Hj Hg' Hat'.
        apply in_app_or in Hj. destruct Hj as [Hj | [<- | []]].
        -- apply (Hmax j s' Hj Hg' Hat').
        -- rewrite Hg in Hg'. injection Hg' as <-. rewrite Hn. cbn [snd]. lra.
    + apply (IH (done ++ [i]) (d_max, idx, n) res); [| exact H].
      destruct Hinv as
        [(Hd0 & Hi0 & Hn0 & Hnone) | (s0 & Hin0 & Hg0 & Hat0 & Hn0 & Hd0 & Hmax)].
      * left. repeat split; try assumption.
        intros j s Hj Hg'.
        apply in_app_or in Hj. destruct Hj as [Hj | [<- | []]].
        -- apply (Hnone j s Hj Hg').
        -- rewrite Hg in Hg'. injection Hg' as <-. exact Hat.
      * right. exists s0. split; [apply in_or_app; left; exact Hin0 |].
        repeat split; try assumption.
        intros j s' Hj Hg' Hat'.
        apply in_app_or in Hj. destruct Hj as [Hj | [<- | []]].
        -- apply (Hmax j s' Hj Hg' Hat').
        -- rewrite Hg in Hg'. injection Hg' as <-.
           rewrite Hat in Hat'. discriminate Hat'.
Qed.

(** X13: [obstacle_seg] answers, among the segments found at the point
    (one end within 0.0001 of [p]), one whose measure [d] of [normal]
    is the greatest, with its normal; when none is at the point it
    answers [-1] and the heading of the turtle.  It moves the seek
    point to [p] and changes nothing else. *)
Theorem obstacle_seg_farthest (pf pf' : PathFinder.t) (p n : Vector.t) (idx : Z) :
  obstacle_seg pf p = Ok (pf', idx, n) ->
  let found :=
    Tree.intersects_ext (tree pf) (Envelope.initByPoints p p) 0.001 in
  pf' = set_pt pf p /\
  ((idx = (-1)%Z /\ n = Turtle.front_v (turtle pf) /\
    forall j s, In j found -> getitem (segs pf) j = Ok s ->
                seg_at_pos s p = false) \/
   (exists s, In idx found /\ getitem (segs pf) idx = Ok s /\
              seg_at_pos s p = true /\ n = fst (normal pf s) /\
              forall j s', In j found -> getitem (segs pf) j = Ok s' ->
                           seg_at_pos s' p = true ->
                           snd (normal pf s') <= snd (normal pf s))).
Proof.
  intros H. cbv zeta. split; [apply (obstacle_seg_frame _ _ _ _ _ H) |].
  unfold obstacle_seg in H. step_ok H. destruct a as [idx0 n0]. step_ok H.
  pose proof (obstacle_seg_loop_farthest (set_pt pf p) p
                (Tree.intersects_ext (tree pf) (Envelope.initByPoints p p) 0.001)
                [] (-1, (-1)%Z, Turtle.front_v (turtle pf)) (idx, n)) as P.
  cbv beta iota in P. rewrite app_nil_l in P.
  lapply P; [clear P; intros P; exact (P Hm) |].
  left. repeat split. intros j s [].
Qed.

Lemma obstacle_seg_loop_returns pf p :
  forall found acc,
    (forall i, In i found -> exists s, getitem (segs pf) i = Ok s) ->
    exists res, obstacle_seg_loop pf p found acc = Ok res.
Proof.
  induction found as [| i rest IH]; intros [[d_max idx] n] Hall.
  - simpl. eauto.
  - simpl. destruct (Hall i (or_introl eq_refl)) as [s ->]. cbn [bind].
    assert (Hrest : forall k, In k rest -> exists s0, getitem (segs pf) k = Ok s0)
      by (intros k Hk; apply Hall; right; exact Hk).
    destruct (seg_at_pos s p); [| apply IH; exact Hrest].
    destruct (normal pf s) as [ni d].
    destruct (Num.ltb d_max d); apply IH; exact Hrest.
Qed.

(** On the square: at the corner where the first edge ends the answer is
    an edge that has an end at that corner. *)
Example obstacle_seg_farthest_witness :
  exists pf' idx n s,
    obstacle_seg (square_engine 0 square_p e0 e0 e0 square_turtle [square_p] 1)
                 square_corner = Ok (pf', idx, n) /\
    getitem square_edges idx = Ok s /\ seg_at_pos s square_corner = true.
Proof.
  assert (H : exists idx n,
    obstacle_seg (square_engine 0 square_p e0 e0 e0 square_turtle [square_p] 1)
                 square_corner
    = Ok (square_engine 0 square_corner e0 e0 e0 square_turtle [square_p] 1, idx, n)).
  { unfold obstacle_seg.
    change (set_pt (square_engine 0 square_p e0 e0 e0 square_turtle [square_p] 1)
                   square_corner)
      with (square_engine 0 square_corner e0 e0 e0 square_turtle [square_p] 1).
    destruct (obstacle_seg_loop_returns
                (square_engine 0 square_corner e0 e0 e0 square_turtle [square_p] 1)
                square_corner
                (Tree.intersects_ext
                   (tree (square_engine 0 square_corner e0 e0 e0 square_turtle
                                        [square_p] 1))
                   (Envelope.initByPoints
                      (pt (square_engine 0 square_corner e0 e0 e0 square_turtle
                                         [square_p] 1))
                      (pt (square_engine 0 square_corner e0 e0 e0 square_turtle
                                         [square_p] 1))) 0.001)
                (-1, (-1)%Z,
                 Turtle.front_v
                   (turtle (square_engine 0 square_corner e0 e0 e0 square_turtle
                                          [square_p] 1))))
      as [[idx n] Hl].
    - change (Tree.intersects_ext
                (tree (square_engine 0 square_corner e0 e0 e0 square_turtle
                                     [square_p] 1)))
        with (fun e tol => envelope_query square_edges e tol).
      cbv beta. unfold envelope_query, square_edges.
      scan. scan. scan. scan. norm_z.
      change (envelope_scan 4 [] _) with (@nil Z).
      intros i [<- | [<- | []]]; eexists; reflexivity.
    - exists idx, n. rewrite Hl. reflexivity. }
  destruct H as (idx & n & H).
  destruct (proj2 (obstacle_seg_farthest _ _ _ _ _ H))
    as [(_ & _ & Hnone) | (s & _ & Hg & Hat & _)].
  - exfalso.
    assert (Hin : In 1%Z
              (Tree.intersects_ext
                 (tree (square_engine 0 square_p e0 e0 e0 square_turtle [square_p] 1))
                 (Envelope.initByPoints square_corner square_corner) 0.001)).
    { change (Tree.intersects_ext
                (tree (square_engine 0 square_p e0 e0 e0 square_turtle [square_p] 1)))
        with (fun e tol => envelope_query square_edges e tol).
      cbv beta. unfold envelope_query, square_edges.
      scan. scan. right. left. reflexivity. }
    specialize (Hnone 1%Z e1 Hin eq_refl).
    rewrite seg_at_pos_starts in Hnone by (plumb; lra). discriminate Hnone.
  - exists (square_engine 0 square_corner e0 e0 e0 square_turtle [square_p] 1),
           idx, n, s.
    split; [exact H |]. split; assumption.
Defined.

(** ** What a step does to the turtle *)

Lemma cross_z_flat (a : Vector.t) (u : R) :
  Vector.flat (Vector.cross a (Vector.mk 0 0 u)).
Proof. unfold Vector.flat. cbv [Vector.cross Vector.x Vector.y Vector.z]. ring. Qed.

Lemma neg_flat (a : Vector.t) : Vector.flat a -> Vector.flat (- a)%vec.
Proof. unfold Vector.flat. cbv [Vector.neg Vector.z]. intros ->. ring. Qed.

Lemma scale_flat (k : R) (a : Vector.t) : Vector.flat a -> Vector.flat (k *: a).
Proof. unfold Vector.flat. cbv [Vector.scale Vector.z]. intros ->. ring. Qed.

Lemma add_flat (a b : Vector.t) :
  Vector.flat a -> Vector.flat b -> Vector.flat (a + b)%vec.
Proof. unfold Vector.flat. cbv [Vector.add Vector.z]. intros -> ->. ring. Qed.

Lemma sub_flat (a b : Vector.t) :
  Vector.flat a -> Vector.flat b -> Vector.flat (a - b)%vec.
Proof. unfold Vector.flat. cbv [Vector.sub Vector.z]. intros -> ->. ring. Qed.

Lemma moved_ext (a a' b b' : PathFinder.t) :
  coords a' = coords a -> tree a' = tree a -> turtle a' = turtle a ->
  coords b' = coords b -> tree b' = tree b -> turtle b' = turtle b ->
  moved a b -> moved a' b'.
Proof.
  intros H1 H2 H3 H4 H5 H6 (p0 & d & w & Hg & Hc & Ht & Htu & Hd & Hw).
  exists p0, d, w. rewrite H1, H2, H3, H4, H5, H6.
  repeat split; assumption.
Qed.

Lemma draw_moves pf v t0 n dir pf' :
  draw pf v t0 n dir = Ok pf' -> v = Turtle.front_v (turtle pf) -> moved pf pf'.
Proof.
  unfold draw. intros H Hv. subst v. set (v := Turtle.front_v (turtle pf)) in *.
  step_ok H. rename a into p0.
  exists p0, (t0 *: v),
    (match dir with
     | LEFT => Turtle.left_v (Turtle.rotate (Turtle.move (turtle pf) (t0 *: v)) n)
     | RIGHT => Turtle.right_v (Turtle.rotate (Turtle.move (turtle pf) (t0 *: v)) n)
     end).
  split; [exact Hm |].
  destruct dir; step_ok H;
    (split; [reflexivity |]); (split; [reflexivity |]); (split; [reflexivity |]);
    (split; [intros Hf; apply scale_flat; exact Hf |]).
  - apply neg_flat, cross_z_flat.
  - apply cross_z_flat.
Qed.

Lemma forward_cap_moves pf r pf' :
  forward_cap pf = Ok (r, pf') -> moved pf pf'.
Proof.
  unfold forward_cap. intros H. step_ok H. rename a into tail.
  step_ok H. rename a into p0.
  step_ok H. destruct a as [[it t0] idx]. step_ok H.
  set (tu2 := Turtle.turn_right
                (Turtle.rotate (turtle pf)
                               (spacing pf *: Vector.normalized (Seg.v tail)))).
  exists p0, (0.5 *: Turtle.front_v tu2), (Turtle.right_v tu2).
  split; [exact Hm0 |].
  split; [reflexivity |]. split; [reflexivity |]. split; [reflexivity |].
  split; [intros _; apply scale_flat |]; apply cross_z_flat.
Qed.

Lemma forward_moves pf r pf' :
  forward pf = Ok (r, pf') -> stayed pf pf' \/ moved pf pf'.
Proof.
  unfold forward. intros H. step_ok H. apply forward_wall_spec in Hm.
  destruct a as [pf1 | pf1 v p0 loc].
  - step_ok H. apply scratchless_fields in Hm. cbn in Hm.
    left. unfold stayed. intuition.
  - destruct Hm as [Hm [Hv Hcap]].
    apply scratchless_fields in Hm. cbn in Hm.
    step_ok H. destruct a as [pf2 loc2].
    apply forward_checks_frame, scratchless_fields in Hm0.
    unfold forward_finish in H. right.
    assert (Hc : coords (set_last pf2 (l_next loc2)) = coords pf)
      by (cbn; intuition congruence).
    assert (Ht : tree (set_last pf2 (l_next loc2)) = tree pf)
      by (cbn; intuition congruence).
    assert (Hu : turtle (set_last pf2 (l_next loc2)) = turtle pf)
      by (cbn; intuition congruence).
    step_ok H.
    + apply forward_cap_moves in H.
      apply (moved_ext _ pf _ pf' (eq_sym Hc) (eq_sym Ht) (eq_sym Hu)
               eq_refl eq_refl eq_refl) in H.
      exact H.
    + step_ok H. step_ok H. apply draw_moves in Hm1; [| congruence].
      apply (moved_ext _ pf _ pf' (eq_sym Hc) (eq_sym Ht) (eq_sym Hu)
               eq_refl eq_refl eq_refl) in Hm1.
      exact Hm1.
Qed.

Lemma backward_moves pf r pf' :
  backward pf = Ok (r, pf') -> stayed pf pf' \/ moved pf pf'.
Proof.
  unfold backward. intros H. step_ok H. apply backward_wall_spec in Hm.
  destruct a as [pf1 | pf1 bw nxt t0 n dir].
  - step_ok H. apply scratchless_fields in Hm. cbn in Hm.
    left. unfold stayed. intuition.
  - destruct Hm as [Hm ->]. apply scratchless_fields in Hm. cbn in Hm.
    step_ok H. step_ok H. right.
    assert (Hc : coords (set_last pf1 nxt) = coords pf)
      by (cbn; intuition congruence).
    assert (Ht : tree (set_last pf1 nxt) = tree pf)
      by (cbn; intuition congruence).
    assert (Hu : turtle (set_last pf1 nxt) = turtle pf)
      by (cbn; intuition congruence).
    apply draw_moves in Hm0; [| congruence].
    apply (moved_ext _ pf _ pf' (eq_sym Hc) (eq_sym Ht) (eq_sym Hu)
             eq_refl eq_refl eq_refl) in Hm0.
    exact Hm0.
Qed.

Lemma next_tail_keeps (res : bool) (q : PathFinder.t) :
  coords (snd (next_tail res q)) = coords q /\
  tree (snd (next_tail res q)) = tree q /\
  turtle (snd (next_tail res q)) = turtle q.
Proof.
  unfold next_tail. destruct res;
    match goal with |- context [Num.ltb ?a ?b] => destruct (Num.ltb a b) end;
    repeat split.
Qed.

(** One call of [next] either leaves the polyline, the tree and the
    turtle as they are, or records one point in the way of [moved]. *)
Lemma next_moves pf r pf' :
  next pf = Ok (r, pf') -> stayed pf pf' \/ moved pf pf'.
Proof.
  assert (Htail : forall res q,
            stayed pf q \/ moved pf q -> next_tail res q = (r, pf') ->
            stayed pf pf' \/ moved pf pf').
  { intros res q Hq Ht. destruct (next_tail_keeps res q) as (H1 & H2 & H3).
    rewrite Ht in H1, H2, H3. cbn [snd] in *.
    destruct Hq as [(Hc & Htr & Hu) | Hq].
    - left. unfold stayed. intuition congruence.
    - right. apply (moved_ext pf pf q pf' eq_refl eq_refl eq_refl H1 H2 H3 Hq). }
  unfold next. intros H. step_ok H.
  - step_ok H. destruct a as [res q]. step_ok H.
    apply forward_moves in Hm. eapply Htail; eauto.
  - step_ok H.
    + step_ok H. destruct a as [res q]. step_ok H.
      apply backward_moves in Hm. eapply Htail; eauto.
    + step_ok H. left. repeat split.
Qed.

(** ** Lists as the program indexes them *)

Lemma getitem_nil {A : Type} (i : Z) : @getitem A [] i = Raise IndexError.
Proof.
  unfold getitem. cbn [length Z.of_nat].
  destruct (i <? 0)%Z eqn:E.
  - apply Z.ltb_lt in E.
    replace (0 <=? i + 0)%Z with false by (symmetry; apply Z.leb_gt; lia).
    reflexivity.
  - replace (i <? 0)%Z with false. rewrite andb_false_r. reflexivity.
Qed.

Lemma getitem_raises {A : Type} (l : list A) (i : Z) (e : exn) :
  getitem l i = Raise e -> e = IndexError.
Proof.
  unfold getitem. cbv zeta.
  destruct (_ && _)%bool; [| intros H; injection H as <-; reflexivity].
  destruct (nth_error l _); [discriminate |].
  intros H; injection H as <-; reflexivity.
Qed.

Lemma getitem_In {A : Type} (l : list A) (i : Z) (a : A) :
  getitem l i = Ok a -> In a l.
Proof.
  unfold getitem. cbv zeta.
  destruct (_ && _)%bool; [| discriminate].
  destruct (nth_error l _) eqn:E; [| discriminate].
  intros H; injection H as <-. eapply nth_error_In; eauto.
Qed.

Lemma getitem_nat {A : Type} (l : list A) (k : nat) (a : A) :
  nth_error l k = Some a -> getitem l (Z.of_nat k) = Ok a.
Proof.
  intros H. unfold getitem. cbv zeta.
  assert (Hk : (k < length l)%nat) by (apply nth_error_Some; congruence).
  replace (Z.of_nat k <? 0)%Z with false by (symmetry; apply Z.ltb_ge; lia).
  replace (0 <=? Z.of_nat k)%Z with true by (symmetry; apply Z.leb_le; lia).
  replace (Z.of_nat k <? Z.of_nat (length l))%Z with true
    by (symmetry; apply Z.ltb_lt; lia).
  cbn [andb]. rewrite Nat2Z.id, H. reflexivity.
Qed.

Lemma getitem_last_snoc {A : Type} (l : list A) (a : A) :
  getitem (l ++ [a]) (-1) = Ok a.
Proof.
  unfold getitem. cbv zeta. rewrite length_app. cbn [length].
  change (-1 <? 0)%Z with true. cbv iota.
  replace (-1 + Z.of_nat (length l + 1))%Z with (Z.of_nat (length l)) by lia.
  replace (0 <=? Z.of_nat (length l))%Z with true by (symmetry; apply Z.leb_le; lia).
  replace (Z.of_nat (length l) <? Z.of_nat (length l + 1))%Z with true
    by (symmetry; apply Z.ltb_lt; lia).
  cbn [andb]. rewrite Nat2Z.id, nth_error_app2 by lia.
  rewrite Nat.sub_diag. reflexivity.
Qed.

Lemma getitem_last_inv {A : Type} (l : list A) (a : A) :
  getitem l (-1) = Ok a -> exists l', l = l' ++ [a].
Proof.
  destruct l as [| b l0] using rev_ind.
  - rewrite getitem_nil. discriminate.
  - rewrite getitem_last_snoc. intros H. injection H as <-. eauto.
Qed.

Lemma getitem_app_keep {A : Type} (l more : list A) (j : Z) (a : A) :
  (0 <= j)%Z -> getitem l j = Ok a -> getitem (l ++ more) j = Ok a.
Proof.
  intros Hj. unfold getitem. cbv zeta. rewrite length_app.
  replace (j <? 0)%Z with false by (symmetry; apply Z.ltb_ge; lia).
  destruct ((0 <=? j)%Z && (j <? Z.of_nat (length l))%Z)%bool eqn:E;
    [| discriminate].
  apply andb_prop in E. destruct E as [E1 E2]. apply Z.ltb_lt in E2.
  replace (j <? Z.of_nat (length l + length more))%Z with true
    by (symmetry; apply Z.ltb_lt; lia).
  rewrite E1. cbn [andb].
  rewrite nth_error_app1 by lia. auto.
Qed.

Lemma getitem_app_new {A : Type} (l : list A) (a : A) :
  getitem (l ++ [a]) (Z.of_nat (length l)) = Ok a.
Proof.
  apply getitem_nat. rewrite nth_error_app2 by lia.
  rewrite Nat.sub_diag. reflexivity.
Qed.

(** ** The legs of the polyline *)

Lemma legs_snoc (cs : list Vector.t) :
  forall k p0 p1,
    legs k ((cs ++ [p0]) ++ [p1]) =
    legs k (cs ++ [p0]) ++ [Seg.mk p0 (p1 - p0)%vec (k + Z.of_nat (length cs))].
Proof.
  induction cs as [| a cs IH]; intros k p0 p1.
  - cbn. rewrite Z.add_0_r. reflexivity.
  - specialize (IH (k + 1)%Z p0 p1).
    replace (k + Z.of_nat (length (a :: cs)))%Z
      with (k + 1 + Z.of_nat (length cs))%Z by (cbn [length]; lia).
    change ((a :: cs) ++ [p0]) with (a :: (cs ++ [p0])).
    change ((a :: cs ++ [p0]) ++ [p1]) with (a :: ((cs ++ [p0]) ++ [p1])).
    destruct cs as [| b cs']; cbn [app legs] in *; rewrite IH; reflexivity.
Qed.

Lemma legs_length (cs : list Vector.t) :
  forall k p0, length (legs k (cs ++ [p0])) = length cs.
Proof.
  induction cs as [| a cs IH]; intros k p0; [reflexivity |].
  specialize (IH (k + 1)%Z p0).
  change ((a :: cs) ++ [p0]) with (a :: (cs ++ [p0])).
  destruct cs as [| b cs']; cbn [app legs length] in *; [reflexivity |].
  rewrite IH. reflexivity.
Qed.

Lemma skipn_app_exact {A : Type} (l more : list A) :
  skipn (length l) (l ++ more) = more.
Proof. induction l; simpl; auto. Qed.

Lemma fold_left_Rplus (l : list R) (a : R) :
  fold_left Rplus l a = a + fold_right Rplus 0 l.
Proof.
  revert a. induction l as [| b l IH]; intros a; simpl; [ring |].
  rewrite IH. ring.
Qed.

Lemma length_sub_sym (a b : Vector.t) :
  Vector.length (a - b)%vec = Vector.length (b - a)%vec.
Proof.
  unfold Vector.length. f_equal. destruct a, b.
  cbv [Vector.dot Vector.sub Vector.x Vector.y Vector.z]. ring.
Qed.

Lemma pipe_len_legs (cs : list Vector.t) :
  forall k, FloorGenerator.pipe_len cs = total_length (legs k cs).
Proof.
  unfold FloorGenerator.pipe_len, total_length.
  intros k. rewrite fold_left_Rplus, Rplus_0_l. revert k.
  induction cs as [| a cs IH]; intros k; [reflexivity |].
  destruct cs as [| b cs']; [reflexivity |].
  specialize (IH (k + 1)%Z).
  cbn [tl combine map fold_right legs Seg.v fst snd] in *.
  rewrite IH, length_sub_sym. reflexivity.
Qed.

(** ** Invariants of a run *)

Lemma moved_segs pf pf' :
  moved pf pf' ->
  exists cs p0 p1,
    coords pf = cs ++ [p0] /\ coords pf' = (cs ++ [p0]) ++ [p1] /\
    p1 = Turtle.p (turtle pf') /\
    segs pf' = segs pf ++ [Seg.mk p0 (p1 - p0)%vec (Tree.ngeoms (tree pf))].
Proof.
  intros (p0 & d & w & Hg & Hc & Ht & Htu & _).
  apply getitem_last_inv in Hg. destruct Hg as [cs Hcs].
  exists cs, p0, (Turtle.p (turtle pf) + d)%vec.
  split; [exact Hcs |]. split; [rewrite Hc, Hcs; reflexivity |].
  split; [rewrite Htu; reflexivity |].
  unfold segs. rewrite Ht. reflexivity.
Qed.

Lemma next_legs (B : list Seg.t) pf r pf' :
  segs pf = B ++ legs (Z.of_nat (length B)) (coords pf) ->
  next pf = Ok (r, pf') ->
  segs pf' = B ++ legs (Z.of_nat (length B)) (coords pf').
Proof.
  intros Hinv H. apply next_moves in H. destruct H as [(Hc & Ht & _) | H].
  - unfold segs in *. rewrite Hc, Ht. exact Hinv.
  - apply moved_segs in H. destruct H as (cs & p0 & p1 & Hcs & Hc' & _ & Hs).
    rewrite Hs, Hc', legs_snoc, app_assoc. f_equal; [congruence |].
    f_equal. f_equal. unfold Tree.ngeoms. fold (segs pf).
    rewrite Hinv, Hcs, length_app, legs_length. lia.
Qed.

Lemma reachable_legs (B : list Seg.t) pf pf' :
  segs pf = B ++ legs (Z.of_nat (length B)) (coords pf) ->
  reachable pf pf' ->
  segs pf' = B ++ legs (Z.of_nat (length B)) (coords pf').
Proof.
  intros Hinv H. induction H as [| q q' r Hq IH Hn]; [exact Hinv |].
  eapply next_legs; eauto.
Qed.

Lemma reachable_prefix pf pf' :
  reachable pf pf' -> exists more, coords pf' = coords pf ++ more.
Proof.
  intros H. induction H as [| q q' r Hq [more IH] Hn].
  - exists []. rewrite app_nil_r. reflexivity.
  - apply next_moves in Hn. destruct Hn as [(Hc & _) | Hm].
    + exists more. congruence.
    + destruct Hm as (p0 & d & w & _ & Hc & _).
      exists (more ++ [(Turtle.p (turtle q) + d)%vec]).
      rewrite Hc, IH, app_assoc. reflexivity.
Qed.

Lemma reachable_settings pf pf' : reachable pf pf' -> same_settings pf pf'.
Proof.
  intros H. induction H as [| q q' r Hq IH Hn]; [apply same_settings_refl |].
  apply next_step in Hn. eapply same_settings_trans; [exact IH | apply Hn].
Qed.

Lemma started_state tr sp b cw pf0 p v cap :
  init tr sp b cw = Ok pf0 ->
  let pf := set_max_iter (start pf0 p v) cap in
  segs pf = Tree.geoms tr /\ coords pf = [p] /\
  n_boundarys pf = Tree.ngeoms tr /\
  turtle pf = Turtle.relocate (turtle pf0) p v /\
  Turtle.p (turtle pf0) = Vector.mk 0 0 0.
Proof.
  unfold init. intros H. step_ok H; step_ok H. cbv zeta. repeat split.
Qed.

Lemma square_run :
  exists pf0 pf2,
    init square_tree 0.3 true true = Ok pf0 /\
    reachable (set_max_iter (start pf0 square_p square_v) 1) pf2 /\
    drive 2 (set_max_iter (start pf0 square_p square_v) 1) = Some (Ok pf2) /\
    length (coords pf2) = 2%nat /\ iter pf2 = 2%Z /\ max_iter pf2 = 1.
Proof.
  destruct square_started as (pf0 & Hi & He).
  destruct (square_two_calls (Vector.mk 0 0 0)
              (Seg.new (Vector.mk 0 0 0) (Vector.mk 1 0 0))
              (Seg.new (Vector.mk 0 0 0) (Vector.mk 1 0 0))
              (Seg.new (Vector.mk 0 0 0) (Vector.mk 1 0 0)))
    as (pf1 & pf2 & _ & _ & Hd & Hl & Hit & Hmx & _ & Hr).
  exists pf0, pf2. rewrite He. repeat split; assumption.
Qed.

(** X14: throughout a run the path segments of the tree are the legs
    of the polyline.  From the start of the driver on, after any number
    of calls of [next], the tree holds the boundary segments followed
    by one segment per leg of the polyline, in order, each from a point
    to the next under consecutive indices from [n_boundarys] on; the
    polyline begins with the start point. *)
Theorem path_follows_polyline (tr : Tree.t) (sp : R) (b cw : bool)
    (pf0 : PathFinder.t) (p v : Vector.t) (cap : R) (pf' : PathFinder.t) :
  init tr sp b cw = Ok pf0 ->
  reachable (set_max_iter (start pf0 p v) cap) pf' ->
  segs pf' = Tree.geoms tr ++ legs (n_boundarys pf') (coords pf') /\
  (exists more, coords pf' = p :: more) /\
  n_boundarys pf' = Tree.ngeoms tr /\
  (Tree.ngeoms (tree pf') - n_boundarys pf' = Z.of_nat (length (coords pf')) - 1)%Z.
Proof.
  intros Hi Hr.
  destruct (started_state tr sp b cw pf0 p v cap Hi) as (Hs & Hc & Hn & _).
  pose proof (reachable_settings _ _ Hr) as (_ & Hnb & _).
  pose proof (reachable_prefix _ _ Hr) as [more Hm]. rewrite Hc in Hm.
  assert (Hl : segs pf' =
               Tree.geoms tr ++ legs (Z.of_nat (length (Tree.geoms tr))) (coords pf')).
  { apply (reachable_legs (Tree.geoms tr)) in Hr; [exact Hr |].
    rewrite Hs, Hc. cbn [legs]. rewrite app_nil_r. reflexivity. }
  assert (Hnb' : n_boundarys pf' = Tree.ngeoms tr) by congruence.
  split; [rewrite Hnb'; exact Hl |].
  split; [exists more; exact Hm |]. split; [exact Hnb' |].
  rewrite Hnb'. unfold Tree.ngeoms at 1. fold (segs pf'). rewrite Hl, length_app.
  destruct (coords pf') as [| c cs] using rev_ind; [discriminate Hm |].
  rewrite legs_length, length_app. unfold Tree.ngeoms. cbn [length]. lia.
Qed.

(** On the square: after the two calls of the capped run the tree holds
    the four edges and the legs of the polyline. *)
Example path_follows_polyline_witness :
  exists pf0 pf',
    init square_tree 0.3 true true = Ok pf0 /\
    reachable (set_max_iter (start pf0 square_p square_v) 1) pf' /\
    length (coords pf') = 2%nat /\
    segs pf' = square_edges ++ legs (n_boundarys pf') (coords pf').
Proof.
  destruct square_run as (pf0 & pf2 & Hi & Hr & _ & Hl & _).
  exists pf0, pf2. split; [exact Hi |]. split; [exact Hr |]. split; [exact Hl |].
  exact (proj1 (path_follows_polyline square_tree 0.3 true true pf0 square_p
                  square_v 1 pf2 Hi Hr)).
Defined.

(** X15: the pipe length the driver reports for the polyline of a run,
    the sum of the distances between consecutive points, is the total
    length of the path segments the tree holds after the boundary. *)
Theorem pipe_len_is_path_length (tr : Tree.t) (sp : R) (b cw : bool)
    (pf0 : PathFinder.t) (p v : Vector.t) (cap : R) (pf' : PathFinder.t) :
  init tr sp b cw = Ok pf0 ->
  reachable (set_max_iter (start pf0 p v) cap) pf' ->
  FloorGenerator.pipe_len (coords pf')
  = total_length (skipn (length (Tree.geoms tr)) (segs pf')).
Proof.
  intros Hi Hr.
  destruct (started_state tr sp b cw pf0 p v cap Hi) as (Hs & Hc & _).
  apply (reachable_legs (Tree.geoms tr)) in Hr.
  - rewrite Hr, skipn_app_exact. apply pipe_len_legs.
  - rewrite Hs, Hc. cbn [legs]. rewrite app_nil_r. reflexivity.
Qed.

(** On the square: after the two calls of the capped run the pipe length
    is the total length of the segments behind the four edges. *)
Example pipe_len_is_path_length_witness :
  exists pf0 pf',
    init square_tree 0.3 true true = Ok pf0 /\
    reachable (set_max_iter (start pf0 square_p square_v) 1) pf' /\
    FloorGenerator.pipe_len (coords pf')
    = total_length (skipn 4 (segs pf')).
Proof.
  destruct square_run as (pf0 & pf2 & Hi & Hr & _).
  exists pf0, pf2. split; [exact Hi |]. split; [exact Hr |].
  exact (pipe_len_is_path_length square_tree 0.3 true true pf0 square_p
           square_v 1 pf2 Hi Hr).
Defined.

Lemma next_planar pf r pf' :
  planar pf -> next pf = Ok (r, pf') -> planar pf'.
Proof.
  intros (Hs & Hc & Hp & Hf) H.
  pose proof (next_moves _ _ _ H) as [(Ec & Et & Eu) | Hm].
  - unfold planar, segs. rewrite Ec, Et, Eu. repeat split; assumption.
  - pose proof (moved_segs _ _ Hm) as (cs & p0 & p1 & Hcs & Hc' & Hp1 & Hs').
    destruct Hm as (q0 & d & w & Hg & Hcd & _ & Htu & Hd & Hw).
    assert (Hp' : Vector.flat (Turtle.p (turtle pf'))).
    { rewrite Htu. cbn [Turtle.rotate Turtle.move Turtle.p].
      apply add_flat; [exact Hp | apply Hd, Hf]. }
    assert (H0 : Vector.flat p0).
    { rewrite Forall_forall in Hc. apply Hc. rewrite Hcs.
      apply in_or_app. right. left. reflexivity. }
    unfold planar. rewrite Hs', Hc', <- Hcs.
    split; [| split; [| split]].
    + apply Forall_app. split; [exact Hs |]. constructor; [| constructor].
      split; cbn [Seg.p Seg.v]; [exact H0 |].
      apply sub_flat; [rewrite Hp1; exact Hp' | exact H0].
    + apply Forall_app. split; [exact Hc |]. constructor; [| constructor].
      rewrite Hp1. exact Hp'.
    + exact Hp'.
    + rewrite Htu. exact Hw.
Qed.

Lemma reachable_planar pf pf' : planar pf -> reachable pf pf' -> planar pf'.
Proof.
  intros Hinv H. induction H as [| q q' r Hq IH Hn]; [exact Hinv |].
  eapply next_planar; eauto.
Qed.

(** X16: a run stays in the plane.  When the boundary segments of the
    tree, the start point and the start heading have a zero third
    coordinate, then after any number of calls of [next] so have all
    segments of the tree, all points of the polyline, the position of
    the turtle and its heading. *)
Theorem run_stays_planar (tr : Tree.t) (sp : R) (b cw : bool)
    (pf0 : PathFinder.t) (p v : Vector.t) (cap : R) (pf' : PathFinder.t) :
  init tr sp b cw = Ok pf0 ->
  Forall Seg.flat (Tree.geoms tr) -> Vector.flat p -> Vector.flat v ->
  reachable (set_max_iter (start pf0 p v) cap) pf' ->
  planar pf'.
Proof.
  intros Hi Hb Hp Hv Hr.
  destruct (started_state tr sp b cw pf0 p v cap Hi) as (Hs & Hc & _ & Htu & Hp0).
  apply (reachable_planar _ _) in Hr; [exact Hr |].
  unfold planar. rewrite Hs, Hc, Htu.
  split; [exact Hb |]. split; [constructor; [exact Hp | constructor] |].
  cbn [Turtle.relocate Turtle.rotate Turtle.move Turtle.p Turtle.front_v].
  split; [| exact Hv].
  rewrite Hp0. apply add_flat; [reflexivity |]. apply sub_flat; [exact Hp | reflexivity].
Qed.

Lemma square_edges_flat : Forall Seg.flat (Tree.geoms square_tree).
Proof. repeat constructor. Qed.

(** On the square: the capped run ends in the plane. *)
Example run_stays_planar_witness :
  exists pf0 pf',
    init square_tree 0.3 true true = Ok pf0 /\
    reachable (set_max_iter (start pf0 square_p square_v) 1) pf' /\
    length (coords pf') = 2%nat /\ planar pf'.
Proof.
  destruct square_run as (pf0 & pf2 & Hi & Hr & _ & Hl & _).
  exists pf0, pf2. split; [exact Hi |]. split; [exact Hr |]. split; [exact Hl |].
  apply (run_stays_planar square_tree 0.3 true true pf0 square_p square_v 1 pf2
           Hi square_edges_flat); [| | exact Hr]; reflexivity.
Defined.

Lemma next_on_last pf r pf' :
  getitem (coords pf) (-1) = Ok (Turtle.p (turtle pf)) /\ aligned (turtle pf) ->
  next pf = Ok (r, pf') ->
  getitem (coords pf') (-1) = Ok (Turtle.p (turtle pf')) /\ aligned (turtle pf').
Proof.
  intros [Hg Ha] H. apply next_moves in H. destruct H as [(Ec & _ & Eu) | Hm].
  - rewrite Ec, Eu. split; assumption.
  - destruct Hm as (q0 & d & w & _ & Hcd & _ & Htu & _).
    rewrite Hcd, Htu. split; [apply getitem_last_snoc | apply rotate_aligned].
Qed.

(** X17: the turtle stands on the last point of the polyline.  From
    the start of the driver on, after any number of calls of [next],
    the position of the turtle is the last point recorded, and its
    probes are aligned with its heading. *)
Theorem turtle_stands_on_last_point (pf0 : PathFinder.t) (p v : Vector.t)
    (cap : R) (pf' : PathFinder.t) :
  reachable (set_max_iter (start pf0 p v) cap) pf' ->
  getitem (coords pf') (-1) = Ok (Turtle.p (turtle pf')) /\
  aligned (turtle pf').
Proof.
  intros H.
  remember (set_max_iter (start pf0 p v) cap) as pf eqn:E.
  induction H as [| q q' r Hq IH Hn].
  - subst pf. cbn [set_max_iter start set_coords set_turtle coords turtle].
    rewrite getitem_last_snoc. split; [| apply rotate_aligned].
    f_equal. cbn [Turtle.relocate Turtle.rotate Turtle.move Turtle.p].
    destruct p, (Turtle.p (turtle pf0)). apply vector_eq;
      cbv [Vector.add Vector.sub Vector.x Vector.y Vector.z]; ring.
  - eapply next_on_last; eauto.
Qed.

(** On the square: after the two calls of the capped run the turtle stands
    on the second point of the polyline. *)
Example turtle_stands_on_last_point_witness :
  exists pf0 pf',
    reachable (set_max_iter (start pf0 square_p square_v) 1) pf' /\
    length (coords pf') = 2%nat /\
    getitem (coords pf') (-1) = Ok (Turtle.p (turtle pf')).
Proof.
  destruct square_run as (pf0 & pf2 & _ & Hr & _ & Hl & _).
  exists pf0, pf2. split; [exact Hr |]. split; [exact Hl |].
  exact (proj1 (turtle_stands_on_last_point pf0 square_p square_v 1 pf2 Hr)).
Defined.

(** ** The counter and the run flag *)

(** X18: the loop of the driver lets the counter pass the cap by one
    at most.  If the counter is within the cap when the loop starts,
    then when the loop ends it is at most the cap plus one; the cap
    itself is not changed, and the counter never goes down. *)
Theorem counter_overshoots_by_one (n : nat) (pf pf' : PathFinder.t) :
  IZR (iter pf) <= max_iter pf ->
  drive n pf = Some (Ok pf') ->
  IZR (iter pf') <= max_iter pf + 1 /\ max_iter pf' = max_iter pf /\
  (iter pf <= iter pf')%Z.
Proof.
  revert pf pf'.
  induction n as [| n IH]; intros pf pf' Hle H; [discriminate H |].
  cbn [drive] in H.
  destruct (next pf) as [[[|] q] | e] eqn:Hn; [| | discriminate H].
  - pose proof (next_step _ _ _ Hn) as (Hs & _ & _ & _ & Ht).
    destruct (Ht eq_refl) as (Hi & Hcap & _).
    destruct Hs as (_ & _ & _ & Hmx).
    destruct (IH q pf' Hcap H) as (H1 & H2 & H3).
    rewrite Hmx in H1, H2. split; [exact H1 |]. split; [exact H2 | lia].
  - injection H as <-.
    pose proof (next_step _ _ _ Hn) as (Hs & _ & Hi & _).
    destruct Hs as (_ & _ & _ & Hmx).
    split; [| split; [exact Hmx |]].
    + destruct Hi as [-> | ->]; [lra |]. rewrite plus_IZR. lra.
    + destruct Hi as [-> | ->]; lia.
Qed.

(** On the square: the run capped at 1 ends with the counter at 2, the
    bound itself. *)
Example counter_overshoots_by_one_witness :
  exists pf0 pf',
    drive 2 (set_max_iter (start pf0 square_p square_v) 1) = Some (Ok pf') /\
    iter pf' = 2%Z /\ IZR (iter pf') <= 1 + 1.
Proof.
  destruct square_run as (pf0 & pf2 & Hi & _ & Hd & _ & Hit & _).
  exists pf0, pf2. split; [exact Hd |]. split; [exact Hit |].
  assert (H0 : IZR (iter (set_max_iter (start pf0 square_p square_v) 1))
               <= max_iter (set_max_iter (start pf0 square_p square_v) 1)).
  { destruct (init_nonzero square_tree 0.3 true true) as (q & Hq & _ & _ & _ & Hz & _);
      [lra |].
    rewrite Hi in Hq. injection Hq as <-.
    cbn [set_max_iter start set_coords set_turtle iter max_iter].
    rewrite Hz. lra. }
  exact (proj1 (counter_overshoots_by_one 2 _ pf2 H0 Hd)).
Defined.

Lemma backward_wall_run pf r :
  backward_wall pf = Ok r ->
  match r with
  | Stop pf' => run pf' = false
  | Step pf' _ _ _ _ _ => run pf' = false \/ run pf' = run pf
  end.
Proof.
  unfold backward_wall. intros H. step_ok H.
  destruct (Seg.farest_point _ a) as [t0 p0].
  step_ok H. destruct a0 as [pf1 nxt]. apply wall_seg_frame in Hm0. subst pf1.
  step_ok H.
  - step_ok H. left. reflexivity.
  - step_ok H.
    match type of H with
    | (let '(_, _) := ?c in _) = _ => destruct c as [dir side]
    end.
    step_ok H. destruct a1 as [[it t1] idx]. step_ok H.
    + step_ok H. step_ok H. right. reflexivity.
    + rewrite backward_front_is_side in H. cbv zeta in H.
      step_ok H. apply backward_side_spec in H.
      destruct r as [pf' | pf' bw nxt' t' n' dir'].
      * apply scratchless_fields in H. cbn in H. intuition.
      * destruct H as [H _]. apply scratchless_fields in H. cbn in H.
        right. intuition.
Qed.

Lemma backward_run pf r pf' :
  backward pf = Ok (r, pf') -> run pf' = false \/ run pf' = run pf.
Proof.
  unfold backward. intros H. step_ok H. apply backward_wall_run in Hm.
  destruct a as [pf1 | pf1 bw nxt t0 n dir].
  - step_ok H. left. exact Hm.
  - step_ok H. step_ok H. apply draw_spec in Hm0.
    destruct Hm0 as (_ & _ & _ & Hr & _). cbn in Hr. rewrite Hr. exact Hm.
Qed.

Lemma next_tail_run (res : bool) (q : PathFinder.t) :
  run q = false ->
  fst (next_tail res q) = false /\ run (snd (next_tail res q)) = false.
Proof.
  intros Hq. unfold next_tail.
  destruct res;
    match goal with |- context [Num.ltb ?a ?b] => destruct (Num.ltb a b) end;
    cbn [fst snd]; split; try reflexivity; exact Hq.
Qed.

(** X19: a finished run stays finished.  Once the run flag is cleared,
    every further call of [next] answers [False] and leaves the flag
    cleared: neither [forward] nor [backward] sets it again. *)
Theorem finished_run_stays_finished (pf : PathFinder.t) (r : bool)
    (pf' : PathFinder.t) :
  run pf = false -> next pf = Ok (r, pf') -> r = false /\ run pf' = false.
Proof.
  intros Hrun H. unfold next in H. step_ok H.
  - step_ok H. destruct a as [res q]. step_ok H.
    apply forward_step in Hm. destruct Hm as (_ & _ & Hr & _).
    rewrite Hrun in Hr. destruct (next_tail_run res q Hr) as [H1 H2].
    rewrite H in H1, H2. split; assumption.
  - step_ok H.
    + step_ok H. destruct a as [res q]. step_ok H.
      apply backward_run in Hm. rewrite Hrun in Hm.
      assert (Hr : run q = false) by (destruct Hm; assumption).
      destruct (next_tail_run res q Hr) as [H1 H2].
      rewrite H in H1, H2. split; assumption.
    + step_ok H. split; [reflexivity | exact Hrun].
Qed.

(** On the square: an engine whose run flag is cleared answers [False]
    and keeps the flag cleared. *)
Example finished_run_stays_finished_witness :
  let pf := set_run (square_engine 0 square_p e0 e0 e0 square_turtle [square_p] 1)
                    false in
  run pf = false /\
  exists pf', next pf = Ok (false, pf') /\ run pf' = false.
Proof.
  cbv zeta.
  set (pf := set_run (square_engine 0 square_p e0 e0 e0 square_turtle [square_p] 1)
                     false).
  assert (Hr : run pf = false) by reflexivity.
  assert (Hcap : max_iter pf < IZR (iter pf + 1)).
  { change (max_iter pf) with 1. change (iter pf + 1)%Z with 2%Z. lra. }
  pose proof (next_forward pf _ _ eq_refl (forward_over_cap pf Hcap)) as Hn.
  destruct (next_tail false (set_iter pf (iter pf + 1))) as [r q] eqn:Ht.
  destruct (finished_run_stays_finished pf r q Hr Hn) as [-> Hq].
  split; [exact Hr |]. exists q. split; [exact Hn | exact Hq].
Defined.

(** ** Edge cases *)

Lemma intersect_loop_nil sg skip :
  forall found acc,
    intersect_loop [] sg skip found acc = Ok acc \/
    intersect_loop [] sg skip found acc = Raise IndexError.
Proof.
  induction found as [| i rest IH]; intros acc; [left; reflexivity |].
  cbn [intersect_loop]. destruct (i =? skip)%Z; [apply IH |].
  rewrite getitem_nil. right. reflexivity.
Qed.

(** X20: on a tree without any segment a step fails with
    [IndexError]: [backward] always, [forward] whenever the counter is
    still within the cap (beyond the cap it answers [False] before it
    looks at the tree). *)
Theorem empty_tree_raises (pf : PathFinder.t) :
  segs pf = [] ->
  backward pf = Raise IndexError /\
  (~ max_iter pf < IZR (iter pf + 1) -> forward pf = Raise IndexError) /\
  (max_iter pf < IZR (iter pf + 1) ->
   forward pf = Ok (false, set_iter pf (iter pf + 1))).
Proof.
  intros He. split; [| split].
  - unfold backward, backward_wall.
    change (segs (set_iter pf (iter pf + 1))) with (segs pf).
    rewrite He, getitem_nil. reflexivity.
  - intros Hcap. unfold forward, forward_wall.
    replace (Num.ltb (max_iter (set_iter pf (iter pf + 1)))
                     (IZR (iter (set_iter pf (iter pf + 1)))))
      with false by (symmetry; apply ltb_false; exact Hcap).
    destruct (last (set_iter pf (iter pf + 1)) <? 0)%Z.
    + unfold intersect.
      change (segs (set_iter pf (iter pf + 1))) with (segs pf). rewrite He.
      match goal with
      | |- context [intersect_loop [] ?sg ?skip ?found ?acc] =>
          destruct (intersect_loop_nil sg skip found acc) as [-> | ->]
      end; [| reflexivity].
      cbn [bind]. change (segs (set_last _ _)) with (segs pf).
      rewrite He, getitem_nil. reflexivity.
    + cbn [bind]. change (segs (set_iter pf (iter pf + 1))) with (segs pf).
      rewrite He, getitem_nil. reflexivity.
  - apply forward_over_cap.
Qed.

(** An engine on a tree without segments: both steps raise
    [IndexError]. *)
Example empty_tree_raises_witness :
  let pf :=
    set_tree (square_engine (-1) square_p e0 e0 e0 square_turtle [square_p] 0)
             (Tree.mk [] 4 4 envelope_query) in
  segs pf = [] /\ backward pf = Raise IndexError /\ forward pf = Raise IndexError.
Proof.
  cbv zeta.
  set (pf := set_tree (square_engine (-1) square_p e0 e0 e0 square_turtle
                                     [square_p] 0)
                      (Tree.mk [] 4 4 envelope_query)).
  assert (He : segs pf = []) by reflexivity.
  destruct (empty_tree_raises pf He) as (Hb & Hf & _).
  split; [exact He |]. split; [exact Hb |]. apply Hf.
  change (max_iter pf) with 1. change (iter pf + 1)%Z with 1%Z. lra.
Defined.

(** X21: an engine that was never started records nothing.  With an
    empty polyline a call of [next] that does not raise leaves the
    polyline empty and the tree and the turtle as they are; a forward
    step that gets as far as recording a point raises [IndexError]
    instead. *)
Theorem unstarted_engine_draws_nothing (pf : PathFinder.t) :
  coords pf = [] ->
  (forall r pf', next pf = Ok (r, pf') -> stayed pf pf' /\ coords pf' = []) /\
  (forall v loc, forward_finish pf v loc = Raise IndexError).
Proof.
  intros He. split.
  - intros r pf' H. apply next_moves in H.
    destruct H as [Hs | (p0 & d & w & Hg & _)].
    + split; [exact Hs |]. destruct Hs as (Hc & _). congruence.
    + rewrite He, getitem_nil in Hg. discriminate Hg.
  - intros v loc. unfold forward_finish.
    destruct (Num.ltb (l_t loc) 0.5).
    + unfold forward_cap.
      destruct (getitem (segs (set_last pf (l_next loc))) (-1)) as [tail | e] eqn:Hg.
      * cbn [bind]. cbn [set_turtle set_last coords]. rewrite He, getitem_nil.
        reflexivity.
      * apply getitem_raises in Hg. subst e. reflexivity.
    + unfold draw. cbn [set_turtle set_last coords]. rewrite He, getitem_nil.
      reflexivity.
Qed.

(** An engine on the square with an empty polyline: recording the short
    pass raises [IndexError]. *)
Example unstarted_engine_draws_nothing_witness :
  let pf := set_coords (square_engine 0 square_p e0 e0 e0 square_turtle [] 1) [] in
  coords pf = [] /\
  forward_finish pf square_v square_short = Raise IndexError.
Proof.
  cbv zeta. split; [reflexivity |].
  exact (proj2 (unstarted_engine_draws_nothing
                  (set_coords (square_engine 0 square_p e0 e0 e0 square_turtle [] 1) [])
                  eq_refl) square_v square_short).
Defined.

(** X22: a segment stored can be looked up.  After
    [PathFinder.insert] the new path segment is found under the index
    answered and as [segs[-1]], every segment keeps the index it had,
    and [intersect] never answers the new index; after
    [Tree.newSegment] the new boundary segment, which lies in the plane
    and carries the index [-1], is found under the former count. *)
Theorem insert_then_lookup (pf : PathFinder.t) (p0 p1 : Vector.t)
    (tr : Tree.t) (c0 c1 : Vector.t) :
  (let '(pf', i) := insert pf p0 p1 in
   getitem (segs pf') i = Ok (Seg.mk p0 (p1 - p0)%vec i) /\
   getitem (segs pf') (-1) = Ok (Seg.mk p0 (p1 - p0)%vec i) /\
   (forall j s, (0 <= j)%Z -> getitem (segs pf) j = Ok s ->
                getitem (segs pf') j = Ok s) /\
   (forall sg it t0 idx, intersect pf' sg = Ok (it, t0, idx) -> idx <> i)) /\
  (let '(tr', s) := Tree.newSegment tr c0 c1 in
   getitem (Tree.geoms tr') (Tree.ngeoms tr) = Ok s /\
   Tree.ngeoms tr' = (Tree.ngeoms tr + 1)%Z /\
   (forall j s', (0 <= j)%Z -> getitem (Tree.geoms tr) j = Ok s' ->
                 getitem (Tree.geoms tr') j = Ok s') /\
   Seg.flat s /\ Seg.idx s = (-1)%Z /\
   Seg.p s = Vector.mk (Vector.x c0) (Vector.y c0) 0 /\
   Vector.x (Seg.p s + Seg.v s)%vec = Vector.x c1 /\
   Vector.y (Seg.p s + Seg.v s)%vec = Vector.y c1).
Proof.
  split.
  - unfold insert. cbn [segs set_tree tree Tree.insert Tree.geoms].
    fold (segs pf). unfold Tree.ngeoms. fold (segs pf).
    split; [apply getitem_app_new |]. split; [apply getitem_last_snoc |].
    split; [intros j s Hj Hg; apply getitem_app_keep; assumption |].
    intros sg it t0 idx H. unfold intersect in H.
    match type of H with
    | intersect_loop _ _ _ ?found _ = _ =>
        apply (intersect_loop_hit_ok _ _ _ found) in H;
          [| auto | split; reflexivity]
    end.
    cbn [hit_ok] in H. unfold Tree.ngeoms, Tree.insert, segs in H.
    cbn [set_tree tree Tree.geoms] in H. unfold segs.
    rewrite length_app in H. cbn [length] in H.
    destruct it.
    + destruct H as [Hne _]. intros ->. apply Hne. lia.
    + destruct H as [-> _]. lia.
  - unfold Tree.newSegment, Tree.insert. cbn [Tree.geoms]. unfold Tree.ngeoms.
    cbn [Tree.geoms].
    split; [apply getitem_app_new |].
    split; [rewrite length_app; cbn [length]; lia |].
    split; [intros j s Hj Hg; apply getitem_app_keep; assumption |].
    split.
    { split; [reflexivity |].
      cbv [Seg.new Seg.v Vector.flat Vector.sub Vector.z]. ring. }
    split; [reflexivity |]. split; [reflexivity |].
    cbv [Seg.new Seg.p Seg.v Vector.add Vector.sub Vector.x Vector.y]. split; ring.
Qed.

(** X23: without backward stepping a blocked forward step ends the run
    one call later.  When [forward] answers [False] and backward
    stepping is not allowed, [next] turns the mode to backward, and the
    following call of [next] answers [False] without changing
    anything; the run flag is never cleared on this way. *)
Theorem blocked_without_backward (pf pf1 : PathFinder.t) :
  is_forward pf = true -> allow_backward pf = false ->
  forward pf = Ok (false, pf1) ->
  let q := set_is_forward pf1 false in
  (exists r, next pf = Ok (r, q)) /\
  next q = Ok (false, q) /\
  run q = run pf.
Proof.
  intros Hf Hb H. cbv zeta.
  pose proof (forward_step _ _ _ H) as (_ & (_ & _ & Hab & _) & Hr & Hf1 & _).
  split; [| split].
  - rewrite (next_forward pf _ _ Hf H). unfold next_tail.
    rewrite Hf1, Hf. cbn [negb].
    match goal with |- context [Num.ltb ?a ?b] => destruct (Num.ltb a b) end;
      eexists; reflexivity.
  - unfold next. cbn [set_is_forward is_forward allow_backward].
    rewrite Hab, Hb. reflexivity.
  - cbn [set_is_forward run]. exact Hr.
Qed.

(** On the square without backward stepping: beyond the cap [forward]
    answers [False], and the call of [next] after the mode has turned answers
    [False] and changes nothing. *)
Example blocked_without_backward_witness :
  let pf :=
    PathFinder.mk square_tree 0.3 4 0 square_p e0 e0 e0 square_turtle [square_p]
                  true false true 1 1 in
  let q := set_is_forward (set_iter pf 2) false in
  forward pf = Ok (false, set_iter pf 2) /\ next q = Ok (false, q).
Proof.
  cbv zeta.
  set (pf := PathFinder.mk square_tree 0.3 4 0 square_p e0 e0 e0 square_turtle
                           [square_p] true false true 1 1).
  assert (Hcap : max_iter pf < IZR (iter pf + 1)).
  { change (max_iter pf) with 1. change (iter pf + 1)%Z with 2%Z. lra. }
  pose proof (forward_over_cap pf Hcap) as H.
  change (iter pf + 1)%Z with 2%Z in H.
  split; [exact H |].
  exact (proj1 (proj2 (blocked_without_backward pf (set_iter pf 2)
                         eq_refl eq_refl H))).
Defined.

(** ** Rounding the corners of the polyline *)

Lemma getitem_middle {A : Type} (l1 l2 : list A) (a : A) :
  getitem (l1 ++ a :: l2) (Z.of_nat (length l1)) = Ok a.
Proof.
  apply getitem_nat. rewrite nth_error_app2 by lia.
  rewrite Nat.sub_diag. reflexivity.
Qed.

Lemma getitem_last_cons {A : Type} (l : list A) (a d : A) :
  getitem (a :: l) (-1) = Ok (List.last (a :: l) d).
Proof.
  destruct (exists_last (l := a :: l)) as (l' & b & E); [discriminate |].
  rewrite E, getitem_last_snoc, last_last. reflexivity.
Qed.

Lemma bevel_loop_arcs corner coords radius a :
  forall suf pre q verts,
    coords = (pre ++ [q]) ++ suf ->
    FloorGenerator.bevel_loop corner coords radius a
      (Z.of_nat (length coords) - 1)
      (FloorGenerator.enumerate (Z.of_nat (length (pre ++ [q]))) suf) verts
    = (m <- arcs corner radius a (corners (q :: suf)) ;; Ok (verts ++ m)).
Proof.
  induction suf as [| co rest IH]; intros pre q verts E.
  - cbn. rewrite app_nil_r. reflexivity.
  - cbn [FloorGenerator.enumerate FloorGenerator.bevel_loop].
    replace (0 <? Z.of_nat (length (pre ++ [q])))%Z with true
      by (symmetry; apply Z.ltb_lt; rewrite length_app; cbn [length]; lia).
    cbn [andb].
    destruct rest as [| nx rest'].
    + replace (Z.of_nat (length (pre ++ [q])) <? Z.of_nat (length coords) - 1)%Z
        with false
        by (symmetry; apply Z.ltb_ge; rewrite E, !length_app; cbn [length]; lia).
      cbn. rewrite app_nil_r. reflexivity.
    + replace (Z.of_nat (length (pre ++ [q])) <? Z.of_nat (length coords) - 1)%Z
        with true
        by (symmetry; apply Z.ltb_lt; rewrite E, !length_app; cbn [length]; lia).
      replace (Z.of_nat (length (pre ++ [q])) - 1)%Z with (Z.of_nat (length pre))
        by (rewrite length_app; cbn [length]; lia).
      replace (getitem coords (Z.of_nat (length pre))) with (Ok q)
        by (rewrite E, <- !app_assoc; cbn [app]; symmetry; apply getitem_middle).
      cbn [bind].
      replace (Z.of_nat (length (pre ++ [q])) + 1)%Z
        with (Z.of_nat (length ((pre ++ [q]) ++ [co])))
        by (rewrite !length_app; cbn [length]; lia).
      assert (E' : coords = ((pre ++ [q]) ++ [co]) ++ nx :: rest')
        by (rewrite E, <- !app_assoc; reflexivity).
      replace (getitem coords (Z.of_nat (length ((pre ++ [q]) ++ [co]))))
        with (Ok nx)
        by (rewrite E' at 1; symmetry; apply getitem_middle).
      cbn [bind].
      change (corners (q :: co :: nx :: rest'))
        with ((co, q, nx) :: corners (co :: nx :: rest')).
      cbn [arcs].
      destruct (corner co q nx radius a) as [arc | e]; [| reflexivity].
      cbn [bind]. rewrite (IH (pre ++ [q]) co (verts ++ arc) E').
      destruct (arcs corner radius a (corners (co :: nx :: rest'))) as [m | e];
        [| reflexivity].
      cbn [bind]. rewrite app_assoc. reflexivity.
Qed.

Lemma bevel_value
    (corner : Vector.t -> Vector.t -> Vector.t -> R -> R -> result (list Vector.t))
    (coords : list Vector.t) (radius a : R) :
  FloorGenerator.bevel corner coords radius a =
  match coords with
  | [] => Raise IndexError
  | c0 :: _ =>
      m <- arcs corner radius a (corners coords) ;;
      Ok (c0 :: m ++ [List.last coords c0])
  end.
Proof.
  destruct coords as [| c0 rest]; [reflexivity |].
  unfold FloorGenerator.bevel.
  change (getitem (c0 :: rest) 0) with (Ok c0). cbn [bind].
  cbn [FloorGenerator.enumerate FloorGenerator.bevel_loop].
  change (0 <? 0)%Z with false. cbn [andb].
  pose proof (bevel_loop_arcs corner (c0 :: rest) radius a rest [] c0 [c0] eq_refl)
    as P.
  change (Z.of_nat (length ([] ++ [c0]))) with (0 + 1)%Z in P.
  rewrite P.
  destruct (arcs corner radius a (corners (c0 :: rest))) as [m | e];
    [| reflexivity].
  cbn [bind]. rewrite (getitem_last_cons rest c0 c0). reflexivity.
Qed.

(** X24: [bevel] keeps the two ends of the polyline and rounds every
    point in between.  On an empty polyline it raises [IndexError]; on
    a polyline that begins with [c0] it answers [c0], then, for every
    inner point in order, what [roundedCorner] adds for that point with
    the point before and the point after, then the last point; it
    raises what [roundedCorner] raises first.  A polyline of one point
    comes back as that point twice, a polyline of two points as it
    is. *)
Theorem bevel_rounds_inner_corners
    (corner : Vector.t -> Vector.t -> Vector.t -> R -> R -> result (list Vector.t))
    (coords : list Vector.t) (radius a : R) :
  FloorGenerator.bevel corner coords radius a =
  match coords with
  | [] => Raise IndexError
  | c0 :: _ =>
      m <- arcs corner radius a (corners coords) ;;
      Ok (c0 :: m ++ [List.last coords c0])
  end /\
  (forall c, FloorGenerator.bevel corner [c] radius a = Ok [c; c]) /\
  (forall c d, FloorGenerator.bevel corner [c; d] radius a = Ok [c; d]).
Proof.
  split; [apply bevel_value |]. split; intros; rewrite bevel_value; reflexivity.
Qed.

Lemma int_nonneg (x : R) : 0 <= x -> (0 <= FloorGenerator.int x)%Z.
Proof.
  intros H. unfold FloorGenerator.int.
  replace (Num.leb 0 x) with true by (symmetry; apply leb_true; exact H).
  unfold Int_part. destruct (archimed x) as [Hu _].
  assert (Hp : (0 < up x)%Z) by (apply lt_IZR; lra). lia.
Qed.

Lemma on_circle (center : Vector.t) (r t0 : R) :
  Vector.length
    ((center + r *: Vector.mk (cos t0) (sin t0) 0) - center)%vec = Rabs r.
Proof.
  apply length_of_square; [apply Rabs_pos |]. rewrite Rabs_sqr_eq.
  pose proof (sin2_cos2 t0) as H. unfold Rsqr in H.
  destruct center as [cx cy cz].
  cbv [Vector.dot Vector.add Vector.sub Vector.scale Vector.x Vector.y Vector.z].
  transitivity (r * r * (sin t0 * sin t0 + cos t0 * cos t0)); [ring |].
  rewrite H. ring.
Qed.

Lemma normalized_flat (a : Vector.t) :
  Vector.flat a -> Vector.flat (Vector.normalized a).
Proof.
  intros H. unfold Vector.normalized.
  destruct (Num.eqb (Vector.length a) 0); [reflexivity | apply scale_flat, H].
Qed.

Lemma sub_self_length (p : Vector.t) : Vector.length (p - p)%vec = 0.
Proof.
  apply length_zero_iff. destruct p. apply vector_eq;
    cbv [Vector.sub Vector.zero Vector.x Vector.y Vector.z]; ring.
Qed.

(** The shape of what [roundedCorner] answers: [ZeroDivisionError], or
    points spread on a circle. *)
Lemma roundedCorner_shape (atan2 : R -> R -> R) (tan : R -> R)
    (p p1 p2 : Vector.t) (radius a : R) :
  FloorGenerator.roundedCorner atan2 tan p p1 p2 radius a
  = Raise ZeroDivisionError \/
  exists center r a0 da n,
    p1 <> p /\ p2 <> p /\ a <> 0 /\
    (0 < a -> (0 < n)%nat) /\
    (Vector.flat p -> Vector.flat p1 -> Vector.flat p2 -> Vector.flat center) /\
    FloorGenerator.roundedCorner atan2 tan p p1 p2 radius a
    = Ok (map (fun i : Z =>
                 (center
                  + r *: Vector.mk (cos (a0 + da * IZR i))
                                   (sin (a0 + da * IZR i)) 0)%vec)
              (map Z.of_nat (seq 0 n))).
Proof.
  unfold FloorGenerator.roundedCorner. cbv zeta.
  destruct (Num.eqb (tan _) 0); [left; reflexivity |].
  destruct (Num.eqb (Vector.length (p1 - p)%vec) 0) eqn:E1;
    [destruct (Num.ltb _ _); left; reflexivity |].
  destruct (Num.eqb (Vector.length (p2 - p)%vec) 0) eqn:E2;
    [destruct (Num.ltb _ _); left; reflexivity |].
  destruct (Num.eqb a 0) eqn:Ea;
    [destruct (Num.ltb _ _); left; reflexivity |].
  apply eqb_false in E1, E2, Ea.
  assert (H1 : p1 <> p) by (intros ->; apply E1, sub_self_length).
  assert (H2 : p2 <> p) by (intros ->; apply E2, sub_self_length).
  right.
  match goal with
  | |- context [if Num.ltb ?x ?y then (?s1, ?r1) else (?s2, ?r2)] =>
      destruct (Num.ltb x y)
  end; cbv iota beta;
  match goal with
  | |- context [Ok (map (fun i : Z =>
                           (?c + ?r *: Vector.mk (cos (?a0 + ?da * IZR i)) _ 0)%vec)
                        (map Z.of_nat (seq 0 (Z.to_nat (?st + 1)))))] =>
      exists c, r, a0, da, (Z.to_nat (st + 1));
      (split; [exact H1 |]); (split; [exact H2 |]); (split; [exact Ea |]);
      (split;
       [intros Ha;
        assert (Hs : (0 <= st)%Z)
          by (apply int_nonneg; apply Rmult_le_pos;
              [apply Rabs_pos | left; apply Rinv_0_lt_compat; exact Ha]);
        lia |]);
      (split; [| reflexivity]);
      intros Fp Fp1 Fp2;
      apply add_flat; [exact Fp |];
      apply scale_flat, normalized_flat, add_flat;
      apply scale_flat, sub_flat; assumption
  end.
Qed.

(** X25: [roundedCorner] raises nothing but [ZeroDivisionError], and
    raises it whenever a neighbour coincides with the corner or the
    angular step [a] is zero.  Otherwise the points it adds lie on one
    circle, all at the same distance from one centre; there is at
    least one of them when [a] is positive, and they lie in the plane
    when the corner and its neighbours do. *)
Theorem roundedCorner_arc (atan2 : R -> R -> R) (tan : R -> R)
    (p p1 p2 : Vector.t) (radius a : R) :
  (forall e,
     FloorGenerator.roundedCorner atan2 tan p p1 p2 radius a = Raise e ->
     e = ZeroDivisionError) /\
  (p1 = p \/ p2 = p \/ a = 0 ->
   FloorGenerator.roundedCorner atan2 tan p p1 p2 radius a
   = Raise ZeroDivisionError) /\
  (forall verts,
     FloorGenerator.roundedCorner atan2 tan p p1 p2 radius a = Ok verts ->
     p1 <> p /\ p2 <> p /\ a <> 0 /\
     (exists center r,
        Forall (fun q => Vector.length (q - center)%vec = Rabs r) verts) /\
     (0 < a -> verts <> []) /\
     (Vector.flat p -> Vector.flat p1 -> Vector.flat p2 ->
      Forall Vector.flat verts)).
Proof.
  destruct (roundedCorner_shape atan2 tan p p1 p2 radius a)
    as [-> | (center & r & a0 & da & n & H1 & H2 & Ha & Hn & Hf & ->)].
  - split; [intros e H; injection H as <-; reflexivity |].
    split; [reflexivity | discriminate].
  - split; [discriminate |].
    split; [intros [E | [E | E]]; contradiction |].
    intros verts H. injection H as <-.
    split; [exact H1 |]. split; [exact H2 |]. split; [exact Ha |].
    split; [| split].
    + exists center, r. apply Forall_forall. intros q Hq.
      apply in_map_iff in Hq. destruct Hq as (i & <- & _). apply on_circle.
    + intros Hp. specialize (Hn Hp). destruct n as [| n]; [lia | discriminate].
    + intros Fp Fp1 Fp2. apply Forall_forall. intros q Hq.
      apply in_map_iff in Hq. destruct Hq as (i & <- & _).
      apply add_flat; [apply Hf; assumption |].
      unfold Vector.flat. cbv [Vector.scale Vector.z]. ring.
Qed.

(** ** Steps without another wall *)

(** X26: the end condition of [backward].  When [wall_seg] finds no
    segment other than the wall followed at the far end of that wall,
    [backward] clears the run flag and still records a point: the
    turtle goes to the far end of the wall, as far as [farest_point]
    says, turns along the normal of the wall and then right; the answer
    of [backward] is [True], [last] is [-1], and [next] answers
    [False]. *)
Theorem backward_end_condition (pf : PathFinder.t) (sg : Seg.t) (t0 : R)
    (p0 c : Vector.t) (q : PathFinder.t) :
  getitem (segs pf) (last pf) = Ok sg ->
  Seg.farest_point (Turtle.front (turtle pf)) sg = (t0, p0) ->
  wall_seg (set_iter pf (iter pf + 1)) p0 = Ok (q, (-1)%Z) ->
  getitem (coords pf) (-1) = Ok c ->
  exists pf',
    backward pf = Ok (true, pf') /\
    run pf' = false /\ last pf' = (-1)%Z /\ iter pf' = (iter pf + 1)%Z /\
    coords pf' =
    coords pf ++ [(Turtle.p (turtle pf) + t0 *: Turtle.front_v (turtle pf))%vec] /\
    turtle pf' =
    Turtle.turn_right
      (Turtle.rotate
         (Turtle.move (turtle pf) (t0 *: Turtle.front_v (turtle pf)))
         (fst (normal pf sg))) /\
    fst (next_tail true pf') = false.
Proof.
  intros Hg Hf Hw Hc.
  pose proof (wall_seg_frame _ _ _ _ Hw) as ->.
  unfold backward, backward_wall.
  change (segs (set_iter pf (iter pf + 1))) with (segs pf).
  change (last (set_iter pf (iter pf + 1))) with (last pf).
  rewrite Hg. cbn [bind].
  change (turtle (set_iter pf (iter pf + 1))) with (turtle pf).
  rewrite Hf, Hw. cbn [bind]. change (-1 =? -1)%Z with true. cbv iota.
  cbn [bind]. unfold draw.
  cbn [set_turtle set_last set_run set_pt set_iter coords turtle].
  rewrite Hc. cbn [bind].
  eexists. split; [reflexivity |].
  split; [reflexivity |]. split; [reflexivity |]. split; [reflexivity |].
  split; [reflexivity |]. split; [reflexivity |].
  unfold next_tail. cbn [run].
  match goal with |- context [Num.ltb ?a ?b] => destruct (Num.ltb a b) end;
    reflexivity.
Qed.

Lemma lone_wall_seg pt0 s1 s2 s3 tu cs rn bk fw it mx :
  wall_seg
    (PathFinder.mk (Tree.mk [e0] 4 4 envelope_query) 0.3 1 0 pt0 s1 s2 s3 tu cs
                   rn bk fw it mx)
    square_corner
  = Ok (PathFinder.mk (Tree.mk [e0] 4 4 envelope_query) 0.3 1 0 square_corner
                      s1 s2 s3 tu cs rn bk fw it mx, (-1)%Z).
Proof.
  unfold wall_seg.
  cbv beta iota zeta delta
    [set_pt tree spacing n_boundarys last pt seg left right turtle coords run
     allow_backward is_forward iter max_iter Tree.intersects_ext
     Tree.candidates Tree.geoms].
  unfold envelope_query. scan.
  change (envelope_scan (0 + 1) [] _) with (@nil Z).
  cbn [wall_seg_loop last]. rewrite Z.eqb_refl. reflexivity.
Qed.

(** An engine that follows the only segment of its tree: at the far
    end of that segment the run ends with one more point. *)
Example backward_end_condition_witness :
  let pf :=
    PathFinder.mk (Tree.mk [e0] 4 4 envelope_query) 0.3 1 0 square_p e0 e0 e0
                  square_turtle [square_p] true true false 0 10 in
  exists pf',
    backward pf = Ok (true, pf') /\ run pf' = false /\
    length (coords pf') = 2%nat.
Proof.
  cbv zeta.
  set (pf := PathFinder.mk (Tree.mk [e0] 4 4 envelope_query) 0.3 1 0 square_p
                           e0 e0 e0 square_turtle [square_p] true true false 0 10).
  destruct square_farest as [t0 Hf].
  pose proof (lone_wall_seg square_p e0 e0 e0 square_turtle [square_p]
                true true false 1 10) as Hw.
  destruct (backward_end_condition pf e0 t0 square_corner square_p _
              eq_refl Hf Hw eq_refl)
    as (pf' & Hb & Hr & _ & _ & Hc & _).
  exists pf'. split; [exact Hb |]. split; [exact Hr |].
  rewrite Hc. reflexivity.
Defined.

(** X27: [forward] has no test for [wall_seg] answering [-1].  When the
    wall followed is known and no other segment is found at its far
    end, [forward] (within the cap) goes on with [segs[-1]], the
    segment inserted last, as the edge to come: either it answers
    [False] because the heading does not cross the probe line
    ([t == 0]), or it reaches the obstacle checks with [next = -1],
    that segment, its normal, and the probe line at half the normal
    from it, as for a boundary edge. *)
Theorem forward_without_wall (pf : PathFinder.t) (sg tail : Seg.t) (tf : R)
    (p0 : Vector.t) (q : PathFinder.t) :
  (0 <= last pf)%Z -> (0 <= n_boundarys pf)%Z ->
  ~ max_iter pf < IZR (iter pf + 1) ->
  getitem (segs pf) (last pf) = Ok sg ->
  Seg.farest_point (Turtle.front (turtle pf)) sg = (tf, p0) ->
  wall_seg (set_iter pf (iter pf + 1)) p0 = Ok (q, (-1)%Z) ->
  getitem (segs pf) (-1) = Ok tail ->
  exists w,
    forward_wall pf = Ok w /\
    match w with
    | Returned pf' =>
        Seg.t_ (Turtle.front (turtle pf)) (seg pf') = 0 /\
        Seg.v (seg pf') = Seg.v tail
    | Resolved pf' v p0' loc =>
        v = Turtle.front_v (turtle pf) /\ p0' = p0 /\
        l_next loc = (-1)%Z /\ l_seg loc = tail /\
        l_n loc = fst (normal pf tail) /\
        l_p loc = (Seg.p tail + (l_side loc * 0.5) *: l_n loc)%vec /\
        l_t loc = Seg.t_ (Turtle.front (turtle pf)) (Seg.init (seg pf) (l_p loc) (Seg.v tail)) /\
        l_t loc <> 0 /\ l_hit loc = false
    end.
Proof.
  intros Hl Hn Hcap Hg Hf Hw Ht.
  pose proof (wall_seg_frame _ _ _ _ Hw) as ->.
  unfold forward_wall.
  replace (Num.ltb (max_iter (set_iter pf (iter pf + 1)))
                   (IZR (iter (set_iter pf (iter pf + 1)))))
    with false by (symmetry; apply ltb_false; exact Hcap).
  change (last (set_iter pf (iter pf + 1))) with (last pf).
  replace (last pf <? 0)%Z with false by (symmetry; apply Z.ltb_ge; exact Hl).
  cbn [bind].
  change (segs (set_iter pf (iter pf + 1))) with (segs pf).
  change (last (set_iter pf (iter pf + 1))) with (last pf).
  rewrite Hg. cbn [bind].
  change (turtle (set_iter pf (iter pf + 1))) with (turtle pf).
  rewrite Hf, Hw. cbn [bind].
  change (segs (set_pt (set_iter pf (iter pf + 1)) p0)) with (segs pf).
  rewrite Ht. cbn [bind].
  unfold forward_probe_origin.
  cbn [seg_init set_seg set_pt set_iter n_boundarys turtle seg].
  replace (-1 <? n_boundarys pf)%Z with true by (symmetry; apply Z.ltb_lt; lia).
  match goal with
  | |- context [if Num.ltb 0 ?d then (LEFT, -1) else (RIGHT, 1)] =>
      destruct (Num.ltb 0 d)
  end; cbv iota beta;
  match goal with
  | |- context [if Num.eqb ?t 0 then _ else _] => destruct (Num.eqb t 0) eqn:E
  end;
  eexists; (split; [reflexivity |]); cbv iota beta;
  cbn [l_next l_seg l_n l_p l_t l_side l_hit seg Seg.init Seg.v];
  first
    [ split; [apply eqb_true in E; exact E | reflexivity]
    | apply eqb_false in E; repeat split; try reflexivity; exact E ].
Qed.

(** An engine that follows the only segment of its tree: [forward]
    takes that same segment for the edge to come, finds the heading
    parallel to it and answers [False]. *)
Example forward_without_wall_witness :
  let pf :=
    PathFinder.mk (Tree.mk [e0] 4 4 envelope_query) 0.3 1 0 square_p e0 e0 e0
                  square_turtle [square_p] true true true 0 10 in
  exists w, forward_wall pf = Ok w.
Proof.
  cbv zeta.
  set (pf := PathFinder.mk (Tree.mk [e0] 4 4 envelope_query) 0.3 1 0 square_p
                           e0 e0 e0 square_turtle [square_p] true true true 0 10).
  destruct square_farest as [t0 Hf].
  pose proof (lone_wall_seg square_p e0 e0 e0 square_turtle [square_p]
                true true true 1 10) as Hw.
  assert (Hl : (0 <= last pf)%Z) by (cbn; lia).
  assert (Hn : (0 <= n_boundarys pf)%Z) by (cbn; lia).
  assert (Hcap : ~ max_iter pf < IZR (iter pf + 1)).
  { change (max_iter pf) with 10. change (iter pf + 1)%Z with 1%Z. lra. }
  destruct (forward_without_wall pf e0 e0 t0 square_corner _ Hl Hn Hcap
              eq_refl Hf Hw eq_refl) as (w & H & _).
  exists w. exact H.
Defined.

(** ** Scaling the frame *)

(** X28: [scale] multiplies the heading and, in an aligned frame,
    every probe by the factor, and keeps the position and the side;
    scaling by [a] and then by [b] is scaling by [b * a], and scaling
    an aligned frame by 1 leaves it as it is. *)
Theorem scale_scales_probes (tu : Turtle.t) (a b : R) :
  Turtle.p (Turtle.scale tu a) = Turtle.p tu /\
  Turtle.cw (Turtle.scale tu a) = Turtle.cw tu /\
  Turtle.front_v (Turtle.scale tu a) = a *: Turtle.front_v tu /\
  Turtle.scale (Turtle.scale tu a) b = Turtle.scale tu (b * a) /\
  (aligned tu ->
   Turtle.front2_v (Turtle.scale tu a) = a *: Turtle.front2_v tu /\
   Turtle.front3_v (Turtle.scale tu a) = a *: Turtle.front3_v tu /\
   Turtle.left_v (Turtle.scale tu a) = a *: Turtle.left_v tu /\
   Turtle.left2_v (Turtle.scale tu a) = a *: Turtle.left2_v tu /\
   Turtle.right_v (Turtle.scale tu a) = a *: Turtle.right_v tu /\
   Turtle.scale tu 1 = tu).
Proof.
  assert (Hq : forall p c u (x y : Vector.t),
            x = y ->
            Turtle.mk p c x (2 *: x) (3 *: x)
              (- Vector.cross x (Vector.mk 0 0 u))%vec
              (2 *: (- Vector.cross x (Vector.mk 0 0 u))%vec)
              (Vector.cross x (Vector.mk 0 0 u))
            = Turtle.mk p c y (2 *: y) (3 *: y)
              (- Vector.cross y (Vector.mk 0 0 u))%vec
              (2 *: (- Vector.cross y (Vector.mk 0 0 u))%vec)
              (Vector.cross y (Vector.mk 0 0 u)))
    by (intros p c u x y ->; reflexivity).
  split; [reflexivity |]. split; [reflexivity |]. split; [reflexivity |].
  split.
  - unfold Turtle.scale, Turtle.rotate, Turtle.zAxis, Turtle.up.
    cbn [Turtle.p Turtle.cw Turtle.front_v]. apply Hq.
    destruct (Turtle.front_v tu) as [vx vy vz]. apply vector_eq;
      cbv [Vector.scale Vector.x Vector.y Vector.z]; ring.
  - intros (H2 & H3 & Hl & Hl2 & Hr).
    destruct tu as [p c [vx vy vz] f2 f3 l l2 r].
    cbv [Turtle.front_v Turtle.front2_v Turtle.front3_v Turtle.left_v
         Turtle.left2_v Turtle.right_v Turtle.zAxis Turtle.up Turtle.cw] in *.
    subst f2 f3 l l2 r.
    unfold Turtle.scale, Turtle.rotate, Turtle.zAxis, Turtle.up.
    cbn [Turtle.p Turtle.cw Turtle.front_v Turtle.front2_v Turtle.front3_v
         Turtle.left_v Turtle.left2_v Turtle.right_v].
    set (u := Turtle.side_up c).
    repeat split; try (apply Hq); apply vector_eq;
      cbv [Vector.cross Vector.neg Vector.scale Vector.x Vector.y Vector.z]; ring.
Qed.

(** ** Rounding a whole polyline *)

Lemma corners_length (cs : list Vector.t) :
  (length (corners cs) + 2 <= Nat.max 2 (length cs))%nat /\
  (Nat.max 2 (length cs) <= length (corners cs) + 2)%nat.
Proof.
  induction cs as [| p1 rest IH]; [cbn; lia |].
  destruct rest as [| p rest']; [cbn; lia |].
  destruct rest' as [| p2 rest'']; [cbn; lia |].
  change (corners (p1 :: p :: p2 :: rest''))
    with ((p, p1, p2) :: corners (p :: p2 :: rest'')).
  cbn [length] in *. lia.
Qed.

Lemma corners_in (cs : list Vector.t) (p p1 p2 : Vector.t) :
  In (p, p1, p2) (corners cs) -> In p cs /\ In p1 cs /\ In p2 cs.
Proof.
  induction cs as [| q1 rest IH]; [intros []|].
  destruct rest as [| q rest']; [intros [] |].
  destruct rest' as [| q2 rest'']; [intros [] |].
  change (corners (q1 :: q :: q2 :: rest''))
    with ((q, q1, q2) :: corners (q :: q2 :: rest'')).
  intros [E | Hin].
  - injection E as <- <- <-. cbn. tauto.
  - destruct (IH Hin) as (Ha & Hb & Hc). repeat split; right; assumption.
Qed.

Lemma arcs_rounded (atan2 : R -> R -> R) (tan : R -> R) (radius a : R) :
  forall l,
    (arcs (FloorGenerator.roundedCorner atan2 tan) radius a l
     = Raise ZeroDivisionError /\
     (a = 0 \/ l <> [])) \/
    (exists m,
       arcs (FloorGenerator.roundedCorner atan2 tan) radius a l = Ok m /\
       (forall p p1 p2, In (p, p1, p2) l -> p1 <> p /\ p2 <> p /\ a <> 0) /\
       (0 < a -> (length l <= length m)%nat) /\
       ((forall p p1 p2, In (p, p1, p2) l ->
           Vector.flat p /\ Vector.flat p1 /\ Vector.flat p2) ->
        Forall Vector.flat m)).
Proof.
  induction l as [| [[p p1] p2] rest IH].
  - right. exists []. split; [reflexivity |].
    split; [intros p p1 p2 [] |]. split; [intros _; cbn; lia |].
    intros _. constructor.
  - cbn [arcs].
    destruct (roundedCorner_shape atan2 tan p p1 p2 radius a)
      as [-> | (center & r & a0 & da & n & H1 & H2 & Ha & Hn & Hf & ->)].
    + left. split; [reflexivity | right; discriminate].
    + cbn [bind].
      destruct IH as [[-> _] | (m & -> & Hall & Hlen & Hflat)].
      * left. split; [reflexivity | right; discriminate].
      * right. cbn [bind]. eexists. split; [reflexivity |].
        split; [| split].
        -- intros q q1 q2 [E | Hin]; [injection E as <- <- <-; auto | eauto].
        -- intros Hp. specialize (Hn Hp). specialize (Hlen Hp).
           rewrite length_app, !length_map, length_seq. cbn [length]. lia.
        -- intros Hfl. apply Forall_app. split.
           ++ apply Forall_forall. intros q Hq.
              apply in_map_iff in Hq. destruct Hq as (i & <- & _).
              destruct (Hfl p p1 p2 (or_introl eq_refl)) as (Fp & Fp1 & Fp2).
              apply add_flat; [apply Hf; assumption |].
              unfold Vector.flat. cbv [Vector.scale Vector.z]. ring.
           ++ apply Hflat. intros q q1 q2 Hin. apply (Hfl q q1 q2). right. exact Hin.
Qed.

(** X29: rounding the corners of a polyline with [bevel] and
    [roundedCorner].  The only exceptions are [IndexError], on the
    empty list, and [ZeroDivisionError], which is raised whenever an
    inner point coincides with the point before or after it, or [a] is
    zero and there is an inner point.  Otherwise the answer begins and
    ends as the polyline does, has at least as many points when [a] is
    positive, and lies in the plane when the polyline does. *)
Theorem bevel_rounded (atan2 : R -> R -> R) (tan : R -> R)
    (coords : list Vector.t) (radius a : R) :
  let corner := FloorGenerator.roundedCorner atan2 tan in
  (forall e,
     FloorGenerator.bevel corner coords radius a = Raise e ->
     (coords = [] /\ e = IndexError) \/ (coords <> [] /\ e = ZeroDivisionError)) /\
  (forall p p1 p2,
     In (p, p1, p2) (corners coords) -> p1 = p \/ p2 = p \/ a = 0 ->
     FloorGenerator.bevel corner coords radius a = Raise ZeroDivisionError) /\
  (forall verts,
     FloorGenerator.bevel corner coords radius a = Ok verts ->
     exists c0 m,
       List.hd_error coords = Some c0 /\
       verts = c0 :: m ++ [List.last coords c0] /\
       (0 < a -> (length coords <= length verts)%nat) /\
       (Forall Vector.flat coords -> Forall Vector.flat verts)).
Proof.
  cbv zeta. rewrite bevel_value.
  destruct coords as [| c0 rest].
  - split; [intros e H; injection H as <-; left; split; reflexivity |].
    split; [intros p p1 p2 [] | discriminate].
  - destruct (arcs_rounded atan2 tan radius a (corners (c0 :: rest)))
      as [[-> _] | (m & -> & Hall & Hlen & Hflat)]; cbn [bind].
    + split; [intros e H; injection H as <-; right; split;
              [discriminate | reflexivity] |].
      split; [reflexivity | discriminate].
    + split; [discriminate |].
      split.
      { intros p p1 p2 Hin Hbad. destruct (Hall p p1 p2 Hin) as (H1 & H2 & Ha).
        destruct Hbad as [E | [E | E]]; contradiction. }
      intros verts H. injection H as <-. exists c0, m.
      split; [reflexivity |]. split; [reflexivity |]. split.
      * intros Hp. specialize (Hlen Hp).
        pose proof (corners_length (c0 :: rest)) as [_ Hc].
        cbn [length] in *. rewrite length_app. cbn [length]. lia.
      * intros Hfl. constructor; [inversion Hfl; assumption |].
        apply Forall_app. split.
        -- apply Hflat. intros p p1 p2 Hin.
           destruct (corners_in _ _ _ _ Hin) as (Ha & Hb & Hc).
           rewrite Forall_forall in Hfl. repeat split; apply Hfl; assumption.
        -- constructor; [| constructor].
           rewrite Forall_forall in Hfl. apply Hfl.
           destruct (exists_last (l := c0 :: rest)) as (l' & b & E);
             [discriminate |].
           change (In (List.last (c0 :: rest) c0) (c0 :: rest)).
           rewrite E, last_last. apply in_or_app. right. left. reflexivity.
Qed.

(** ** Where a forward step aims *)

Lemma normal_frame (a b : PathFinder.t) (sg : Seg.t) :
  turtle a = turtle b -> spacing a = spacing b -> normal a sg = normal b sg.
Proof. intros Ht Hs. unfold normal. rewrite Ht, Hs. reflexivity. Qed.

Lemma probe_origin_frame (a b : PathFinder.t) nxt sg side n :
  n_boundarys a = n_boundarys b ->
  forward_probe_origin a nxt sg side n = forward_probe_origin b nxt sg side n.
Proof. intros Hn. unfold forward_probe_origin. rewrite Hn. reflexivity. Qed.

(** What [forward] has worked out when it reaches the obstacle
    checks. *)
Lemma forward_wall_resolved pf pf' v p0 loc :
  forward_wall pf = Ok (Resolved pf' v p0 loc) ->
  v = Turtle.front_v (turtle pf) /\
  (l_side loc = 1 \/ l_side loc = -1) /\
  l_n loc = fst (normal pf (l_seg loc)) /\
  l_p loc =
  forward_probe_origin pf (l_next loc) (l_seg loc) (l_side loc) (l_n loc) /\
  l_t loc =
  Seg.t_ (Turtle.front (turtle pf)) (Seg.new (l_p loc) (Seg.v (l_seg loc))) /\
  l_t loc <> 0 /\ l_hit loc = false /\
  getitem (segs pf) (l_next loc) = Ok (l_seg loc).
Proof.
  unfold forward_wall. intros H. step_ok H; [discriminate H |].
  step_ok H. rename a into pf1.
  assert (H1 : turtle pf1 = turtle pf /\ spacing pf1 = spacing pf /\
               n_boundarys pf1 = n_boundarys pf /\ segs pf1 = segs pf).
  { step_ok Hm.
    - step_ok Hm. destruct a as [[it t0] idx]. step_ok Hm. repeat split.
    - step_ok Hm. repeat split. }
  destruct H1 as (Htu & Hsp & Hnb & Hsg).
  clear Hm. step_ok H.
  destruct (Seg.farest_point (Turtle.front (turtle pf1)) a) as [tf q0].
  step_ok H. destruct a0 as [pf2 nxt]. apply wall_seg_frame in Hm0. subst pf2.
  step_ok H. rename a0 into sg.
  match goal with
  | Hg : getitem (segs (set_pt pf1 q0)) nxt = Ok sg |- _ => rename Hg into Hnext
  end.
  change (segs (set_pt pf1 q0)) with (segs pf1) in Hnext. rewrite Hsg in Hnext.
  match type of H with
  | (let '(_, _) := ?c in _) = _ =>
      assert (Hside : snd c = 1 \/ snd c = -1)
        by (match c with
            | if ?b then _ else _ => destruct b; [right | left]; reflexivity
            end);
      destruct c as [dir side]
  end.
  cbn [snd] in Hside.
  step_ok H; [discriminate H |].
  apply eqb_false in E0.
  step_ok H.
  cbn [l_side l_n l_seg l_p l_t l_next l_hit].
  cbn [seg_init set_seg set_pt turtle seg Seg.init] in E0.
  repeat match goal with
  | |- context [normal ?a sg] =>
      lazymatch a with
      | pf => fail
      | _ => rewrite (normal_frame a pf sg Htu Hsp)
      end
  | |- context [forward_probe_origin ?a nxt sg ?s ?n] =>
      lazymatch a with
      | pf => fail
      | _ => rewrite (probe_origin_frame a pf nxt sg s n Hnb)
      end
  end.
  repeat match goal with
  | Hx : context [normal ?a sg] |- _ =>
      lazymatch a with
      | pf => fail
      | _ => rewrite (normal_frame a pf sg Htu Hsp) in Hx
      end
  | Hx : context [forward_probe_origin ?a nxt sg ?s ?n] |- _ =>
      lazymatch a with
      | pf => fail
      | _ => rewrite (probe_origin_frame a pf nxt sg s n Hnb) in Hx
      end
  end.
  rewrite Htu in *.
  split; [reflexivity |]. split; [exact Hside |]. split; [reflexivity |].
  split; [reflexivity |]. split; [reflexivity |]. split; [exact E0 |].
  split; [reflexivity | exact Hnext].
Qed.

Lemma line_distance_xy (s : Seg.t) (q q' : Vector.t) :
  Vector.xy_eq q q' -> Seg.line_distance s q = Seg.line_distance s q'.
Proof. intros [Hx Hy]. unfold Seg.line_distance. rewrite Hx, Hy. reflexivity. Qed.

Lemma t_point_on_line (a b : Seg.t) :
  Seg.det a b <> 0 ->
  exists k,
    Vector.xy_eq (Seg.p a + Seg.t_ a b *: Seg.v a)%vec (Seg.p b + k *: Seg.v b)%vec.
Proof.
  intros H. rewrite t_cross by exact H.
  exists (Vector.dot (Seg.perp (Seg.v a)) (Seg.p b - Seg.p a)%vec / Seg.det a b).
  unfold Seg.det in *. destruct a as [[ax ay az] [ux uy uz] ia].
  destruct b as [[bx by_ bz] [wx wy wz] ib].
  cbv [Seg.p Seg.v Seg.perp Vector.dot Vector.add Vector.sub Vector.scale
       Vector.x Vector.y Vector.z Vector.xy_eq] in *.
  split; field; exact H.
Qed.

Lemma t_parallel (a b : Seg.t) : Seg.det a b = 0 -> Seg.t_ a b = 0.
Proof.
  intros H. unfold Seg.t_. rewrite dot_perp_det.
  replace (Num.eqb (Seg.det a b) 0) with true by (symmetry; apply eqb_true; exact H).
  reflexivity.
Qed.

Lemma draw_point pf v t0 n dir pf' :
  draw pf v t0 n dir = Ok pf' ->
  getitem (coords pf') (-1) = Ok (Turtle.p (turtle pf) + t0 *: v)%vec.
Proof.
  unfold draw. intros H. step_ok H.
  destruct dir; step_ok H;
    cbn [set_turtle set_coords insert set_tree fst coords turtle
         Turtle.rotate Turtle.move Turtle.p];
    apply getitem_last_snoc.
Qed.

(** X30: the point a forward step aims at keeps the clearance.  When
    [forward] reaches its obstacle checks, the point it aims at, its
    position plus [t] times its heading, lies at half a spacing from
    the line of the edge to come if that edge belongs to the boundary
    ([next < n_boundarys]), at one spacing otherwise; the edge is
    [segs[next]] and its direction is not zero.  This is the point a
    step records when no check changes [t] and [t >= 0.5]. *)
Theorem forward_aims_at_clearance (pf pf' : PathFinder.t) (v p0 : Vector.t)
    (loc : locals) :
  forward_wall pf = Ok (Resolved pf' v p0 loc) ->
  Vector.flat (Seg.v (l_seg loc)) ->
  getitem (segs pf) (l_next loc) = Ok (l_seg loc) /\
  Seg.v (l_seg loc) <> Vector.zero /\
  Seg.line_distance (l_seg loc) (Turtle.p (turtle pf) + l_t loc *: v)%vec
  = (if (l_next loc <? n_boundarys pf)%Z then 0.5 else 1) * Rabs (spacing pf) /\
  (forall q r q',
     turtle q = turtle pf -> ~ l_t loc < 0.5 ->
     forward_finish q v loc = Ok (r, q') ->
     r = true /\
     getitem (coords q') (-1) = Ok (Turtle.p (turtle pf) + l_t loc *: v)%vec).
Proof.
  intros H Hz.
  destruct (forward_wall_resolved _ _ _ _ _ H)
    as (-> & Hside & Hn & Hp & Ht & Ht0 & _ & Hg).
  set (probe := Seg.new (l_p loc) (Seg.v (l_seg loc))) in *.
  assert (Hdet : Seg.det (Turtle.front (turtle pf)) probe <> 0).
  { intros E. apply Ht0. rewrite Ht. apply t_parallel. exact E. }
  assert (Hv : Seg.v (l_seg loc) <> Vector.zero).
  { intros E. apply Hdet. unfold Seg.det, probe. cbn [Seg.new Seg.v].
    rewrite E. cbn [Vector.zero Vector.x Vector.y]. ring. }
  split; [exact Hg |]. split; [exact Hv |]. split.
  - destruct (t_point_on_line _ _ Hdet) as [k Hk].
    rewrite <- Ht in Hk. cbn [Turtle.front Seg.new Seg.p Seg.v probe] in Hk.
    rewrite (line_distance_xy _ _ _ Hk), Hp, Hn.
    unfold forward_probe_origin.
    destruct (l_next loc <? n_boundarys pf)%Z;
      rewrite (offset_distance pf (l_seg loc) _ k Hz Hv);
      destruct Hside as [-> | ->].
    + replace (1 * 0.5) with 0.5 by lra. rewrite Rabs_right by lra. reflexivity.
    + replace (-1 * 0.5) with (-0.5) by lra. rewrite Rabs_left by lra. lra.
    + rewrite Rabs_R1. reflexivity.
    + rewrite Rabs_minus_one. reflexivity.
  - intros q r q' Hq Hge Hfin. unfold forward_finish in Hfin.
    replace (Num.ltb (l_t loc) 0.5) with false in Hfin
      by (symmetry; apply ltb_false; exact Hge).
    step_ok Hfin. step_ok Hfin. split; [reflexivity |].
    match goal with
    | Hd : draw _ _ _ _ _ = Ok _ |- _ => apply draw_point in Hd; rewrite Hd
    end.
    cbn [set_last turtle]. rewrite Hq. reflexivity.
Qed.

(** On the square: the first step aims at a point at half a spacing
    from the second edge. *)
Example forward_aims_at_clearance_witness :
  exists s1',
    forward_wall (square_engine (-1) square_p e0 e0 e0 square_turtle [square_p] 0)
    = Ok (Resolved
            (square_engine 0 square_corner s1' e0 e0 square_turtle [square_p] 1)
            square_v square_corner (square_locals false)) /\
    Seg.line_distance e1 (square_p + (37 / 3) *: square_v)%vec = 0.5 * Rabs 0.3.
Proof.
  destruct (square_forward_wall square_p e0 e0 e0) as [s1' H].
  exists s1'. split; [exact H |].
  exact (proj1 (proj2 (proj2 (forward_aims_at_clearance _ _ _ _ _ H eq_refl)))).
Defined.

(** * The steps of the engine, end to end *)

(** ** The probe line of a step *)









(** ** The short pass of the forward step *)

(** Between the entry of [forward] and its last test nothing of the
    engine proper changes but the counter and [last]. *)
Lemma forward_checked pf pf1 v p0 loc pf2 loc2 :
  forward_wall pf = Ok (Resolved pf1 v p0 loc) ->
  forward_checks pf1 v p0 loc = Ok (pf2, loc2) ->
  tree pf2 = tree pf /\ spacing pf2 = spacing pf /\ turtle pf2 = turtle pf /\
  coords pf2 = coords pf /\ iter pf2 = (iter pf + 1)%Z /\
  is_forward pf2 = is_forward pf /\ max_iter pf2 = max_iter pf /\
  run pf2 = run pf.
Proof.
  intros Hw Hc.
  apply forward_wall_spec in Hw. destruct Hw as (Hw & _ & _).
  apply forward_checks_frame in Hc.
  apply scratchless_fields in Hw. apply scratchless_fields in Hc.
  cbn [set_last set_iter tree spacing n_boundarys last turtle coords run
       allow_backward is_forward iter max_iter] in Hw.
  intuition congruence.
Qed.

(** On the answer [False], [next] leaves the mode it was in. *)
Lemma next_tail_flips (q : PathFinder.t) :
  is_forward (snd (next_tail false q)) = negb (is_forward q).
Proof.
  unfold next_tail.
  match goal with
  | |- context [if Num.ltb ?a ?b then _ else _] => destruct (Num.ltb a b)
  end; reflexivity.
Qed.

(** [forward] gives up before its checks for two reasons only: the
    counter is over the cap, or the advance to the probe line is
    exactly zero. *)
Lemma forward_wall_returned pf q :
  forward_wall pf = Ok (Returned q) ->
  max_iter pf < IZR (iter pf + 1) \/
  Seg.t_ (Turtle.front (turtle pf)) (seg q) = 0.
Proof.
  unfold forward_wall. intros H. step_ok H.
  - left. apply ltb_true in E. exact E.
  - right. step_ok H. rename a into pf1.
    assert (H1 : turtle pf1 = turtle pf).
    { step_ok Hm.
      - step_ok Hm. destruct a as [[it t0] idx]. step_ok Hm. reflexivity.
      - step_ok Hm. reflexivity. }
    clear Hm. step_ok H.
    destruct (Seg.farest_point (Turtle.front (turtle pf1)) a) as [tf q0].
    step_ok H. destruct a0 as [pf2 nxt]. apply wall_seg_frame in Hm0. subst pf2.
    step_ok H. rename a0 into sg.
    match type of H with
    | (let '(_, _) := ?c in _) = _ => destruct c as [dir side]
    end.
    step_ok H; [| discriminate H].
    apply eqb_true in E0. step_ok H.
    cbn [seg_init set_seg set_pt turtle seg] in *.
    rewrite <- H1. exact E0.
Qed.

(** C4, as the code has it.  When [forward] reaches its checks and
    the advance [t] they leave is below 0.5, the pass is not drawn: the
    step is [forward_cap].  The turtle is turned along the segment
    inserted last, turned right and moved by half its front, which is
    half a spacing; the point reached is appended to the polyline and
    the segment from the previous point to it is inserted in the tree;
    the turtle is turned right again and [last] becomes the index that
    its left probe finds.  The step answers [False], on which [next]
    leaves the forward mode.  It does answer as soon as the tree and
    the polyline are not empty and the left probe is answered.  When
    [forward] does not reach its checks, the counter being over the cap
    or the advance to the probe line being exactly zero, it answers
    [False] at once: nothing is recorded and the turtle stays as it
    is. *)
Theorem forward_short_pass (pf : PathFinder.t) :
  (forall pf1 pf2 v p0 loc loc2,
     forward_wall pf = Ok (Resolved pf1 v p0 loc) ->
     forward_checks pf1 v p0 loc = Ok (pf2, loc2) ->
     l_t loc2 < 0.5 ->
     forward pf = forward_cap (set_last pf2 (l_next loc2)) /\
     (forall r pf',
        forward pf = Ok (r, pf') ->
        r = false /\
        exists tail c,
          getitem (segs pf) (-1) = Ok tail /\
          getitem (coords pf) (-1) = Ok c /\
          let tu1 :=
            Turtle.turn_right
              (Turtle.rotate (turtle pf)
                             (spacing pf *: Vector.normalized (Seg.v tail))) in
          let tu2 := Turtle.move tu1 (0.5 *: Turtle.front_v tu1) in
          turtle pf' = Turtle.turn_right tu2 /\
          coords pf' = coords pf ++ [Turtle.p tu2] /\
          segs pf' =
          segs pf ++ [Seg.mk c (Turtle.p tu2 - c)%vec (Tree.ngeoms (tree pf))] /\
          (exists it t0,
             intersect pf' (Turtle.left (turtle pf')) = Ok (it, t0, last pf')) /\
          iter pf' = (iter pf + 1)%Z /\
          is_forward (snd (next_tail r pf')) = negb (is_forward pf) /\
          (is_forward pf = true -> next pf = Ok (next_tail r pf')) /\
          (0 <= spacing pf -> Vector.flat (Seg.v tail) ->
           Seg.v tail <> Vector.zero ->
           Vector.length (Turtle.p tu2 - Turtle.p (turtle pf))%vec
           = 0.5 * spacing pf)) /\
     (forall tail c it t0 idx,
        getitem (segs pf) (-1) = Ok tail ->
        getitem (coords pf) (-1) = Ok c ->
        let tu1 :=
          Turtle.turn_right
            (Turtle.rotate (turtle pf)
                           (spacing pf *: Vector.normalized (Seg.v tail))) in
        let tu2 := Turtle.move tu1 (0.5 *: Turtle.front_v tu1) in
        intersect
          (set_tree pf
             (Tree.insert (tree pf) (Tree.ngeoms (tree pf))
                (Seg.mk c (Turtle.p tu2 - c)%vec (Tree.ngeoms (tree pf)))))
          (Turtle.left (Turtle.turn_right tu2)) = Ok (it, t0, idx) ->
        exists pf', forward pf = Ok (false, pf') /\ last pf' = idx)) /\
  (forall q,
     forward_wall pf = Ok (Returned q) ->
     forward pf = Ok (false, q) /\
     coords q = coords pf /\ tree q = tree pf /\ turtle q = turtle pf /\
     iter q = (iter pf + 1)%Z /\
     (max_iter pf < IZR (iter pf + 1) \/
      Seg.t_ (Turtle.front (turtle pf)) (seg q) = 0)).
Proof.
  split; [intros pf1 pf2 v p0 loc loc2 Hw Hc Ht |].
  2:{ intros q Hw. split; [unfold forward; rewrite Hw; reflexivity |].
      pose proof (forward_wall_returned _ _ Hw) as Hr.
      apply forward_wall_spec in Hw. apply scratchless_fields in Hw.
      cbn [set_last set_iter tree spacing n_boundarys last turtle coords run
           allow_backward is_forward iter max_iter] in Hw.
      intuition congruence. }
  destruct (forward_checked _ _ _ _ _ _ _ Hw Hc)
    as (Htr & Hsp & Htu & Hco & Hit & Hfw & Hmx & Hrn).
  assert (Hf : forward pf = forward_cap (set_last pf2 (l_next loc2))).
  { unfold forward. rewrite Hw. cbn [bind]. rewrite Hc. cbn [bind].
    unfold forward_finish. apply ltb_true in Ht. rewrite Ht. reflexivity. }
  assert (Hsg : segs pf2 = segs pf) by (unfold segs; rewrite Htr; reflexivity).
  split; [exact Hf |]. split.
  - intros r pf' H. rewrite Hf in H. unfold forward_cap in H.
    change (segs (set_last pf2 (l_next loc2))) with (segs pf2) in H.
    rewrite Hsg in H.
    step_ok H. rename a into tail. rename Hm into Htail.
    cbn [set_turtle set_last coords turtle spacing] in H.
    rewrite Hco, Htu, Hsp in H.
    step_ok H. rename a into c. rename Hm into Hc0.
    step_ok H. destruct a as [[it t0] idx]. rename Hm into Hx.
    step_ok H.
    split; [reflexivity |]. exists tail, c.
    split; [exact Htail |]. split; [exact Hc0 |]. cbv zeta.
    split; [reflexivity |]. split; [reflexivity |].
    split.
    { unfold segs, insert.
      cbn [set_turtle set_last set_coords set_tree tree fst Tree.insert Tree.geoms].
      rewrite Htr. reflexivity. }
    split.
    { exists it, t0. etransitivity; [| exact Hx]. apply intersect_frame; reflexivity. }
    split; [exact Hit |].
    split.
    { rewrite next_tail_flips. unfold insert.
      cbn [set_turtle set_last set_coords set_tree is_forward fst].
      rewrite Hfw. reflexivity. }
    split.
    { intros Hfwd. unfold next. rewrite Hfwd, Hf. unfold forward_cap.
      change (segs (set_last pf2 (l_next loc2))) with (segs pf2).
      rewrite Hsg, Htail. cbn [bind].
      cbn [set_turtle set_last coords turtle spacing].
      rewrite Hco, Htu, Hsp, Hc0. cbn [bind]. rewrite Hx. reflexivity. }
    intros Hs Hflat Hnz.
    apply (half_right_length (turtle pf) (spacing pf) (Seg.v tail) Hs Hflat Hnz).
  - intros tail c it t0 idx Htail Hc0. cbv zeta. intros Hx.
    rewrite Hf. unfold forward_cap.
    change (segs (set_last pf2 (l_next loc2))) with (segs pf2).
    rewrite Hsg, Htail. cbn [bind].
    cbn [set_turtle set_last coords turtle spacing].
    rewrite Hco, Htu, Hsp, Hc0. cbn [bind].
    match goal with
    | |- context [intersect ?q ?s] =>
        replace (intersect q s) with (Ok (it, t0, idx) : result (bool * R * Z))
    end.
    + cbn [bind]. eexists. split; reflexivity.
    + rewrite <- Hx. apply intersect_frame.
      * unfold insert.
        cbn [set_turtle set_last set_coords set_tree tree fst].
        rewrite Htr. reflexivity.
      * cbn [insert set_turtle set_last set_coords set_tree spacing fst].
        symmetry. exact Hsp.
Qed.

(** ** Starts along the first edge of the square *)

(** The engine as the caller sets it up for a start at [x]. *)
Lemma square_started_at (x : R) :
  exists pf,
    init square_tree 0.3 true true = Ok pf /\
    set_max_iter (start pf (square_start x) square_v) 1 =
    square_engine (-1) (Vector.mk 0 0 0)
                  (Seg.new (Vector.mk 0 0 0) (Vector.mk 1 0 0))
                  (Seg.new (Vector.mk 0 0 0) (Vector.mk 1 0 0))
                  (Seg.new (Vector.mk 0 0 0) (Vector.mk 1 0 0))
                  (square_turtle_at x) [square_start x] 0.
Proof.
  unfold init.
  replace (Num.eqb (0.3 * 0.3) 0) with false by (symmetry; apply eqb_false; lra).
  eexists. split; [reflexivity |].
  unfold start, square_engine.
  cbv beta iota zeta delta
    [set_max_iter set_coords set_turtle tree spacing n_boundarys last pt seg
     left right turtle coords run allow_backward is_forward iter max_iter app].
  change (Tree.ngeoms square_tree) with 4%Z.
  f_equal.
  unfold Turtle.relocate, Turtle.rotate, Turtle.move, Turtle.new,
    square_turtle_at, square_start.
  cbv beta iota zeta delta
    [Turtle.p Turtle.cw Turtle.front_v Turtle.front2_v Turtle.front3_v
     Turtle.left_v Turtle.left2_v Turtle.right_v Turtle.zAxis Turtle.up
     Turtle.side_up].
  f_equal; vec.
Qed.

(** The right probe of a start along the first edge meets that edge. *)
Lemma square_hit_right_at x lst pt0 s1 s2 s3 tu cs it :
  -1.9 <= x <= 1.9 ->
  exists t0,
    intersect (square_engine lst pt0 s1 s2 s3 tu cs it)
              (Turtle.right (square_turtle_at x)) = Ok (true, t0, 0%Z).
Proof.
  intros Hx. unfold intersect.
  change (Tree.ngeoms (tree (square_engine lst pt0 s1 s2 s3 tu cs it)) - 1)%Z
    with 3%Z.
  change (segs (square_engine lst pt0 s1 s2 s3 tu cs it)) with square_edges.
  change (Tree.intersects_ext (tree (square_engine lst pt0 s1 s2 s3 tu cs it)))
    with (fun e tol => envelope_query square_edges e tol).
  cbv beta. unfold envelope_query, square_edges at 2, square_turtle_at, square_start.
  scan. scan. scan. scan. norm_z.
  change (envelope_scan 4 [] _) with (@nil Z).
  eexists.
  rewrite (intersect_loop_closer square_edges _ 3 0 [] false 1e32 (-1) e0).
  - reflexivity.
  - lia.
  - reflexivity.
  - plumb. lra.
  - apply in_window_inside; plumb; lra.
  - plumb. lra.
Qed.

Lemma square_farest_at x :
  exists t0,
    Seg.farest_point (Turtle.front (square_turtle_at x)) e0 = (t0, square_corner).
Proof.
  unfold Seg.farest_point, square_turtle_at, square_start.
  rewrite !point_on_seg_value by (plumb; lra).
  match goal with
  | |- context [Num.ltb ?a ?b] =>
      replace (Num.ltb a b) with true by (symmetry; apply ltb_true; plumb; lra)
  end.
  eexists. f_equal. vec.
Qed.

Lemma square_edge0_length : Vector.length (Seg.v e0) = 4.
Proof. apply length_of_square; [lra | plumb; lra]. Qed.

(** The normals of the first two edges for a turtle heading along the
    first: that of the second edge is the heading itself, with the
    measure 2; that of the first points out of the square, with a
    measure below 2. *)
Lemma square_normal1_at x lst pt0 s1 s2 s3 cs it :
  normal (square_engine lst pt0 s1 s2 s3 (square_turtle_at x) cs it) e1
  = (square_v, 2).
Proof.
  unfold normal, Vector.normalized.
  change (Turtle.front_v (turtle (square_engine lst pt0 s1 s2 s3 (square_turtle_at x) cs it)))
    with square_v.
  rewrite square_front_length, square_edge1_length.
  replace (Num.eqb 0.3 0) with false by (symmetry; apply eqb_false; lra).
  replace (Num.eqb 4 0) with false by (symmetry; apply eqb_false; lra).
  match goal with
  | |- context [Vector.length ?a] =>
      rewrite (length_of_square a 2)
        by (first [lra | unfold square_turtle_at; plumb; lra])
  end.
  replace (Num.ltb 2 1) with false by (symmetry; apply ltb_false; lra).
  f_equal. unfold square_turtle_at. vec.
Qed.

Lemma square_normal0_at x lst pt0 s1 s2 s3 cs it :
  exists d,
    normal (square_engine lst pt0 s1 s2 s3 (square_turtle_at x) cs it) e0
    = (Vector.mk 0 (-0.3) 0, d) /\ 0 <= d < 2.
Proof.
  unfold normal, Vector.normalized.
  change (Turtle.front_v (turtle (square_engine lst pt0 s1 s2 s3 (square_turtle_at x) cs it)))
    with square_v.
  rewrite square_front_length, square_edge0_length.
  replace (Num.eqb 0.3 0) with false by (symmetry; apply eqb_false; lra).
  replace (Num.eqb 4 0) with false by (symmetry; apply eqb_false; lra).
  match goal with
  | |- context [Num.ltb (Vector.length ?a) 1] =>
      pose proof (length_nonneg a) as Hn;
      assert (Hd : Vector.dot a a = 2) by (unfold square_turtle_at; plumb; lra);
      pose proof (length_sqr a) as Hs;
      set (d := Vector.length a) in *
  end.
  rewrite Hd in Hs.
  replace (Num.ltb d 1) with false by (symmetry; apply ltb_false; nra).
  exists d. split; [| split; nra].
  f_equal. unfold square_turtle_at. vec.
Qed.

Lemma square_advance_at x s :
  Seg.t_ (Turtle.front (square_turtle_at x))
         (Seg.init s (Vector.mk 1.85 (-2) 0) (Seg.v e1)) = (1.85 - x) / 0.3.
Proof.
  unfold square_turtle_at, square_start.
  rewrite t_cross by (plumb; lra). plumb. lra.
Qed.

(** [forward] up to its probes, from a start along the first edge: it
    aims at the line half a spacing before the second edge, and gives
    up when it stands on that line. *)
Lemma square_forward_wall_at x pt0 s1 s2 s3 :
  -1.9 <= x <= 1.9 ->
  forward_wall (square_engine (-1) pt0 s1 s2 s3 (square_turtle_at x)
                              [square_start x] 0) =
  let pf' :=
    square_engine 0 square_corner
      (Seg.init (Seg.init s1 square_corner square_v)
                (Vector.mk 1.85 (-2) 0) (Seg.v e1))
      s2 s3 (square_turtle_at x) [square_start x] 1 in
  if Num.eqb ((1.85 - x) / 0.3) 0 then Ok (Returned pf')
  else
    Ok (Resolved pf' square_v square_corner
          (mk_locals LEFT (-1) ((1.85 - x) / 0.3) square_v 1 e1
                     (Vector.mk 1.85 (-2) 0) false)).
Proof.
  intros Hx. unfold forward_wall. state. norm_z.
  replace (Num.ltb 1 1) with false by (symmetry; apply ltb_false; lra).
  change (-1 <? 0)%Z with true. cbv iota.
  destruct (square_hit_right_at x (-1) pt0 s1 s2 s3 (square_turtle_at x)
              [square_start x] 1 Hx) as [t0 Hr].
  rewrite Hr. state.
  rewrite square_getitem0. state.
  destruct (square_farest_at x) as [t1 Hf]. rewrite Hf.
  rewrite (square_wall_seg pt0 s1 s2 s3 (square_turtle_at x) [square_start x] 1).
  state.
  rewrite square_getitem1. state.
  rewrite ltb_length by lra.
  match goal with
  | |- context [Num.ltb (Vector.dot ?a ?b) ?c] =>
      replace (Num.ltb (Vector.dot a b) c) with true
        by (symmetry; apply ltb_true; plumb; lra)
  end.
  change (Turtle.front_v (square_turtle_at x)) with square_v.
  rewrite square_side.
  change (Turtle.up (square_turtle_at x)) with 1.
  replace (Num.ltb 0 (4 * 1)) with true by (symmetry; apply ltb_true; lra).
  cbv beta iota.
  rewrite (square_normal1_at x 0 square_corner (Seg.init s1 square_corner square_v)
                             s2 s3 [square_start x] 1).
  cbn [fst].
  rewrite (square_probe_origin 0 square_corner (Seg.init s1 square_corner square_v)
                               s2 s3 (square_turtle_at x) [square_start x] 1).
  rewrite square_advance_at.
  reflexivity.
Qed.

Lemma seg_at_pos_ends (sg : Seg.t) (p : Vector.t) :
  Vector.dot (Seg.p sg - p + Seg.v sg)%vec (Seg.p sg - p + Seg.v sg)%vec
  < 0.0001 * 0.0001 ->
  seg_at_pos sg p = true.
Proof.
  intros H. unfold seg_at_pos. rewrite !ltb_length by lra.
  apply ltb_true in H. rewrite H. apply orb_true_r.
Qed.

(** At the corner where the first edge ends, [obstacle_seg] prefers the
    second edge: its normal makes the longer sum with the heading. *)
Lemma square_obstacle_seg_at x lst pt0 s1 s2 s3 cs it :
  obstacle_seg (square_engine lst pt0 s1 s2 s3 (square_turtle_at x) cs it)
               square_corner
  = Ok (square_engine lst square_corner s1 s2 s3 (square_turtle_at x) cs it,
        1%Z, square_v).
Proof.
  unfold obstacle_seg.
  change (set_pt (square_engine lst pt0 s1 s2 s3 (square_turtle_at x) cs it)
                 square_corner)
    with (square_engine lst square_corner s1 s2 s3 (square_turtle_at x) cs it).
  change (Tree.intersects_ext
            (tree (square_engine lst square_corner s1 s2 s3 (square_turtle_at x) cs it)))
    with (fun e tol => envelope_query square_edges e tol).
  cbv beta.
  change (pt (square_engine lst square_corner s1 s2 s3 (square_turtle_at x) cs it))
    with square_corner.
  unfold envelope_query, square_edges.
  scan. scan. scan. scan. norm_z.
  change (envelope_scan 4 [] _) with (@nil Z).
  cbn [obstacle_seg_loop].
  change (segs (square_engine lst square_corner s1 s2 s3 (square_turtle_at x) cs it))
    with square_edges.
  rewrite square_getitem0, square_getitem1. cbn [bind].
  rewrite (seg_at_pos_ends e0) by (plumb; lra).
  rewrite (seg_at_pos_starts e1) by (plumb; lra).
  destruct (square_normal0_at x lst square_corner s1 s2 s3 cs it)
    as (d & Hn0 & Hd).
  rewrite Hn0, square_normal1_at.
  replace (Num.ltb (-1) d) with true by (symmetry; apply ltb_true; lra).
  replace (Num.ltb d 2) with true by (symmetry; apply ltb_true; lra).
  reflexivity.
Qed.

Lemma square_nearest_at x :
  exists t0,
    Seg.nearest_point (Turtle.front (square_turtle_at x)) e1 = (t0, square_corner).
Proof.
  unfold Seg.nearest_point, square_turtle_at, square_start.
  rewrite !point_on_seg_value by (plumb; lra).
  match goal with
  | |- context [Num.ltb ?a ?b] =>
      replace (Num.ltb a b) with false by (symmetry; apply ltb_false; plumb; lra)
  end.
  eexists. reflexivity.
Qed.

(** [obstacle] when the left probe has met the second edge: the
    obstacle is that edge, taken at the corner, and the advance it
    allows is the one to the line half a spacing before it. *)
Lemma square_obstacle_at x pt0 s1 s2 s3 cs it u :
  intersect (square_engine 0 pt0 s1 s2 s3 (square_turtle_at x) cs it) s2
  = Ok (true, u, 1%Z) ->
  obstacle (square_engine 0 pt0 s1 s2 s3 (square_turtle_at x) cs it)
  = Ok (square_engine 0 square_corner
          (Seg.init s1 (square_corner - 0.5 *: square_v)%vec (Seg.v e1))
          s2 s3 (square_turtle_at x) cs it,
        (true, (1.85 - x) / 0.3, square_v, 1%Z)).
Proof.
  intros Hi. unfold obstacle.
  change (left (square_engine 0 pt0 s1 s2 s3 (square_turtle_at x) cs it)) with s2.
  rewrite Hi. cbn [bind].
  change (segs (square_engine 0 pt0 s1 s2 s3 (square_turtle_at x) cs it))
    with square_edges.
  rewrite square_getitem1. cbn [bind].
  change (turtle (square_engine 0 pt0 s1 s2 s3 (square_turtle_at x) cs it))
    with (square_turtle_at x).
  destruct (square_nearest_at x) as [t0 Hn]. rewrite Hn.
  rewrite square_obstacle_seg_at. cbn [bind].
  change (segs (square_engine 0 square_corner s1 s2 s3 (square_turtle_at x) cs it))
    with square_edges.
  rewrite square_getitem1. cbn [bind].
  change (1 <? n_boundarys (square_engine 0 square_corner s1 s2 s3 (square_turtle_at x) cs it))%Z
    with true.
  cbv iota. state.
  replace (Seg.t_ (Turtle.front (square_turtle_at x))
             (Seg.init s1 (square_corner - 0.5 *: square_v)%vec (Seg.v e1)))
    with ((1.85 - x) / 0.3).
  - reflexivity.
  - unfold square_turtle_at, square_start.
    rewrite t_cross by (plumb; lra). plumb. lra.
Qed.

(** ** A start close to the second edge *)

(** Started at 1.775 along the first edge, the turtle has a quarter of a
    spacing to go to the line half a spacing before the second edge. *)
Lemma late_forward_wall pt0 s1 s2 s3 :
  forward_wall (square_engine (-1) pt0 s1 s2 s3 (square_turtle_at 1.775)
                              [square_start 1.775] 0) =
  Ok (Resolved
        (square_engine 0 square_corner
           (Seg.init (Seg.init s1 square_corner square_v)
                     (Vector.mk 1.85 (-2) 0) (Seg.v e1))
           s2 s3 (square_turtle_at 1.775) [square_start 1.775] 1)
        square_v square_corner (late_locals false)).
Proof.
  rewrite square_forward_wall_at by lra. cbv zeta.
  replace ((1.85 - 1.775) / 0.3) with 0.25 by lra.
  replace (Num.eqb 0.25 0) with false by (symmetry; apply eqb_false; lra).
  reflexivity.
Qed.

(** The left probe, one spacing to the left, reaches across the second
    edge. *)
Lemma late_hit_left lst pt0 s1 s2 s3 tu cs it s :
  exists u,
    intersect (square_engine lst pt0 s1 s2 s3 tu cs it)
      (Seg.init s (square_start 1.775 + Turtle.left_v (square_turtle_at 1.775))%vec
                (1.25 *: square_v))
    = Ok (true, u, 1%Z).
Proof.
  unfold intersect.
  change (Tree.ngeoms (tree (square_engine lst pt0 s1 s2 s3 tu cs it)) - 1)%Z
    with 3%Z.
  change (segs (square_engine lst pt0 s1 s2 s3 tu cs it)) with square_edges.
  change (Tree.intersects_ext (tree (square_engine lst pt0 s1 s2 s3 tu cs it)))
    with (fun e tol => envelope_query square_edges e tol).
  cbv beta. unfold envelope_query, square_edges at 2, square_turtle_at, square_start.
  scan. scan. scan. scan. norm_z.
  change (envelope_scan 4 [] _) with (@nil Z).
  eexists.
  rewrite (intersect_loop_closer square_edges _ 3 1 [] false 1e32 (-1) e1).
  - reflexivity.
  - lia.
  - reflexivity.
  - plumb. lra.
  - apply in_window_inside; plumb; lra.
  - plumb. lra.
Qed.

Lemma late_hit_left_pipe lst pt0 s1 s2 s3 tu cs it s :
  exists u,
    intersect (square_engine lst pt0 s1 s2 s3 tu cs it)
      (Seg.init s
         (square_start 1.775 + 1.5 *: Turtle.left_v (square_turtle_at 1.775))%vec
         (2.25 *: square_v))
    = Ok (true, u, 1%Z).
Proof.
  unfold intersect.
  change (Tree.ngeoms (tree (square_engine lst pt0 s1 s2 s3 tu cs it)) - 1)%Z
    with 3%Z.
  change (segs (square_engine lst pt0 s1 s2 s3 tu cs it)) with square_edges.
  change (Tree.intersects_ext (tree (square_engine lst pt0 s1 s2 s3 tu cs it)))
    with (fun e tol => envelope_query square_edges e tol).
  cbv beta. unfold envelope_query, square_edges at 2, square_turtle_at, square_start.
  scan. scan. scan. scan. norm_z.
  change (envelope_scan 4 [] _) with (@nil Z).
  eexists.
  rewrite (intersect_loop_closer square_edges _ 3 1 [] false 1e32 (-1) e1).
  - reflexivity.
  - lia.
  - reflexivity.
  - plumb. lra.
  - apply in_window_inside; plumb; lra.
  - plumb. lra.
Qed.

Lemma late_hit_front lst pt0 s1 s2 s3 tu cs it s :
  exists u,
    intersect (square_engine lst pt0 s1 s2 s3 tu cs it)
      (Seg.init s (square_start 1.775) ((0.25 + 2.5) *: square_v))
    = Ok (true, u, 1%Z).
Proof.
  unfold intersect.
  change (Tree.ngeoms (tree (square_engine lst pt0 s1 s2 s3 tu cs it)) - 1)%Z
    with 3%Z.
  change (segs (square_engine lst pt0 s1 s2 s3 tu cs it)) with square_edges.
  change (Tree.intersects_ext (tree (square_engine lst pt0 s1 s2 s3 tu cs it)))
    with (fun e tol => envelope_query square_edges e tol).
  cbv beta. unfold envelope_query, square_edges at 2, square_start.
  scan. scan. scan. scan. norm_z.
  change (envelope_scan 4 [] _) with (@nil Z).
  eexists.
  rewrite (intersect_loop_closer square_edges _ 3 1 [] false 1e32 (-1) e1).
  - reflexivity.
  - lia.
  - reflexivity.
  - plumb. lra.
  - apply in_window_inside; plumb; lra.
  - plumb. lra.
Qed.

Lemma late_reach_left s s' :
  Seg.t_ (Seg.init s (square_start 1.775 + Turtle.left_v (square_turtle_at 1.775))%vec
                   square_v)
         (Seg.init s' (Vector.mk 1.85 (-2) 0 + (-1 * 0.5) *: square_v)%vec (Seg.v e1))
  = -0.25.
Proof.
  unfold square_turtle_at, square_start.
  rewrite t_cross by (plumb; lra). plumb. lra.
Qed.

Lemma late_reach_left_pipe s s' :
  Seg.t_ (Seg.init s
            (square_start 1.775 + 1.5 *: Turtle.left_v (square_turtle_at 1.775))%vec
            square_v)
         (Seg.init s' (Vector.mk 1.85 (-2) 0 + (-1 * 1.5) *: square_v)%vec (Seg.v e1))
  = -1.25.
Proof.
  unfold square_turtle_at, square_start.
  rewrite t_cross by (plumb; lra). plumb. lra.
Qed.

(** The two left checks find the second edge, and with it the advance
    already settled on: nothing changes. *)
Lemma late_left_obstacle pt0 s1 s2 s3 :
  exists pt1 s1' s2',
    forward_left_obstacle
      (square_engine 0 pt0 s1 s2 s3 (square_turtle_at 1.775) [square_start 1.775] 1)
      square_v (late_locals false) =
    Ok (square_engine 0 pt1 s1' s2' s3 (square_turtle_at 1.775)
                      [square_start 1.775] 1,
        late_locals false).
Proof.
  unfold forward_left_obstacle, late_locals, seek_length. state.
  change (Turtle.p (square_turtle_at 1.775)) with (square_start 1.775).
  rewrite late_reach_left.
  replace (Num.ltb (-0.25) 0) with true by (symmetry; apply ltb_true; lra).
  replace (1 - -0.25) with 1.25 by lra.
  match goal with
  | |- context [obstacle (square_engine 0 ?p ?a ?b ?c ?tu ?cs ?it)] =>
      destruct (late_hit_left 0 p a b c tu cs it s2) as [u Hu];
      rewrite (square_obstacle_at 1.775 p a b c cs it u Hu)
  end.
  cbn [bind].
  replace ((1.85 - 1.775) / 0.3) with 0.25 by lra.
  change (1 <? n_boundarys _)%Z with true.
  replace (Num.ltb 0.25 0.25) with false by (symmetry; apply ltb_false; lra).
  cbn [andb]. do 3 eexists. reflexivity.
Qed.

Lemma late_left_pipe pt0 s1 s2 s3 :
  exists pt1 s1' s2',
    forward_left_pipe
      (square_engine 0 pt0 s1 s2 s3 (square_turtle_at 1.775) [square_start 1.775] 1)
      square_v (late_locals false) =
    Ok (square_engine 0 pt1 s1' s2' s3 (square_turtle_at 1.775)
                      [square_start 1.775] 1,
        late_locals false).
Proof.
  unfold forward_left_pipe, late_locals, seek_length. state.
  change (Turtle.p (square_turtle_at 1.775)) with (square_start 1.775).
  rewrite late_reach_left_pipe.
  replace (Num.ltb (-1.25) 0) with true by (symmetry; apply ltb_true; lra).
  replace (1 - -1.25) with 2.25 by lra.
  match goal with
  | |- context [obstacle (square_engine 0 ?p ?a ?b ?c ?tu ?cs ?it)] =>
      destruct (late_hit_left_pipe 0 p a b c tu cs it s2) as [u Hu];
      rewrite (square_obstacle_at 1.775 p a b c cs it u Hu)
  end.
  cbn [bind].
  change (1 <? n_boundarys _)%Z with true.
  cbn [andb negb]. do 3 eexists. reflexivity.
Qed.

Lemma late_reset_p pf :
  n_boundarys pf = 4%Z ->
  forward_reset_p pf square_corner (late_locals false) = late_locals false.
Proof.
  intros Hn. unfold forward_reset_p, late_locals.
  cbn [l_next l_n l_dir l_side l_t l_seg l_hit].
  rewrite Hn. change (1 <? 4)%Z with true. cbv iota.
  f_equal. vec.
Qed.

(** The front probe meets the second edge, the edge already aimed at. *)
Lemma late_front pt0 s1 s2 s3 :
  exists s1',
    forward_front
      (square_engine 0 pt0 s1 s2 s3 (square_turtle_at 1.775) [square_start 1.775] 1)
      square_v (late_locals false) =
    Ok (square_engine 0 pt0 s1' s2 s3 (square_turtle_at 1.775)
                      [square_start 1.775] 1,
        late_locals true).
Proof.
  unfold forward_front, late_locals. state.
  change (Turtle.p (square_turtle_at 1.775)) with (square_start 1.775).
  destruct (late_hit_front 0 pt0
              (Seg.init s1 (square_start 1.775) ((0.25 + 2.5) *: square_v))
              s2 s3 (square_turtle_at 1.775) [square_start 1.775] 1 s1) as [t0 Hf].
  rewrite Hf. state.
  change (negb (1 =? 1)%Z) with false. state.
  rewrite (square_probe_origin 0 pt0
             (Seg.init s1 (square_start 1.775) ((0.25 + 2.5) *: square_v))
             s2 s3 (square_turtle_at 1.775) [square_start 1.775] 1).
  rewrite square_advance_at.
  replace ((1.85 - 1.775) / 0.3) with 0.25 by lra.
  eexists. reflexivity.
Qed.

(** The checks of the step leave a quarter of a spacing to advance. *)
Lemma late_checks pt0 s1 s2 s3 :
  exists pt1 s1' s2',
    forward_checks
      (square_engine 0 pt0 s1 s2 s3 (square_turtle_at 1.775) [square_start 1.775] 1)
      square_v square_corner (late_locals false) =
    Ok (square_engine 0 pt1 s1' s2' s3 (square_turtle_at 1.775)
                      [square_start 1.775] 1,
        late_locals true).
Proof.
  unfold forward_checks.
  destruct (late_left_obstacle pt0 s1 s2 s3) as (p1 & a1 & a2 & Ha). rewrite Ha.
  cbv beta iota delta [bind].
  destruct (late_left_pipe p1 a1 a2 s3) as (p2 & b1 & b2 & Hb). rewrite Hb.
  cbv beta iota delta [bind].
  rewrite late_reset_p by reflexivity.
  destruct (late_front p2 b1 b2 s3) as (c1 & Hc). rewrite Hc.
  cbv beta iota delta [bind].
  exists p2, c1, b2. reflexivity.
Qed.

(** The first three moves of the manoeuvre: along the edge inserted
    last, the fourth, then right, towards the start of the first edge,
    and half a spacing on. *)
Lemma square_capped_at_eq x :
  Turtle.move
    (Turtle.turn_right
       (Turtle.rotate (square_turtle_at x) (0.3 *: Vector.normalized (Seg.v e3))))
    (0.5 *: Turtle.front_v
              (Turtle.turn_right
                 (Turtle.rotate (square_turtle_at x)
                                (0.3 *: Vector.normalized (Seg.v e3)))))
  = square_capped_at x.
Proof.
  unfold Vector.normalized. rewrite square_edge3_length.
  replace (Num.eqb 4 0) with false by (symmetry; apply eqb_false; lra).
  unfold Turtle.move, Turtle.turn_right, Turtle.rotate, square_capped_at,
    square_turtle_at, square_start.
  cbv beta iota zeta delta
    [Turtle.p Turtle.cw Turtle.front_v Turtle.front2_v Turtle.front3_v
     Turtle.left_v Turtle.left2_v Turtle.right_v Turtle.zAxis Turtle.up
     Turtle.side_up].
  f_equal; vec.
Qed.

(** After the manoeuvre the left probe points back along the first
    edge; the only segment near it is the one just inserted, which
    [intersect] skips. *)
Lemma late_miss_capped pf :
  segs pf =
  square_edges ++
  [Seg.mk (square_start 1.775)
          (Turtle.p (square_capped_at 1.775) - square_start 1.775)%vec 4] ->
  Tree.candidates (tree pf) = envelope_query ->
  spacing pf = 0.3 ->
  intersect pf (Turtle.left (Turtle.turn_right (square_capped_at 1.775)))
  = Ok (false, 1e32, (-1)%Z).
Proof.
  intros Hsegs Hq Hsp. unfold intersect, Tree.intersects_ext, Tree.ngeoms.
  unfold segs in Hsegs. rewrite Hq, Hsp. unfold segs. rewrite Hsegs.
  change (Z.of_nat (length (square_edges ++
            [Seg.mk (square_start 1.775)
                    (Turtle.p (square_capped_at 1.775) - square_start 1.775)%vec 4]))
          - 1)%Z
    with 4%Z.
  unfold envelope_query, square_edges, square_capped_at, square_start.
  cbn [app].
  scan. scan. scan. scan. scan. norm_z.
  change (envelope_scan 5 [] _) with (@nil Z).
  rewrite intersect_loop_skip. reflexivity.
Qed.

(** Started a quarter of a spacing before the probe line of the second
    edge, the first step on the square is the manoeuvre: the turtle
    ends half a spacing back on the line of the start, and its left
    probe finds nothing. *)
Example forward_short_pass_witness :
  let pf :=
    square_engine (-1) (Vector.mk 0 0 0)
                  (Seg.new (Vector.mk 0 0 0) (Vector.mk 1 0 0))
                  (Seg.new (Vector.mk 0 0 0) (Vector.mk 1 0 0))
                  (Seg.new (Vector.mk 0 0 0) (Vector.mk 1 0 0))
                  (square_turtle_at 1.775) [square_start 1.775] 0 in
  exists pf1 pf2 pf',
    forward_wall pf = Ok (Resolved pf1 square_v square_corner (late_locals false)) /\
    forward_checks pf1 square_v square_corner (late_locals false)
    = Ok (pf2, late_locals true) /\
    l_t (late_locals true) < 0.5 /\
    forward pf = Ok (false, pf') /\
    turtle pf' = Turtle.turn_right (square_capped_at 1.775) /\
    coords pf' = [square_start 1.775; Turtle.p (square_capped_at 1.775)] /\
    last pf' = (-1)%Z.
Proof.
  cbv zeta.
  set (s := Seg.new (Vector.mk 0 0 0) (Vector.mk 1 0 0)).
  set (pf := square_engine (-1) (Vector.mk 0 0 0) s s s
                           (square_turtle_at 1.775) [square_start 1.775] 0).
  pose proof (late_forward_wall (Vector.mk 0 0 0) s s s) as Hw. fold pf in Hw.
  destruct (late_checks square_corner
              (Seg.init (Seg.init s square_corner square_v)
                        (Vector.mk 1.85 (-2) 0) (Seg.v e1)) s s)
    as (p1 & a & b & Hc).
  assert (Ht : l_t (late_locals true) < 0.5) by (simpl; lra).
  destruct (proj1 (forward_short_pass pf) _ _ _ _ _ _ Hw Hc Ht)
    as (_ & Hres & Hret).
  assert (Hmiss :
    intersect
      (set_tree pf
         (Tree.insert (tree pf) (Tree.ngeoms (tree pf))
            (Seg.mk (square_start 1.775)
                    (Turtle.p (square_capped_at 1.775) - square_start 1.775)%vec
                    (Tree.ngeoms (tree pf)))))
      (Turtle.left (Turtle.turn_right (square_capped_at 1.775)))
    = Ok (false, 1e32, (-1)%Z))
    by (apply late_miss_capped; reflexivity).
  specialize (Hret e3 (square_start 1.775) false 1e32 (-1)%Z eq_refl eq_refl).
  cbv zeta in Hret.
  change (spacing pf) with 0.3 in Hret.
  change (turtle pf) with (square_turtle_at 1.775) in Hret.
  rewrite square_capped_at_eq in Hret.
  destruct (Hret Hmiss) as (pf' & Hf & Hl).
  destruct (Hres _ _ Hf) as (_ & tail & c & Htail & Hc0 & Hm).
  cbv zeta in Hm.
  assert (tail = e3) by (injection Htail as <-; reflexivity). subst tail.
  change (spacing pf) with 0.3 in Hm.
  change (turtle pf) with (square_turtle_at 1.775) in Hm.
  rewrite square_capped_at_eq in Hm.
  destruct Hm as (Htu & Hco & _).
  eexists. eexists. exists pf'.
  split; [exact Hw |]. split; [exact Hc |]. split; [exact Ht |].
  split; [exact Hf |]. split; [exact Htu |]. split; [exact Hco | exact Hl].
Defined.

(** C4, as the specification words it, fails when the wall probe gives
    [t = 0]: started on the square where the probe line of the second
    edge crosses the line of the start, [forward] finds [t = 0], which
    is below 0.5, and answers [False] at once; no point is recorded
    and the turtle stays where it is and as it is. *)
Example forward_zero_advance :
  exists pf0 q,
    init square_tree 0.3 true true = Ok pf0 /\
    let pf := set_max_iter (start pf0 (square_start 1.85) square_v) 1 in
    forward_wall pf = Ok (Returned q) /\
    ~ max_iter pf < IZR (iter pf + 1) /\
    Seg.t_ (Turtle.front (turtle pf)) (seg q) = 0 /\
    forward pf = Ok (false, q) /\
    coords q = coords pf /\ tree q = tree pf /\ turtle q = turtle pf.
Proof.
  destruct (square_started_at 1.85) as (pf0 & Hi & Hs).
  exists pf0. eexists. split; [exact Hi |]. cbv zeta. rewrite Hs.
  assert (Hw := square_forward_wall_at 1.85 (Vector.mk 0 0 0)
                  (Seg.new (Vector.mk 0 0 0) (Vector.mk 1 0 0))
                  (Seg.new (Vector.mk 0 0 0) (Vector.mk 1 0 0))
                  (Seg.new (Vector.mk 0 0 0) (Vector.mk 1 0 0))
                  ltac:(lra)).
  cbv zeta in Hw.
  replace (Num.eqb ((1.85 - 1.85) / 0.3) 0) with true in Hw
    by (symmetry; apply eqb_true; lra).
  split; [exact Hw |].
  split; [cbn [square_engine max_iter iter]; norm_z; lra |].
  split.
  { cbn [square_engine turtle seg].
    rewrite square_advance_at. lra. }
  split; [unfold forward; rewrite Hw; reflexivity |].
  split; [reflexivity |]. split; reflexivity.
Qed.
